(** * FlowLock: structural drift detection between project snapshots

    A shallow embedding of the FlowLock core (signature comparator, drift
    aggregator, symbol registry and keys, validator, snapshot store, git-ref
    front end) together with the properties its specification states about
    it and further properties of the code.

    JavaScript strings are sequences of UTF-16 code units; they are modelled
    as lists of [N], and every string operation of the platform that the
    code relies on ([trim], [startsWith], the [\s] character class, ...) is
    written out on code units. *)

From Stdlib Require Import String Ascii List NArith ZArith Bool Lia Arith Permutation.
From Stdlib Require Import DecimalN.
Import ListNotations.

Set Implicit Arguments.

(* ===================================================================== *)
(** * JavaScript strings                                                  *)
(* ===================================================================== *)

Definition jsstring := list N.

(** A string literal of the source text (ASCII only). *)
Definition lit (s : string) : jsstring :=
  map N_of_ascii (list_ascii_of_string s).
Arguments lit s%_string.

Fixpoint str_eqb (a b : jsstring) : bool :=
  match a, b with
  | [], [] => true
  | x :: a', y :: b' => N.eqb x y && str_eqb a' b'
  | _, _ => false
  end.

(** Code-unit order, the order of [<] on strings and of the default
    [Array.prototype.sort]. *)
Fixpoint str_leb (a b : jsstring) : bool :=
  match a, b with
  | [], _ => true
  | _ :: _, [] => false
  | x :: a', y :: b' =>
      if N.ltb x y then true
      else if N.eqb x y then str_leb a' b' else false
  end.

(** The [\s] class of regular expressions, which is also the set of code
    units removed by [String.prototype.trim] (WhiteSpace and
    LineTerminator). *)
Definition is_ws (c : N) : bool :=
  (((9 <=? c) && (c <=? 13)) || (c =? 32) || (c =? 160) || (c =? 5760)
   || ((8192 <=? c) && (c <=? 8202)) || (c =? 8232) || (c =? 8233)
   || (c =? 8239) || (c =? 8287) || (c =? 12288) || (c =? 65279))%N.

Fixpoint trimStart (s : jsstring) : jsstring :=
  match s with
  | [] => []
  | c :: r => if is_ws c then trimStart r else s
  end.

Definition trimEnd (s : jsstring) : jsstring := rev (trimStart (rev s)).

Definition trim (s : jsstring) : jsstring := trimEnd (trimStart s).

Fixpoint startsWith (s p : jsstring) {struct p} : bool :=
  match p, s with
  | [], _ => true
  | _ :: _, [] => false
  | y :: p', x :: s' => N.eqb x y && startsWith s' p'
  end.

(** [s.includes(p)]. *)
Fixpoint includes (s p : jsstring) : bool :=
  startsWith s p ||
  match s with
  | [] => false
  | _ :: s' => includes s' p
  end.

(** [s.replace(/\s+/g, " ")]: every maximal run of white space becomes one
    space.  [in_run] tells that the previous code unit belonged to a run. *)
Fixpoint replace_ws_runs (in_run : bool) (s : jsstring) : jsstring :=
  match s with
  | [] => []
  | c :: r =>
      if is_ws c
      then (if in_run then replace_ws_runs true r
            else 32%N :: replace_ws_runs true r)
      else c :: replace_ws_runs false r
  end.

(* ===================================================================== *)
(** * Map and Set of the platform, Record objects                         *)
(* ===================================================================== *)

(** A [Map] keeps its entries in insertion order; setting an existing key
    replaces the value and keeps the position. *)
Definition JsMap (V : Type) := list (jsstring * V).

Fixpoint Map_set V (m : JsMap V) (k : jsstring) (v : V) : JsMap V :=
  match m with
  | [] => [(k, v)]
  | (k', v') :: m' =>
      if str_eqb k' k then (k', v) :: m' else (k', v') :: Map_set m' k v
  end.

Fixpoint Map_get V (m : JsMap V) (k : jsstring) : option V :=
  match m with
  | [] => None
  | (k', v') :: m' => if str_eqb k' k then Some v' else Map_get m' k
  end.

Definition Map_has V (m : JsMap V) (k : jsstring) : bool :=
  match Map_get m k with Some _ => true | None => false end.

(** [new Map(entries)]. *)
Definition Map_new V (entries : list (jsstring * V)) : JsMap V :=
  fold_left (fun m e => Map_set m (fst e) (snd e)) entries [].

(** A [Set] of strings, in insertion order. *)
Definition JsSet := list jsstring.

Definition Set_has (s : JsSet) (k : jsstring) : bool :=
  existsb (str_eqb k) s.

Definition Set_add (s : JsSet) (k : jsstring) : JsSet :=
  if Set_has s k then s else s ++ [k].

Definition Set_new (l : list jsstring) : JsSet := fold_left Set_add l [].

(** A plain object used as [Record<string, V>]: its own properties in
    property order. *)
Definition JsRecord (V : Type) := list (jsstring * V).

Definition Object_keys V (o : JsRecord V) : list jsstring := map fst o.

(** [o[key]]; [None] stands for [undefined]. *)
Fixpoint Record_get V (o : JsRecord V) (k : jsstring) : option V :=
  match o with
  | [] => None
  | (k', v) :: o' => if str_eqb k' k then Some v else Record_get o' k
  end.

(** [Array.prototype.sort()] without a comparator on an array of strings:
    ascending code-unit order. *)
Fixpoint sort_insert (x : jsstring) (l : list jsstring) : list jsstring :=
  match l with
  | [] => [x]
  | y :: l' => if str_leb x y then x :: l else y :: sort_insert x l'
  end.

Definition Array_sort (l : list jsstring) : list jsstring :=
  fold_right sort_insert [] l.

(* ===================================================================== *)
(** * types.ts                                                            *)
(* ===================================================================== *)

Record ParameterSignature := {
  param_name : jsstring;
  param_type : jsstring;
  param_optional : bool
}.

Record FunctionSignature := {
  fn_name : jsstring;
  fn_parameters : list ParameterSignature;
  fn_returnType : jsstring;
  fn_filePath : jsstring;
  fn_isExported : bool
}.

Record InterfaceProperty := {
  prop_name : jsstring;
  prop_type : jsstring;
  prop_optional : bool
}.

Record InterfaceDefinition := {
  iface_name : jsstring;
  iface_properties : list InterfaceProperty;
  iface_filePath : jsstring
}.

Record TypeAliasDefinition := {
  alias_name : jsstring;
  alias_definition : jsstring;
  alias_filePath : jsstring
}.

Record SymbolRegistry := {
  functions : JsRecord FunctionSignature;
  interfaces : JsRecord InterfaceDefinition;
  types : JsRecord TypeAliasDefinition
}.

Record ProjectSnapshot := { symbols : SymbolRegistry }.

(** Every variant carries its [breaking] field, as the objects do. *)
Inductive SignatureChange :=
| ParameterAdded (parameter : ParameterSignature) (breaking : bool)
| ParameterRemoved (parameter : ParameterSignature) (breaking : bool)
| ParameterTypeChanged (before after : ParameterSignature) (breaking : bool)
| ReturnTypeChanged (before after : jsstring) (breaking : bool).

Definition breaking (c : SignatureChange) : bool :=
  match c with
  | ParameterAdded _ b => b
  | ParameterRemoved _ b => b
  | ParameterTypeChanged _ _ b => b
  | ReturnTypeChanged _ _ b => b
  end.

Record FunctionDrift := {
  drift_name : jsstring;
  filePathBefore : jsstring;
  filePathAfter : jsstring;
  changes : list SignatureChange
}.

Inductive SemverBump := major | minor | patch.

Record DriftReport := {
  modifiedFunctions : list FunctionDrift;
  addedFunctions : list jsstring;
  removedFunctions : list jsstring;
  hasBreakingChanges : bool;
  suggestedVersion : SemverBump
}.

(** Object literals. *)
Definition mkParam (n t : jsstring) (o : bool) : ParameterSignature :=
  {| param_name := n; param_type := t; param_optional := o |}.

Definition mkFn (n : jsstring) (ps : list ParameterSignature)
    (ret path : jsstring) : FunctionSignature :=
  {| fn_name := n; fn_parameters := ps; fn_returnType := ret;
     fn_filePath := path; fn_isExported := true |}.

Definition mkSnapshot (fs : JsRecord FunctionSignature) : ProjectSnapshot :=
  {| symbols := {| functions := fs; interfaces := []; types := [] |} |}.

Definition SNAPSHOT_FORMAT_VERSION : Z := 1.

(* ===================================================================== *)
(** * analyzer/signatureComparator.ts                                     *)
(* ===================================================================== *)

Definition normalizeForComparison (s : jsstring) : jsstring :=
  trim (replace_ws_runs false s).

Definition paramsEqual (a b : ParameterSignature) : bool :=
  str_eqb (param_name a) (param_name b)
  && Bool.eqb (param_optional a) (param_optional b)
  && str_eqb (normalizeForComparison (param_type a))
             (normalizeForComparison (param_type b)).

Definition paramEntries (f : FunctionSignature)
  : list (jsstring * ParameterSignature) :=
  map (fun p => (param_name p, p)) (fn_parameters f).

(** Body of the first loop: one entry of [afterParams]. *)
Definition afterStep (beforeParams : JsMap ParameterSignature)
    (acc : list SignatureChange) (e : jsstring * ParameterSignature)
  : list SignatureChange :=
  let '(name, afterParam) := e in
  match Map_get beforeParams name with
  | None =>
      acc ++ [ParameterAdded afterParam (negb (param_optional afterParam))]
  | Some beforeParam =>
      if negb (paramsEqual beforeParam afterParam)
      then acc ++ [ParameterTypeChanged beforeParam afterParam true]
      else acc
  end.

(** Body of the second loop: one entry of [beforeParams]. *)
Definition beforeStep (afterParams : JsMap ParameterSignature)
    (acc : list SignatureChange) (e : jsstring * ParameterSignature)
  : list SignatureChange :=
  let '(name, beforeParam) := e in
  if negb (Map_has afterParams name)
  then acc ++ [ParameterRemoved beforeParam true]
  else acc.

Definition compareSignatures (before after : FunctionSignature)
  : list SignatureChange :=
  let changes0 : list SignatureChange := [] in
  let beforeParams := Map_new (paramEntries before) in
  let afterParams := Map_new (paramEntries after) in
  let changes1 := fold_left (afterStep beforeParams) afterParams changes0 in
  let changes2 := fold_left (beforeStep afterParams) beforeParams changes1 in
  let beforeReturn := normalizeForComparison (fn_returnType before) in
  let afterReturn := normalizeForComparison (fn_returnType after) in
  if negb (str_eqb beforeReturn afterReturn)
  then changes2 ++
       [ReturnTypeChanged (fn_returnType before) (fn_returnType after) true]
  else changes2.

(* ===================================================================== *)
(** * analyzer/driftAnalyzer.ts                                           *)
(* ===================================================================== *)

Definition computeHasBreakingChanges
    (modified : list FunctionDrift) (removed : list jsstring) : bool :=
  if (0 <? length removed)%nat then true
  else existsb (fun fn => existsb breaking (changes fn)) modified.

Definition computeSuggestedVersion
    (modified : list FunctionDrift) (added removed : list jsstring)
  : SemverBump :=
  if (0 <? length removed)%nat then major
  else
    let hasBreakingModification :=
      existsb (fun fn => existsb breaking (changes fn)) modified in
    if hasBreakingModification then major
    else if (0 <? length added)%nat || (0 <? length modified)%nat then minor
    else patch.

(** The two arrays filled by the first loop of [compareSnapshots]. *)
Definition afterKeyStep (before after : ProjectSnapshot) (beforeKeys : JsSet)
    (acc : list jsstring * list FunctionDrift) (key : jsstring)
  : list jsstring * list FunctionDrift :=
  let '(addedFunctions, modifiedFunctions) := acc in
  if negb (Set_has beforeKeys key)
  then (addedFunctions ++ [key], modifiedFunctions)
  else
    match Record_get (functions (symbols before)) key,
          Record_get (functions (symbols after)) key with
    | Some beforeFn, Some afterFn =>
        let changes := compareSignatures beforeFn afterFn in
        if (0 <? length changes)%nat
        then (addedFunctions,
              modifiedFunctions ++
                [{| drift_name := fn_name afterFn;
                    filePathBefore := fn_filePath beforeFn;
                    filePathAfter := fn_filePath afterFn;
                    changes := changes |}])
        else acc
    | _, _ => acc
    end.

Definition beforeKeyStep (afterKeys : JsSet)
    (removedFunctions : list jsstring) (key : jsstring) : list jsstring :=
  if negb (Set_has afterKeys key)
  then removedFunctions ++ [key]
  else removedFunctions.

Definition compareSnapshots (before after : ProjectSnapshot) : DriftReport :=
  let beforeKeys := Set_new (Object_keys (functions (symbols before))) in
  let afterKeys := Set_new (Object_keys (functions (symbols after))) in
  let '(addedFunctions, modifiedFunctions) :=
    fold_left (afterKeyStep before after beforeKeys) afterKeys ([], []) in
  let removedFunctions :=
    fold_left (beforeKeyStep afterKeys) beforeKeys [] in
  let addedFunctions := Array_sort addedFunctions in
  let removedFunctions := Array_sort removedFunctions in
  {| modifiedFunctions := modifiedFunctions;
     addedFunctions := addedFunctions;
     removedFunctions := removedFunctions;
     hasBreakingChanges :=
       computeHasBreakingChanges modifiedFunctions removedFunctions;
     suggestedVersion :=
       computeSuggestedVersion modifiedFunctions addedFunctions
         removedFunctions |}.

(* ===================================================================== *)
(** * Values, exceptions                                                  *)
(* ===================================================================== *)

(** Values that the untyped entry points can receive and that a JSON
    document can denote.  Numbers are integers: the only numbers of the
    documents handled here are format versions. *)
Inductive JsValue :=
| VUndefined
| VNull
| VBoolean (b : bool)
| VNumber (n : Z)
| VString (s : jsstring)
| VArray (items : list JsValue)
| VObject (props : list (jsstring * JsValue)).

(** The outcome of a call: a value, or [throw new Error(message)]. *)
Inductive Result (A : Type) :=
| Ok (value : A)
| Throw (message : jsstring).
Arguments Ok {A} value.
Arguments Throw {A} message.

Definition bind A B (r : Result A) (k : A -> Result B) : Result B :=
  match r with
  | Ok a => k a
  | Throw m => Throw m
  end.

Notation "x <- r ;; k" := (bind r (fun x => k))
  (at level 61, r at next level, right associativity).

Definition isOk A (r : Result A) : bool :=
  match r with Ok _ => true | Throw _ => false end.

(* ===================================================================== *)
(** * The [path] module of the platform (POSIX flavour)                   *)
(* ===================================================================== *)

Definition slash : N := 47%N.

(** [s.split("/")]. *)
Fixpoint splitSlash (s : jsstring) : list jsstring :=
  match s with
  | [] => [[]]
  | c :: r =>
      if N.eqb c slash then [] :: splitSlash r
      else match splitSlash r with
           | seg :: segs => (c :: seg) :: segs
           | [] => [[c]]
           end
  end.

(** [segs.join("/")]. *)
Fixpoint joinSlash (segs : list jsstring) : jsstring :=
  match segs with
  | [] => []
  | [s] => s
  | s :: rest => s ++ slash :: joinSlash rest
  end.

Definition dot : jsstring := lit ".".
Definition dotdot : jsstring := lit "..".

(** One segment of [normalizeString]; the stack holds the segments kept so
    far, the last one first. *)
Definition normStep (allowAboveRoot : bool) (stack : list jsstring)
    (seg : jsstring) : list jsstring :=
  if str_eqb seg [] || str_eqb seg dot then stack
  else if str_eqb seg dotdot then
    match stack with
    | top :: rest =>
        if allowAboveRoot && str_eqb top dotdot then dotdot :: stack
        else rest
    | [] => if allowAboveRoot then [dotdot] else []
    end
  else seg :: stack.

Definition normalizeSegments (allowAboveRoot : bool) (path : jsstring)
  : list jsstring :=
  rev (fold_left (normStep allowAboveRoot) (splitSlash path) []).

Definition normalizeString (path : jsstring) (allowAboveRoot : bool)
  : jsstring :=
  joinSlash (normalizeSegments allowAboveRoot path).

(** [path.charCodeAt(0) === 47]. *)
Definition isAbsolute (path : jsstring) : bool :=
  match path with
  | c :: _ => N.eqb c slash
  | [] => false
  end.

(** The loop of [path.resolve]: arguments from the right, the working
    directory last, until an absolute one is met; empty ones are skipped. *)
Fixpoint resolveLoop (argsFromRight : list jsstring) (resolvedPath : jsstring)
  : jsstring * bool :=
  match argsFromRight with
  | [] => (resolvedPath, false)
  | path :: rest =>
      if (length path =? 0)%nat then resolveLoop rest resolvedPath
      else
        let resolvedPath := path ++ slash :: resolvedPath in
        if isAbsolute path then (resolvedPath, true)
        else resolveLoop rest resolvedPath
  end.

Section Process.

(** [process.cwd()]. *)
Variable cwd : jsstring.

Definition path_resolve (args : list jsstring) : jsstring :=
  let '(resolvedPath, resolvedAbsolute) :=
    resolveLoop (rev (cwd :: args)) [] in
  let resolvedPath := normalizeString resolvedPath (negb resolvedAbsolute) in
  if resolvedAbsolute then slash :: resolvedPath
  else if (0 <? length resolvedPath)%nat then resolvedPath
  else dot.

(** The non-empty segments of a path. *)
Definition segments (path : jsstring) : list jsstring :=
  filter (fun seg => negb (str_eqb seg [])) (splitSlash path).

Fixpoint stripCommon (from to : list jsstring)
  : list jsstring * list jsstring :=
  match from, to with
  | f :: from', t :: to' =>
      if str_eqb f t then stripCommon from' to' else (from, to)
  | _, _ => (from, to)
  end.

(** [path.relative(from, to)]: climb out of what is left of [from] after the
    common leading segments, then descend into what is left of [to]. *)
Definition path_relative (from to : jsstring) : jsstring :=
  if str_eqb from to then []
  else
    let from := path_resolve [from] in
    let to := path_resolve [to] in
    if str_eqb from to then []
    else
      let '(up, down) := stripCommon (segments from) (segments to) in
      joinSlash (map (fun _ => dotdot) up ++ down).

(* ===================================================================== *)
(** * security/validation.ts                                              *)
(* ===================================================================== *)

(** The class [[\x00-\x1f\x7f]]. *)
Definition isControlChar (c : N) : bool := ((c <=? 31) || (c =? 127))%N.

(** [UNSAFE_REF_CHARS]: double quote, single quote, backtick, dollar,
    backslash, semicolon, pipe, ampersand, angle brackets, parentheses and
    the white space class. *)
Definition UNSAFE_REF_CHARS (c : N) : bool :=
  ((c =? 34) || (c =? 39) || (c =? 96) || (c =? 36) || (c =? 92)
   || (c =? 59) || (c =? 124) || (c =? 38) || (c =? 60) || (c =? 62)
   || (c =? 40) || (c =? 41))%N
  || is_ws c.

Definition MAX_PATH_LENGTH : nat := 4096.

Definition validateGitRef (ref : JsValue) : Result jsstring :=
  match ref with
  | VString ref =>
      let trimmed := trim ref in
      if (length trimmed =? 0)%nat then Throw (lit "Git ref cannot be empty")
      else if (256 <? length trimmed)%nat
      then Throw (lit "Git ref exceeds maximum length (256)")
      else if existsb isControlChar ref || existsb UNSAFE_REF_CHARS ref
      then Throw (lit "Git ref contains invalid characters. Use only alphanumeric, hyphens, dots, slashes.")
      else Ok trimmed
  | _ => Throw (lit "Git ref must be a string")
  end.

Definition validatePath (path : JsValue) (baseDir : option jsstring)
  : Result jsstring :=
  match path with
  | VString path =>
      let trimmed := trim path in
      if (length trimmed =? 0)%nat then Throw (lit "Path cannot be empty")
      else if (MAX_PATH_LENGTH <? length trimmed)%nat
      then Throw (lit "Path exceeds maximum length (4096)")
      else
        let base :=
          path_resolve [match baseDir with Some d => d | None => cwd end] in
        let resolved := path_resolve [base; trimmed] in
        let rel := path_relative base resolved in
        if startsWith rel dotdot || startsWith rel [slash]
        then Throw (lit "Path resolves outside allowed directory")
        else Ok resolved
  | _ => Throw (lit "Path must be a string")
  end.

Definition sanitizePathComponent (component : jsstring) : Result jsstring :=
  if includes component dotdot || startsWith component [slash]
  then Throw (lit "Invalid path component")
  else Ok component.

End Process.

(* ===================================================================== *)
(** * JSON.stringify (with indent 2) and JSON.parse                       *)
(* ===================================================================== *)

(** Surrogate code units. *)
Definition isLeadingSurrogate (c : N) : bool :=
  ((55296 <=? c) && (c <=? 56319))%N.

Definition isTrailingSurrogate (c : N) : bool :=
  ((56320 <=? c) && (c <=? 57343))%N.

Definition hexDigit (d : N) : N :=
  (if d <? 10 then 48 + d else 87 + d)%N.

(** The escape of a code unit: backslash, u and four lower-case hexadecimal
    digits. *)
Definition unicodeEscape (c : N) : jsstring :=
  [92; 117; hexDigit ((c / 4096) mod 16); hexDigit ((c / 256) mod 16);
   hexDigit ((c / 16) mod 16); hexDigit (c mod 16)]%N.

(** One code unit that is not a surrogate, as [QuoteJSONString] writes
    it. *)
Definition escapeChar (c : N) : jsstring :=
  (if c =? 8 then [92; 98]
   else if c =? 9 then [92; 116]
   else if c =? 10 then [92; 110]
   else if c =? 12 then [92; 102]
   else if c =? 13 then [92; 114]
   else if c =? 34 then [92; 34]
   else if c =? 92 then [92; 92]
   else if c <? 32 then unicodeEscape c
   else [c])%N.

(** The inside of a quoted string: a surrogate pair is copied, a lone
    surrogate is escaped. *)
Fixpoint quoteBody (s : jsstring) : jsstring :=
  match s with
  | [] => []
  | c :: r =>
      if isLeadingSurrogate c then
        match r with
        | d :: r' =>
            if isTrailingSurrogate d then c :: d :: quoteBody r'
            else unicodeEscape c ++ quoteBody r
        | [] => unicodeEscape c
        end
      else if isTrailingSurrogate c then unicodeEscape c ++ quoteBody r
      else escapeChar c ++ quoteBody r
  end.

Definition QuoteJSONString (s : jsstring) : jsstring :=
  34%N :: quoteBody s ++ [34%N].

Fixpoint digitsOf (u : Decimal.uint) : jsstring :=
  match u with
  | Decimal.Nil => []
  | Decimal.D0 r => 48%N :: digitsOf r
  | Decimal.D1 r => 49%N :: digitsOf r
  | Decimal.D2 r => 50%N :: digitsOf r
  | Decimal.D3 r => 51%N :: digitsOf r
  | Decimal.D4 r => 52%N :: digitsOf r
  | Decimal.D5 r => 53%N :: digitsOf r
  | Decimal.D6 r => 54%N :: digitsOf r
  | Decimal.D7 r => 55%N :: digitsOf r
  | Decimal.D8 r => 56%N :: digitsOf r
  | Decimal.D9 r => 57%N :: digitsOf r
  end.

(** [Number::toString] on an integer (below 10^21 in absolute value). *)
Definition Number_toString (n : Z) : jsstring :=
  if (n <? 0)%Z then 45%N :: digitsOf (N.to_uint (Z.abs_N n))
  else digitsOf (N.to_uint (Z.to_N n)).

Fixpoint joinWith (sep : jsstring) (parts : list jsstring) : jsstring :=
  match parts with
  | [] => []
  | [p] => p
  | p :: rest => p ++ sep ++ joinWith sep rest
  end.

(** The indentation at a nesting depth, for a gap of two spaces. *)
Definition indentOf (depth : nat) : jsstring := repeat 32%N (2 * depth).

Definition newline : N := 10%N.

(** The text of a non-empty object or array from the texts of its
    entries. *)
Definition wrapEntries (opening closing : N) (depth : nat)
    (parts : list jsstring) : jsstring :=
  match parts with
  | [] => [opening; closing]
  | _ :: _ =>
      opening :: newline :: indentOf (S depth)
      ++ joinWith (44%N :: newline :: indentOf (S depth)) parts
      ++ newline :: indentOf depth ++ [closing]
  end.

(** [SerializeJSONProperty]; [None] stands for [undefined]. *)
Fixpoint SerializeJSONProperty (depth : nat) (v : JsValue) : option jsstring :=
  match v with
  | VUndefined => None
  | VNull => Some (lit "null")
  | VBoolean true => Some (lit "true")
  | VBoolean false => Some (lit "false")
  | VNumber n => Some (Number_toString n)
  | VString s => Some (QuoteJSONString s)
  | VArray items =>
      Some (wrapEntries 91%N 93%N depth
              (map (fun x =>
                      match SerializeJSONProperty (S depth) x with
                      | Some t => t
                      | None => lit "null"
                      end) items))
  | VObject props =>
      Some (wrapEntries 123%N 125%N depth
              (flat_map (fun kv =>
                           let '(k, x) := kv in
                           match SerializeJSONProperty (S depth) x with
                           | Some t => [QuoteJSONString k ++ 58%N :: 32%N :: t]
                           | None => []
                           end) props))
  end.

(** [JSON.stringify(value, null, 2)]. *)
Definition JSON_stringify (v : JsValue) : option jsstring :=
  SerializeJSONProperty 0 v.

(** White space of the JSON grammar. *)
Definition isJsonWs (c : N) : bool :=
  ((c =? 32) || (c =? 10) || (c =? 13) || (c =? 9))%N.

Fixpoint skipWs (s : jsstring) : jsstring :=
  match s with
  | [] => []
  | c :: r => if isJsonWs c then skipWs r else s
  end.

Definition hexValue (c : N) : option N :=
  (if (48 <=? c) && (c <=? 57) then Some (c - 48)
   else if (97 <=? c) && (c <=? 102) then Some (c - 87)
   else if (65 <=? c) && (c <=? 70) then Some (c - 55)
   else None)%N.

Definition hex4Value (h1 h2 h3 h4 : N) : option N :=
  match hexValue h1, hexValue h2, hexValue h3, hexValue h4 with
  | Some a, Some b, Some c, Some d => Some (a * 4096 + b * 256 + c * 16 + d)%N
  | _, _, _, _ => None
  end.

(** The escapes of one character after a backslash. *)
Definition simpleEscape (e : N) : option N :=
  (if e =? 34 then Some 34
   else if e =? 92 then Some 92
   else if e =? 47 then Some 47
   else if e =? 98 then Some 8
   else if e =? 102 then Some 12
   else if e =? 110 then Some 10
   else if e =? 114 then Some 13
   else if e =? 116 then Some 9
   else None)%N.

(** A string after its opening quote: the value and the text that follows
    the closing quote. *)
Fixpoint parseStringBody (s : jsstring) : option (jsstring * jsstring) :=
  match s with
  | [] => None
  | c :: r =>
      if N.eqb c 34 then Some ([], r)
      else if N.eqb c 92 then
        match r with
        | [] => None
        | e :: r1 =>
            if N.eqb e 117 then
              match r1 with
              | h1 :: h2 :: h3 :: h4 :: r2 =>
                  match hex4Value h1 h2 h3 h4, parseStringBody r2 with
                  | Some u, Some (str, rest) => Some (u :: str, rest)
                  | _, _ => None
                  end
              | _ => None
              end
            else
              match simpleEscape e, parseStringBody r1 with
              | Some u, Some (str, rest) => Some (u :: str, rest)
              | _, _ => None
              end
        end
      else if N.ltb c 32 then None
      else
        match parseStringBody r with
        | Some (str, rest) => Some (c :: str, rest)
        | None => None
        end
  end.

Definition digitOf (c : N) (u : Decimal.uint) : option Decimal.uint :=
  (if c =? 48 then Some (Decimal.D0 u)
   else if c =? 49 then Some (Decimal.D1 u)
   else if c =? 50 then Some (Decimal.D2 u)
   else if c =? 51 then Some (Decimal.D3 u)
   else if c =? 52 then Some (Decimal.D4 u)
   else if c =? 53 then Some (Decimal.D5 u)
   else if c =? 54 then Some (Decimal.D6 u)
   else if c =? 55 then Some (Decimal.D7 u)
   else if c =? 56 then Some (Decimal.D8 u)
   else if c =? 57 then Some (Decimal.D9 u)
   else None)%N.

(** The longest run of digits at the head of a text, and what follows. *)
Fixpoint readDigits (s : jsstring) : Decimal.uint * jsstring :=
  match s with
  | [] => (Decimal.Nil, [])
  | c :: r =>
      let '(u, rest) := readDigits r in
      match digitOf c u with
      | Some u' => (u', rest)
      | None => (Decimal.Nil, s)
      end
  end.

Definition uint_eqb (a b : Decimal.uint) : bool :=
  if Decimal.uint_eq_dec a b then true else false.

(** The largest integer below which every integer is a Number. *)
Definition MAX_SAFE : N := 9007199254740992%N.

(** An integer literal.  A fraction or an exponent, and integers that a
    Number does not hold exactly, are outside this model and read as no
    value. *)
Definition parseDigits (s : jsstring) : option (N * jsstring) :=
  let '(u, rest) := readDigits s in
  if uint_eqb u Decimal.Nil then None
  else if negb (uint_eqb (Decimal.unorm u) u) then None
  else if (MAX_SAFE <? N.of_uint u)%N then None
  else
    match rest with
    | c :: _ =>
        if (c =? 46) || (c =? 101) || (c =? 69) then None
        else Some (N.of_uint u, rest)
    | [] => Some (N.of_uint u, rest)
    end%N.

Definition parseNumber (s : jsstring) : option (Z * jsstring) :=
  match s with
  | c :: r =>
      if N.eqb c 45 then
        match parseDigits r with
        | Some (n, rest) => Some (Z.opp (Z.of_N n), rest)
        | None => None
        end
      else
        match parseDigits s with
        | Some (n, rest) => Some (Z.of_N n, rest)
        | None => None
        end
  | [] => None
  end.

(** A keyword of the grammar. *)
Definition expectWord (w : jsstring) (v : JsValue) (s : jsstring)
  : option (JsValue * jsstring) :=
  if startsWith s w then Some (v, skipn (length w) s) else None.

(** Values, the elements of a non-empty array after its bracket, and the
    members of a non-empty object after its brace.  Members are returned in
    text order; the object is built from them as by successive property
    definitions. *)
Fixpoint parseValue (fuel : nat) (s : jsstring) {struct fuel}
  : option (JsValue * jsstring) :=
  match fuel with
  | O => None
  | S fuel' =>
      match skipWs s with
      | [] => None
      | c :: r =>
          if N.eqb c 123 then
            match skipWs r with
            | c' :: r' =>
                if N.eqb c' 125 then Some (VObject [], r')
                else
                  match parseMembers fuel' r with
                  | Some (ms, rest) => Some (VObject (Map_new ms), rest)
                  | None => None
                  end
            | [] => None
            end
          else if N.eqb c 91 then
            match skipWs r with
            | c' :: r' =>
                if N.eqb c' 93 then Some (VArray [], r')
                else
                  match parseElements fuel' r with
                  | Some (vs, rest) => Some (VArray vs, rest)
                  | None => None
                  end
            | [] => None
            end
          else if N.eqb c 34 then
            match parseStringBody r with
            | Some (str, rest) => Some (VString str, rest)
            | None => None
            end
          else if N.eqb c 110 then expectWord (lit "null") VNull (c :: r)
          else if N.eqb c 116 then
            expectWord (lit "true") (VBoolean true) (c :: r)
          else if N.eqb c 102 then
            expectWord (lit "false") (VBoolean false) (c :: r)
          else
            match parseNumber (c :: r) with
            | Some (n, rest) => Some (VNumber n, rest)
            | None => None
            end
      end
  end
with parseElements (fuel : nat) (s : jsstring) {struct fuel}
  : option (list JsValue * jsstring) :=
  match fuel with
  | O => None
  | S fuel' =>
      match parseValue fuel' s with
      | Some (v, r) =>
          match skipWs r with
          | c :: r' =>
              if N.eqb c 44 then
                match parseElements fuel' r' with
                | Some (vs, rest) => Some (v :: vs, rest)
                | None => None
                end
              else if N.eqb c 93 then Some ([v], r')
              else None
          | [] => None
          end
      | None => None
      end
  end
with parseMembers (fuel : nat) (s : jsstring) {struct fuel}
  : option (list (jsstring * JsValue) * jsstring) :=
  match fuel with
  | O => None
  | S fuel' =>
      match skipWs s with
      | c :: r =>
          if N.eqb c 34 then
            match parseStringBody r with
            | Some (k, r1) =>
                match skipWs r1 with
                | c2 :: r2 =>
                    if N.eqb c2 58 then
                      match parseValue fuel' r2 with
                      | Some (v, r3) =>
                          match skipWs r3 with
                          | c4 :: r4 =>
                              if N.eqb c4 44 then
                                match parseMembers fuel' r4 with
                                | Some (ms, rest) => Some ((k, v) :: ms, rest)
                                | None => None
                                end
                              else if N.eqb c4 125 then Some ([(k, v)], r4)
                              else None
                          | [] => None
                          end
                      | None => None
                      end
                    else None
                | [] => None
                end
            | None => None
            end
          else None
      | [] => None
      end
  end.

(** [JSON.parse]; [None] stands for a thrown SyntaxError.  Two things of
    the platform are not in this model: a number literal with a fraction or
    an exponent, or beyond 2^53, has a value there and none here; and the
    keys of an object that are array indices are listed first there, in
    numeric order, and in text order here. *)
Definition JSON_parse (s : jsstring) : option JsValue :=
  match parseValue (S (length s)) s with
  | Some (v, rest) =>
      match skipWs rest with
      | [] => Some v
      | _ :: _ => None
      end
  | None => None
  end.

(* ===================================================================== *)
(** * The file system                                                     *)
(* ===================================================================== *)

(** Regular files with their contents, and directories, by absolute path. *)
Record FileSystem := {
  fs_files : JsMap jsstring;
  fs_dirs : JsSet
}.

(** A computation that reads and changes the file system and may throw. *)
Definition IO (A : Type) : Type := FileSystem -> Result A * FileSystem.

Definition ret A (a : A) : IO A := fun fs => (Ok a, fs).

Definition throw A (message : jsstring) : IO A := fun fs => (Throw message, fs).
Arguments throw {A} message.

Definition bindIO A B (m : IO A) (k : A -> IO B) : IO B :=
  fun fs =>
    match m fs with
    | (Ok a, fs') => k a fs'
    | (Throw e, fs') => (Throw e, fs')
    end.

Definition liftResult A (r : Result A) : IO A := fun fs => (r, fs).

Notation "x <-- m ;;; k" := (bindIO m (fun x => k))
  (at level 61, m at next level, right associativity).
Notation "m ;;; k" := (bindIO m (fun _ => k))
  (at level 61, right associativity).

(** What a string becomes when written as UTF-8 and read back: a surrogate
    that is not part of a pair is replaced by U+FFFD. *)
Fixpoint toWellFormed (s : jsstring) : jsstring :=
  match s with
  | [] => []
  | c :: r =>
      if isLeadingSurrogate c then
        match r with
        | d :: r' =>
            if isTrailingSurrogate d then c :: d :: toWellFormed r'
            else 65533%N :: toWellFormed r
        | [] => [65533%N]
        end
      else if isTrailingSurrogate c then 65533%N :: toWellFormed r
      else c :: toWellFormed r
  end.

Definition isFile (fs : FileSystem) (path : jsstring) : bool :=
  Map_has (fs_files fs) path.

Definition isDirectory (fs : FileSystem) (path : jsstring) : bool :=
  Set_has (fs_dirs fs) path.

Definition existsSync (path : jsstring) : IO bool :=
  fun fs => (Ok (isFile fs path || isDirectory fs path), fs).

(** All leading parts of a list of segments, the empty one first. *)
Fixpoint prefixes (segs : list jsstring) : list (list jsstring) :=
  match segs with
  | [] => [[]]
  | x :: rest => [] :: map (cons x) (prefixes rest)
  end.

(** The directory named by a resolved path, and the directories above it. *)
Definition ancestorsOf (dir : jsstring) : list jsstring :=
  map (fun p => slash :: joinSlash p) (prefixes (segments dir)).

(** [mkdirSync(dir, { recursive: true })].  The platform's error texts are
    abbreviated to their codes. *)
Definition mkdirSync (dir : jsstring) : IO unit :=
  fun fs =>
    if existsb (isFile fs) (ancestorsOf dir) then (Throw (lit "ENOTDIR"), fs)
    else (Ok tt, {| fs_files := fs_files fs;
                    fs_dirs := fold_left Set_add (ancestorsOf dir) (fs_dirs fs) |}).

(** [path.dirname] of a resolved path. *)
Definition dirname (path : jsstring) : jsstring :=
  slash :: joinSlash (removelast (segments path)).

(** [writeFileSync(path, data, "utf-8")].  The failures of the model are
    those found before anything is written.  A fault of the device during
    the write (no space left, an input/output error), after which the file
    may be left truncated, is not in it: nothing is stated below about the
    file at [path] when the call fails. *)
Definition writeFileSync (path data : jsstring) : IO unit :=
  fun fs =>
    if isDirectory fs path then (Throw (lit "EISDIR"), fs)
    else if negb (isDirectory fs (dirname path)) then (Throw (lit "ENOENT"), fs)
    else (Ok tt, {| fs_files := Map_set (fs_files fs) path (toWellFormed data);
                    fs_dirs := fs_dirs fs |}).

(** [readFileSync(path, "utf-8")]. *)
Definition readFileSync (path : jsstring) : IO jsstring :=
  fun fs =>
    match Map_get (fs_files fs) path with
    | Some data => (Ok data, fs)
    | None =>
        (Throw (if isDirectory fs path then lit "EISDIR" else lit "ENOENT"), fs)
    end.

(* ===================================================================== *)
(** * Snapshots as values                                                 *)
(* ===================================================================== *)

Record StoredSnapshotMetadata := {
  version : Z;
  createdAt : jsstring;
  tsConfigPath : jsstring;
  gitRef : option jsstring;
  gitSha : option jsstring
}.

Record StoredSnapshot := {
  metadata : StoredSnapshotMetadata;
  snapshot : ProjectSnapshot
}.

(** The objects that the typed records stand for. *)
Definition parameterValue (p : ParameterSignature) : JsValue :=
  VObject [(lit "name", VString (param_name p));
           (lit "type", VString (param_type p));
           (lit "optional", VBoolean (param_optional p))].

Definition functionValue (f : FunctionSignature) : JsValue :=
  VObject [(lit "name", VString (fn_name f));
           (lit "parameters", VArray (map parameterValue (fn_parameters f)));
           (lit "returnType", VString (fn_returnType f));
           (lit "filePath", VString (fn_filePath f));
           (lit "isExported", VBoolean (fn_isExported f))].

Definition propertyValue (p : InterfaceProperty) : JsValue :=
  VObject [(lit "name", VString (prop_name p));
           (lit "type", VString (prop_type p));
           (lit "optional", VBoolean (prop_optional p))].

Definition interfaceValue (i : InterfaceDefinition) : JsValue :=
  VObject [(lit "name", VString (iface_name i));
           (lit "properties", VArray (map propertyValue (iface_properties i)));
           (lit "filePath", VString (iface_filePath i))].

Definition typeAliasValue (t : TypeAliasDefinition) : JsValue :=
  VObject [(lit "name", VString (alias_name t));
           (lit "definition", VString (alias_definition t));
           (lit "filePath", VString (alias_filePath t))].

Definition recordValue V (f : V -> JsValue) (o : JsRecord V) : JsValue :=
  VObject (map (fun e => (fst e, f (snd e))) o).

Definition registryValue (r : SymbolRegistry) : JsValue :=
  VObject [(lit "functions", recordValue functionValue (functions r));
           (lit "interfaces", recordValue interfaceValue (interfaces r));
           (lit "types", recordValue typeAliasValue (types r))].

Definition snapshotValue (s : ProjectSnapshot) : JsValue :=
  VObject [(lit "symbols", registryValue (symbols s))].

(** An optional string property: absent means [undefined]. *)
Definition optionalString (o : option jsstring) : JsValue :=
  match o with
  | Some s => VString s
  | None => VUndefined
  end.

Definition metadataValue (m : StoredSnapshotMetadata) : JsValue :=
  VObject [(lit "version", VNumber (version m));
           (lit "createdAt", VString (createdAt m));
           (lit "tsConfigPath", VString (tsConfigPath m));
           (lit "gitRef", optionalString (gitRef m));
           (lit "gitSha", optionalString (gitSha m))].

Definition storedValue (s : StoredSnapshot) : JsValue :=
  VObject [(lit "metadata", metadataValue (metadata s));
           (lit "snapshot", snapshotValue (snapshot s))].

(** [value[key]] for a property name that is not an array index. *)
Definition getProp (value : JsValue) (key : jsstring) : JsValue :=
  match value with
  | VObject props =>
      match Map_get props key with
      | Some v => v
      | None => VUndefined
      end
  | _ => VUndefined
  end.

(** [typeof v === "object" && v !== null]. *)
Definition isNonNullObject (v : JsValue) : bool :=
  match v with
  | VObject _ | VArray _ => true
  | _ => false
  end.

Definition isNumber (v : JsValue) : bool :=
  match v with VNumber _ => true | _ => false end.

(* ===================================================================== *)
(** * persistence/snapshotStorage.ts                                      *)
(* ===================================================================== *)

Record SaveSnapshotOptions := {
  save_outputPath : option jsstring;
  save_baseDir : option jsstring;
  save_gitRef : option jsstring;
  save_gitSha : option jsstring
}.

Record LoadSnapshotOptions := { load_baseDir : option jsstring }.

Definition DEFAULT_OUTPUT_PATH : jsstring := lit ".flowlock/snapshot.json".

Definition orElse A (o : option A) (d : A) : A :=
  match o with Some a => a | None => d end.

Definition isStoredSnapshot (value : JsValue) : bool :=
  match value with
  | VNull => false
  | VObject _ | VArray _ =>
      isNonNullObject (getProp value (lit "metadata"))
      && isNumber (getProp (getProp value (lit "metadata")) (lit "version"))
      && isNonNullObject (getProp value (lit "snapshot"))
  | _ => false
  end.

Section Store.

(** [process.cwd()], the time [new Date().toISOString()] returns, and the
    message of the SyntaxError that the engine raises on a text. *)
Variable cwd : jsstring.
Variable now : jsstring.
Variable syntaxErrorMessage : jsstring -> jsstring.

Definition saveSnapshot (snapshot : ProjectSnapshot) (tsConfigPath : jsstring)
    (options : SaveSnapshotOptions) : IO jsstring :=
  let baseDir := orElse (save_baseDir options) cwd in
  outputPath <-- liftResult
    (validatePath cwd
       (VString (orElse (save_outputPath options) DEFAULT_OUTPUT_PATH))
       (Some baseDir)) ;;;
  resolvedTsConfig <-- liftResult
    (validatePath cwd (VString tsConfigPath) (Some baseDir)) ;;;
  let stored :=
    {| metadata := {| version := SNAPSHOT_FORMAT_VERSION;
                      createdAt := now;
                      tsConfigPath := resolvedTsConfig;
                      gitRef := save_gitRef options;
                      gitSha := save_gitSha options |};
       snapshot := snapshot |} in
  let dir := dirname outputPath in
  dirExists <-- existsSync dir ;;;
  (if negb dirExists then mkdirSync dir else ret tt) ;;;
  match JSON_stringify (storedValue stored) with
  | Some text => writeFileSync outputPath text ;;; ret outputPath
  | None => throw (lit "TypeError")
  end.

Definition loadSnapshot (path : jsstring) (options : LoadSnapshotOptions)
  : IO JsValue :=
  let baseDir := orElse (load_baseDir options) cwd in
  resolvedPath <-- liftResult
    (validatePath cwd (VString path) (Some baseDir)) ;;;
  fileExists <-- existsSync resolvedPath ;;;
  if negb fileExists
  then throw (lit "Snapshot file not found: " ++ resolvedPath)
  else
    raw <-- readFileSync resolvedPath ;;;
    match JSON_parse raw with
    | None =>
        throw (lit "Invalid snapshot file (not valid JSON): "
               ++ syntaxErrorMessage raw)
    | Some parsed =>
        if negb (isStoredSnapshot parsed)
        then throw (lit "Invalid snapshot file: missing required fields (metadata, snapshot)")
        else
          match getProp (getProp parsed (lit "metadata")) (lit "version") with
          | VNumber found =>
              if negb (Z.eqb found SNAPSHOT_FORMAT_VERSION)
              then throw (lit "Unsupported snapshot version: "
                          ++ Number_toString found
                          ++ lit ". "
                          ++ lit "Current version is "
                          ++ Number_toString SNAPSHOT_FORMAT_VERSION
                          ++ lit ". "
                          ++ lit "Please regenerate the snapshot.")
              else ret parsed
          | _ =>
              (* not reached: [isStoredSnapshot] has found a number *)
              throw (lit "Invalid snapshot file: missing required fields (metadata, snapshot)")
          end
    end.

End Store.

(* ===================================================================== *)
(** * git/snapshotFromGit.ts                                              *)
(* ===================================================================== *)

Record SnapshotFromGitOptions := {
  git_cwd : option jsstring;
  git_installDeps : bool
}.

(** The class of [gitRef.replace(/[^a-zA-Z0-9.-]/g, "_")] that is kept:
    ASCII letters, digits, the dot and the hyphen. *)
Definition isRefFileChar (c : N) : bool :=
  (((97 <=? c) && (c <=? 122)) || ((65 <=? c) && (c <=? 90))
   || ((48 <=? c) && (c <=? 57)) || (c =? 46) || (c =? 45))%N.

Definition underscore : N := 95%N.

Definition sanitizeRef (gitRef : jsstring) : jsstring :=
  map (fun c => if isRefFileChar c then c else underscore) gitRef.

Section Git.

Variable cwd : jsstring.
Variable now : jsstring.

(** The repository check ([git rev-parse --is-inside-work-tree] in a
    directory). *)
Variable isGitRepository : jsstring -> bool.

(** Everything that happens in the temporary work tree, as one operation of
    the environment: the checkout of the ref, the optional install, the
    extraction, the lookup of the commit hash and the rewriting of the
    recorded paths to the caller's directory, with the removal of the work
    tree on every way out.  It receives the working directory, the validated
    configuration path, the path as given, the validated ref and the install
    flag, and yields the normalized snapshot and the hash (if resolvable),
    or throws. *)
Variable inWorktree :
  jsstring -> jsstring -> jsstring -> jsstring -> bool ->
  Result (ProjectSnapshot * option jsstring).

Definition snapshotFromGitRef (tsConfigPath gitRef : jsstring)
    (options : SnapshotFromGitOptions) : Result StoredSnapshot :=
  let cwd' := orElse (git_cwd options) cwd in
  safeRef <- validateGitRef (VString gitRef) ;;
  safeTsConfig <- validatePath cwd (VString tsConfigPath) (Some cwd') ;;
  if negb (isGitRepository cwd')
  then Throw (lit "Not a git repository: " ++ cwd')
  else
    found <- inWorktree cwd' safeTsConfig tsConfigPath safeRef
               (git_installDeps options) ;;
    let resolvedTsConfig := path_resolve cwd [cwd'; tsConfigPath] in
    Ok {| metadata := {| version := SNAPSHOT_FORMAT_VERSION;
                         createdAt := now;
                         tsConfigPath := resolvedTsConfig;
                         gitRef := Some safeRef;
                         gitSha := snd found |};
          snapshot := fst found |}.

Definition saveSnapshotFromGitRef (tsConfigPath gitRef : jsstring)
    (outputPath : option jsstring) (options : SnapshotFromGitOptions)
  : IO jsstring :=
  stored <-- liftResult (snapshotFromGitRef tsConfigPath gitRef options) ;;;
  let safeRef := sanitizeRef gitRef in
  let outPath :=
    orElse outputPath (lit ".flowlock/baseline-" ++ safeRef ++ lit ".json") in
  let cwd' := orElse (git_cwd options) cwd in
  saveSnapshot cwd now (snapshot stored) (path_resolve cwd [cwd'; tsConfigPath])
    {| save_outputPath := Some outPath;
       save_baseDir := Some cwd';
       save_gitRef := Some gitRef;
       save_gitSha := gitSha (metadata stored) |}.

End Git.

(* ===================================================================== *)
(** * model/symbolRegistry.ts                                             *)
(* ===================================================================== *)

(** [o[key] = value] on a record, for a key that is neither an array index
    (those are listed first, in numeric order) nor [__proto__] (which names
    no own property): an existing property keeps its place and takes the
    value, a new one is added last.  The keys of a registry are made by
    [makeFunctionKey], [makeInterfaceKey] and [makeTypeKey] below. *)
Definition Record_set V (o : JsRecord V) (key : jsstring) (value : V)
  : JsRecord V :=
  Map_set o key value.

Definition createEmptyRegistry : SymbolRegistry :=
  {| functions := []; interfaces := []; types := [] |}.

(** The three mutators, with the registry they leave behind as result. *)
Definition addFunction (registry : SymbolRegistry) (key : jsstring)
    (fn : FunctionSignature) : SymbolRegistry :=
  {| functions := Record_set (functions registry) key fn;
     interfaces := interfaces registry;
     types := types registry |}.

Definition addInterface (registry : SymbolRegistry) (key : jsstring)
    (iface : InterfaceDefinition) : SymbolRegistry :=
  {| functions := functions registry;
     interfaces := Record_set (interfaces registry) key iface;
     types := types registry |}.

Definition addTypeAlias (registry : SymbolRegistry) (key : jsstring)
    (typeAlias : TypeAliasDefinition) : SymbolRegistry :=
  {| functions := functions registry;
     interfaces := interfaces registry;
     types := Record_set (types registry) key typeAlias |}.

(* ===================================================================== *)
(** * parser/symbolExtractor.ts: type strings and keys                    *)
(* ===================================================================== *)

Definition normalizeTypeString (s : jsstring) : jsstring :=
  trim (replace_ws_runs false s).

Definition makeFunctionKey (name filePath : jsstring) : jsstring :=
  lit "fn:" ++ filePath ++ lit "::" ++ name.

Definition makeInterfaceKey (name filePath : jsstring) : jsstring :=
  lit "iface:" ++ filePath ++ lit "::" ++ name.

Definition makeTypeKey (name filePath : jsstring) : jsstring :=
  lit "type:" ++ filePath ++ lit "::" ++ name.

(* ===================================================================== *)
(** * String.prototype.replace with a string pattern                      *)
(* ===================================================================== *)

(** The split of [s] at the first occurrence of [pattern]: what precedes
    the occurrence and what follows it. *)
Fixpoint splitAtFirst (s pattern : jsstring) {struct s}
  : option (jsstring * jsstring) :=
  if startsWith s pattern then Some ([], skipn (length pattern) s)
  else
    match s with
    | [] => None
    | c :: r =>
        match splitAtFirst r pattern with
        | Some (preceding, following) => Some (c :: preceding, following)
        | None => None
        end
    end.

Definition dollar : N := 36%N.

(** [GetSubstitution] for a match without captures: in the replacement
    text, a dollar followed by a dollar stands for a dollar, followed by an
    ampersand for the match, by a backtick for what precedes the match, by
    an apostrophe for what follows it; every other code unit stands for
    itself. *)
Fixpoint GetSubstitution (matched preceding following template : jsstring)
    {struct template} : jsstring :=
  match template with
  | [] => []
  | c :: r =>
      if N.eqb c dollar then
        match r with
        | d :: r' =>
            if N.eqb d dollar
            then dollar :: GetSubstitution matched preceding following r'
            else if N.eqb d 38
            then matched ++ GetSubstitution matched preceding following r'
            else if N.eqb d 96
            then preceding ++ GetSubstitution matched preceding following r'
            else if N.eqb d 39
            then following ++ GetSubstitution matched preceding following r'
            else dollar :: GetSubstitution matched preceding following r
        | [] => [dollar]
        end
      else c :: GetSubstitution matched preceding following r
  end.

(** [s.replace(pattern, replacement)] for two strings: the first occurrence
    only. *)
Definition String_replace (s pattern replacement : jsstring) : jsstring :=
  match splitAtFirst s pattern with
  | Some (preceding, following) =>
      preceding
      ++ GetSubstitution pattern preceding following replacement
      ++ following
  | None => s
  end.

(* ===================================================================== *)
(** * git/snapshotFromGit.ts: normalizeSnapshotPaths                      *)
(* ===================================================================== *)

(** The spread of a record with another [filePath]. *)
Definition withFunctionPath (fn : FunctionSignature) (filePath : jsstring)
  : FunctionSignature :=
  {| fn_name := fn_name fn; fn_parameters := fn_parameters fn;
     fn_returnType := fn_returnType fn; fn_filePath := filePath;
     fn_isExported := fn_isExported fn |}.

Definition withInterfacePath (iface : InterfaceDefinition)
    (filePath : jsstring) : InterfaceDefinition :=
  {| iface_name := iface_name iface;
     iface_properties := iface_properties iface;
     iface_filePath := filePath |}.

Definition withTypePath (type : TypeAliasDefinition) (filePath : jsstring)
  : TypeAliasDefinition :=
  {| alias_name := alias_name type;
     alias_definition := alias_definition type;
     alias_filePath := filePath |}.

(** The body shared by the three loops: one entry of a record, moved into
    the record under construction.  The assignment is [Record_set], which
    stands for it on keys that are neither array indices nor [__proto__];
    the statements about this loop are for records with such keys only. *)
Definition normalizeEntry V (filePathOf : V -> jsstring)
    (withPath : V -> jsstring -> V) (normalize : jsstring -> jsstring)
    (acc : JsRecord V) (entry : jsstring * V) : JsRecord V :=
  let '(key, value) := entry in
  let newPath := normalize (filePathOf value) in
  let newKey := String_replace key (filePathOf value) newPath in
  Record_set acc newKey (withPath value newPath).

Definition normalizeSnapshotPaths (snapshot : ProjectSnapshot)
    (fromPrefix toPrefix : jsstring) : ProjectSnapshot :=
  let normalize := fun p =>
    if startsWith p fromPrefix then String_replace p fromPrefix toPrefix
    else p in
  let functions' :=
    fold_left (normalizeEntry fn_filePath withFunctionPath normalize)
              (functions (symbols snapshot)) [] in
  let interfaces' :=
    fold_left (normalizeEntry iface_filePath withInterfacePath normalize)
              (interfaces (symbols snapshot)) [] in
  let types' :=
    fold_left (normalizeEntry alias_filePath withTypePath normalize)
              (types (symbols snapshot)) [] in
  {| symbols := {| functions := functions';
                   interfaces := interfaces';
                   types := types' |} |}.

(* ===================================================================== *)
(** * Vocabulary of the statements                                        *)
(* ===================================================================== *)

(** The parameter that a name denotes in a signature: [new Map] keeps the
    last entry of every key. *)
Definition effectiveParam (f : FunctionSignature) (n : jsstring)
  : option ParameterSignature :=
  find (fun p => str_eqb (param_name p) n) (rev (fn_parameters f)).

(** What one entry of [afterParams] contributes to the change list. *)
Definition afterChange (beforeParams : JsMap ParameterSignature)
    (e : jsstring * ParameterSignature) : list SignatureChange :=
  match Map_get beforeParams (fst e) with
  | None => [ParameterAdded (snd e) (negb (param_optional (snd e)))]
  | Some beforeParam =>
      if negb (paramsEqual beforeParam (snd e))
      then [ParameterTypeChanged beforeParam (snd e) true]
      else []
  end.

(** What one entry of [beforeParams] contributes. *)
Definition removedChange (afterParams : JsMap ParameterSignature)
    (e : jsstring * ParameterSignature) : list SignatureChange :=
  if negb (Map_has afterParams (fst e))
  then [ParameterRemoved (snd e) true]
  else [].

Definition returnChange (before after : FunctionSignature)
  : list SignatureChange :=
  if negb (str_eqb (normalizeForComparison (fn_returnType before))
                   (normalizeForComparison (fn_returnType after)))
  then [ReturnTypeChanged (fn_returnType before) (fn_returnType after) true]
  else [].

Definition isParameterAdded (c : SignatureChange) : bool :=
  match c with ParameterAdded _ _ => true | _ => false end.

Definition isParameterRemoved (c : SignatureChange) : bool :=
  match c with ParameterRemoved _ _ => true | _ => false end.

Definition isParameterTypeChanged (c : SignatureChange) : bool :=
  match c with ParameterTypeChanged _ _ _ => true | _ => false end.

Definition isReturnTypeChanged (c : SignatureChange) : bool :=
  match c with ReturnTypeChanged _ _ _ => true | _ => false end.


(** The name of the parameter a change is about. *)
Definition changeSubject (c : SignatureChange) : option jsstring :=
  match c with
  | ParameterAdded p _ => Some (param_name p)
  | ParameterRemoved p _ => Some (param_name p)
  | ParameterTypeChanged _ a _ => Some (param_name a)
  | ReturnTypeChanged _ _ _ => None
  end.

(** Some change of some modified function is breaking. *)
Definition breakingIn (modified : list FunctionDrift) : Prop :=
  exists fn c, In fn modified /\ In c (changes fn) /\ breaking c = true.

Definition anyBreakingModification (r : DriftReport) : Prop :=
  breakingIn (modifiedFunctions r).

(** [s] is [l] with some elements left out, the order kept. *)
Inductive Subsequence (A : Type) : list A -> list A -> Prop :=
| Subsequence_nil : Subsequence [] []
| Subsequence_skip x s l : Subsequence s l -> Subsequence s (x :: l)
| Subsequence_keep x s l : Subsequence s l -> Subsequence (x :: s) (x :: l).

Fixpoint dropWhile A (f : A -> bool) (l : list A) : list A :=
  match l with
  | [] => []
  | x :: l' => if f x then dropWhile f l' else l
  end.

(** The order "all parameter-added changes, then all parameter-removed
    changes, then the return-type change", as a check on a change list. *)
Definition addedRemovedReturnOrder (l : list SignatureChange) : bool :=
  match dropWhile isReturnTypeChanged
          (dropWhile isParameterRemoved
             (dropWhile isParameterAdded l)) with
  | [] => true
  | _ :: _ => false
  end.

(** The signature of the glossary: ordered parameters (name, normalized
    type, optionality) plus normalized return type.  Two functions have the
    same signature when their parameter lists agree in these three,
    position by position, and their normalized return types agree; any
    difference between the two is drift. *)
Definition sameSignature (before after : FunctionSignature) : Prop :=
  Forall2 (fun p q =>
             param_name p = param_name q
             /\ normalizeForComparison (param_type p)
                = normalizeForComparison (param_type q)
             /\ param_optional p = param_optional q)
          (fn_parameters before) (fn_parameters after)
  /\ normalizeForComparison (fn_returnType before)
     = normalizeForComparison (fn_returnType after).

(** What the comparator looks at: every name denotes, on both sides,
    parameters that [paramsEqual] accepts, or no parameter on either side,
    and the normalized return types agree.  The order of the parameters and
    the parameters shadowed by a later one of the same name play no part. *)
Definition agreeByName (before after : FunctionSignature) : Prop :=
  (forall n,
      match effectiveParam before n, effectiveParam after n with
      | Some p, Some q => paramsEqual p q = true
      | None, None => True
      | _, _ => False
      end)
  /\ normalizeForComparison (fn_returnType before)
     = normalizeForComparison (fn_returnType after).

(** Sample signatures. *)
Definition sigOf (ps : list ParameterSignature) : FunctionSignature :=
  mkFn (lit "f") ps (lit "void") (lit "/src/api.ts").

Definition x_string := mkParam (lit "x") (lit "string") false.
Definition x_number := mkParam (lit "x") (lit "number") false.
Definition a_string := mkParam (lit "a") (lit "string") false.
Definition a_number := mkParam (lit "a") (lit "number") false.
Definition b_string := mkParam (lit "b") (lit "string") false.
Definition b_optional := mkParam (lit "b") (lit "number") true.




(** What one key of [afterKeys] contributes to [modifiedFunctions]. *)
Definition modifiedOf (before after : ProjectSnapshot) (beforeKeys : JsSet)
    (key : jsstring) : list FunctionDrift :=
  if negb (Set_has beforeKeys key) then []
  else
    match Record_get (functions (symbols before)) key,
          Record_get (functions (symbols after)) key with
    | Some beforeFn, Some afterFn =>
        if (0 <? length (compareSignatures beforeFn afterFn))%nat
        then [{| drift_name := fn_name afterFn;
                 filePathBefore := fn_filePath beforeFn;
                 filePathAfter := fn_filePath afterFn;
                 changes := compareSignatures beforeFn afterFn |}]
        else []
    | _, _ => []
    end.

(** What one key of [afterKeys] contributes to [addedFunctions]. *)
Definition addedOf (beforeKeys : JsSet) (key : jsstring) : list jsstring :=
  if negb (Set_has beforeKeys key) then [key] else [].

(** Sample snapshots. *)
Definition x_param_number := mkParam (lit "x") (lit "number") false.

Definition greet_name := mkParam (lit "name") (lit "string") false.
Definition greet_greeting := mkParam (lit "greeting") (lit "string") true.

Definition greetKey : jsstring := lit "function:/src/api.ts::greet".

Definition greetFn (ps : list ParameterSignature) : FunctionSignature :=
  mkFn (lit "greet") ps (lit "string") (lit "/src/api.ts").

Definition greetRegistry : SymbolRegistry :=
  {| functions := [(greetKey, greetFn [greet_name])];
     interfaces := []; types := [] |}.

Definition snapshotWithF : ProjectSnapshot :=
  mkSnapshot [(lit "function:/src/api.ts::f", sigOf [x_param_number])].

Definition snapshotWithoutF : ProjectSnapshot := mkSnapshot [].

(** The reserved shell metacharacters other than white space: double quote,
    single quote, backtick, dollar, backslash, semicolon, pipe, ampersand,
    angle brackets, parentheses. *)
Definition reservedChars : list N :=
  [34; 39; 96; 36; 92; 59; 124; 38; 60; 62; 40; 41]%N.

(** The control characters of Unicode (general category Cc): U+0000 to
    U+001F and U+007F to U+009F. *)
Definition isUnicodeControl (c : N) : bool :=
  ((c <=? 31) || ((127 <=? c) && (c <=? 159)))%N.

Definition isString (v : JsValue) : bool :=
  match v with VString _ => true | _ => false end.

Definition invalidCharacters : jsstring :=
  lit "Git ref contains invalid characters. Use only alphanumeric, hyphens, dots, slashes.".

(** A segment that [normalizeString] keeps as it is: not empty, not ".",
    not "..", without a slash. *)
Definition noSlash (seg : jsstring) : bool :=
  negb (existsb (fun c => N.eqb c slash) seg).

Arguments isAbsolute : simpl never.

Definition goodSeg (seg : jsstring) : bool :=
  negb (str_eqb seg []) && negb (str_eqb seg dot)
  && negb (str_eqb seg dotdot) && noSlash seg.

(** The segments of the base directory that [validatePath] works with. *)
Definition baseSegments (cwd : jsstring) (baseDir : option jsstring)
  : list jsstring :=
  segments (path_resolve cwd [match baseDir with Some d => d | None => cwd end]).

Definition outsideAllowed : jsstring :=
  lit "Path resolves outside allowed directory".

Definition etcPasswdTraversal : jsstring := lit "../../../etc/passwd".

(** [l] starts with the whole of [p]. *)
Fixpoint isPrefix (p l : list jsstring) : bool :=
  match p, l with
  | [], _ => true
  | _ :: _, [] => false
  | x :: p', y :: l' => str_eqb x y && isPrefix p' l'
  end.

(** The segments of [path.resolve(base, t)] for a base with segments [b]. *)
Definition resolvedSegments (b : list jsstring) (t : jsstring)
  : list jsstring :=
  rev (fold_left (normStep false) (splitSlash t)
         (if isAbsolute t then [] else rev b)).

(** The segments of [path.relative] between two lists of segments. *)
Definition relativeSegments (b r : list jsstring) : list jsstring :=
  map (fun _ => dotdot) (fst (stripCommon b r)) ++ snd (stripCommon b r).

Definition baseOf (cwd : jsstring) (baseDir : option jsstring) : jsstring :=
  path_resolve cwd [match baseDir with Some d => d | None => cwd end].

(** A JSON text written with single quotes in place of double quotes. *)
Definition jsonText (s : string) : jsstring :=
  map (fun c => if N.eqb c 39 then 34%N else c) (lit s).
Arguments jsonText s%_string.

Definition versionMismatchMessage (found : Z) : jsstring :=
  lit "Unsupported snapshot version: " ++ Number_toString found
  ++ lit ". Current version is " ++ Number_toString SNAPSHOT_FORMAT_VERSION
  ++ lit ". Please regenerate the snapshot.".

(** The document of the test suite with an unsupported version. *)
Definition version99Text : jsstring :=
  jsonText "{'metadata':{'version':99,'createdAt':'2025-02-23T00:00:00.000Z','tsConfigPath':'/'},'snapshot':{'symbols':{'functions':{},'interfaces':{},'types':{}}}}".

Definition version99Fs : FileSystem :=
  {| fs_files := [(lit "/repo/tmp/old-version.json", version99Text)];
     fs_dirs := [lit "/"; lit "/repo"; lit "/repo/tmp"] |}.

(** The default file name that [saveSnapshotFromGitRef] derives from a
    ref. *)
Definition baselineName (gitRef : jsstring) : jsstring :=
  lit "baseline-" ++ sanitizeRef gitRef ++ lit ".json".

(** The file system lets a file be created at a resolved path: no regular
    file is in the way of its directory, and the path is not a directory. *)
Definition writable (fs : FileSystem) (path : jsstring) : Prop :=
  existsb (isFile fs) (ancestorsOf (dirname path)) = false
  /\ isDirectory fs path = false.

Definition isAlphanumeric (c : N) : bool :=
  (((97 <=? c) && (c <=? 122)) || ((65 <=? c) && (c <=? 90))
   || ((48 <=? c) && (c <=? 57)))%N.

(** Every character of [ref] that is not alphanumeric differs from the
    character at its place in [derived]. *)
Fixpoint everyNonAlphanumericReplaced (ref derived : jsstring) : bool :=
  match ref, derived with
  | [], [] => true
  | c :: ref', d :: derived' =>
      (isAlphanumeric c || negb (N.eqb c d))
      && everyNonAlphanumericReplaced ref' derived'
  | _, _ => false
  end.

(** A git environment in which every directory is a repository and the
    work tree yields the greet registry. *)
Definition anyRepository (dir : jsstring) : bool := true.

Definition greetWorktree (cwd safeTsConfig tsConfigPath safeRef : jsstring)
    (installDeps : bool) : Result (ProjectSnapshot * option jsstring) :=
  Ok ({| symbols := greetRegistry |}, Some (lit "abc1234")).

Definition defaultGitOptions : SnapshotFromGitOptions :=
  {| git_cwd := None; git_installDeps := false |}.

Definition sampleTime : jsstring := lit "2025-02-23T00:00:00.000Z".

(** The envelope that [saveSnapshot] writes. *)
Definition envelope (now resolvedTsConfig : jsstring)
    (options : SaveSnapshotOptions) (snapshot : ProjectSnapshot)
  : StoredSnapshot :=
  {| metadata := {| version := SNAPSHOT_FORMAT_VERSION;
                    createdAt := now;
                    tsConfigPath := resolvedTsConfig;
                    gitRef := save_gitRef options;
                    gitSha := save_gitSha options |};
     snapshot := snapshot |}.

(** JSON values that a document denotes exactly: no [undefined], numbers
    that a Number holds, objects without repeated property names. *)
Fixpoint distinctKeys (keys : list jsstring) : bool :=
  match keys with
  | [] => true
  | k :: rest => negb (existsb (str_eqb k) rest) && distinctKeys rest
  end.

Fixpoint jsonClean (v : JsValue) : bool :=
  match v with
  | VUndefined => false
  | VNull | VBoolean _ | VString _ => true
  | VNumber n => (Z.abs n <=? Z.of_N MAX_SAFE)%Z
  | VArray items => forallb jsonClean items
  | VObject props =>
      distinctKeys (map fst props)
      && forallb (fun kv => jsonClean (snd kv)) props
  end.

(** Fuel that the parser needs for the text of a value. *)
Fixpoint jsonSize (v : JsValue) : nat :=
  match v with
  | VArray items => S (list_sum (map (fun x => S (jsonSize x)) items))
  | VObject props => S (list_sum (map (fun kv => S (jsonSize (snd kv))) props))
  | _ => 1
  end.

(** What may follow the text of a value inside a document: nothing, a comma
    or a line break. *)
Definition endsValue (rest : jsstring) : Prop :=
  match rest with
  | [] => True
  | c :: _ => c = 44%N \/ c = newline
  end.

Definition isUndefined (v : JsValue) : bool :=
  match v with VUndefined => true | _ => false end.

(** The properties that [JSON.stringify] writes. *)
Definition definedProps (props : list (jsstring * JsValue))
  : list (jsstring * JsValue) :=
  filter (fun kv => negb (isUndefined (snd kv))) props.

(** A snapshot whose three records are objects: no key occurs twice. *)
Definition wellFormedSnapshot (s : ProjectSnapshot) : Prop :=
  NoDup (Object_keys (functions (symbols s)))
  /\ NoDup (Object_keys (interfaces (symbols s)))
  /\ NoDup (Object_keys (types (symbols s))).


(** One more code unit in front of a string that has been read. *)
Definition consParsed (c : N) (r : option (jsstring * jsstring))
  : option (jsstring * jsstring) :=
  match r with
  | Some (str, rest) => Some (c :: str, rest)
  | None => None
  end.

Definition isDigit (c : N) : bool := ((48 <=? c) && (c <=? 57))%N.

(** The first character of the text of a value. *)
Definition startsValue (c : N) : bool :=
  ((c =? 123) || (c =? 91) || (c =? 34) || (c =? 110) || (c =? 116)
   || (c =? 102) || (c =? 45))%N || isDigit c.

Definition elementTexts (depth : nat) (items : list JsValue) : list jsstring :=
  map (fun x =>
         match SerializeJSONProperty (S depth) x with
         | Some t => t
         | None => lit "null"
         end) items.

Definition memberTexts (depth : nat) (props : list (jsstring * JsValue))
  : list jsstring :=
  flat_map (fun kv =>
              let '(k, x) := kv in
              match SerializeJSONProperty (S depth) x with
              | Some t => [QuoteJSONString k ++ 58%N :: 32%N :: t]
              | None => []
              end) props.

(** The separator between the entries of an object or array at a depth. *)
Definition entrySeparator (depth : nat) : jsstring :=
  44%N :: newline :: indentOf (S depth).

(** The text of a clean value is read back as the value, whatever the depth
    at which it is written and whatever follows it in the document. *)
Definition readsBack (v : JsValue) : Prop :=
  jsonClean v = true ->
  forall depth fuel rest,
    (jsonSize v <= fuel)%nat -> endsValue rest ->
    exists c t,
      SerializeJSONProperty depth v = Some (c :: t)
      /\ startsValue c = true
      /\ parseValue fuel (c :: t ++ rest) = Some (v, rest).

(** A string that is unchanged by a passage through UTF-8. *)
Definition wellFormedText (s : jsstring) : Prop := toWellFormed s = s.

(** A code unit that is not a surrogate. *)
Definition isScalar (c : N) : bool :=
  negb (isLeadingSurrogate c) && negb (isTrailingSurrogate c).

(** The stored value as the document holds it: the properties of the
    metadata that are [undefined] are not written. *)
Definition writtenValue (s : StoredSnapshot) : JsValue :=
  VObject [(lit "metadata",
            VObject (definedProps
                       [(lit "version", VNumber (version (metadata s)));
                        (lit "createdAt", VString (createdAt (metadata s)));
                        (lit "tsConfigPath", VString (tsConfigPath (metadata s)));
                        (lit "gitRef", optionalString (gitRef (metadata s)));
                        (lit "gitSha", optionalString (gitSha (metadata s)))]));
           (lit "snapshot", snapshotValue (snapshot s))].

Definition emptyFs : FileSystem := {| fs_files := []; fs_dirs := [] |}.

(** A stand-in for the engine's SyntaxError messages. *)
Definition noMessage (raw : jsstring) : jsstring := lit "Unexpected token".

Definition sampleSaveOptions : SaveSnapshotOptions :=
  {| save_outputPath := Some (lit "tmp/snapshot.json");
     save_baseDir := None;
     save_gitRef := Some (lit "main");
     save_gitSha := Some (lit "abc1234") |}.

(** A change about the parameter called [n]. *)
Definition isAbout (n : jsstring) (c : SignatureChange) : bool :=
  match changeSubject c with
  | Some m => str_eqb m n
  | None => false
  end.

(** Ascending code-unit order. *)
Fixpoint ascending (l : list jsstring) : bool :=
  match l with
  | [] => true
  | x :: r =>
      match r with
      | [] => true
      | y :: _ => str_leb x y && ascending r
      end
  end.

(** Two signatures that the comparator does not tell apart: parameters
    that [paramsEqual] accepts, position by position, and return types that
    agree after normalization.  Names of functions, file paths and export
    flags play no part. *)
Definition equivalentSignature (f g : FunctionSignature) : Prop :=
  Forall2 (fun p q => paramsEqual p q = true) (fn_parameters f) (fn_parameters g)
  /\ normalizeForComparison (fn_returnType f)
     = normalizeForComparison (fn_returnType g).

(** Two records of functions with the same keys in the same order and
    equivalent signatures under each key. *)
Definition equivalentFunctions (fs gs : JsRecord FunctionSignature) : Prop :=
  Forall2 (fun e e' => fst e = fst e' /\ equivalentSignature (snd e) (snd e'))
          fs gs.

(** The report without drift. *)
Definition emptyReport : DriftReport :=
  {| modifiedFunctions := []; addedFunctions := []; removedFunctions := [];
     hasBreakingChanges := false; suggestedVersion := patch |}.

(** White space occurs in [s] only as single spaces; [afterSpace] tells
    that a space precedes [s]. *)
Fixpoint singleSpaced (afterSpace : bool) (s : jsstring) : bool :=
  match s with
  | [] => true
  | c :: r =>
      if is_ws c
      then N.eqb c 32 && negb afterSpace && singleSpaced true r
      else singleSpaced false r
  end.

(** Sample signatures with types that differ in white space only. *)
Definition spaced_map := mkParam (lit "m") (lit "Map<string,   number>") false.
Definition plain_map := mkParam (lit "m") (lit " Map<string, number>") false.
Definition a_optional := mkParam (lit "a") (lit "string") true.

Definition colon : N := 58%N.

(** A name without a colon, as identifiers and qualified method names
    are. *)
Definition noColon (name : jsstring) : bool :=
  negb (existsb (fun c => N.eqb c colon) name).

(** A key for which [Record_set] stands for the assignment: not made of
    digits only, and not [__proto__]. *)
Definition ordinaryKey (key : jsstring) : bool :=
  negb (forallb isDigit key) && negb (str_eqb key (lit "__proto__")).

(** A record all of whose keys are such keys. *)
Definition ordinaryKeys V (o : JsRecord V) : Prop :=
  forall key, In key (Object_keys o) -> ordinaryKey key = true.

(** The report on one added function. *)
Definition addedReport (key : jsstring) : DriftReport :=
  {| modifiedFunctions := []; addedFunctions := [key]; removedFunctions := [];
     hasBreakingChanges := false; suggestedVersion := minor |}.

(** The segments of a path that normalization keeps when none of them is
    "..": those that are neither empty nor ".". *)
Definition keptSegments (path : jsstring) : list jsstring :=
  filter (fun seg => negb (str_eqb seg [] || str_eqb seg dot))
         (splitSlash path).

Definition missingFields : jsstring :=
  lit "Invalid snapshot file: missing required fields (metadata, snapshot)".

(** The document of the test suite without the required fields, and a
    document with them and nothing else. *)
Definition incompleteFs : FileSystem :=
  {| fs_files := [(lit "/repo/tmp/incomplete.json", jsonText "{'foo': 'bar'}")];
     fs_dirs := [lit "/"; lit "/repo"; lit "/repo/tmp"] |}.

Definition minimalFs : FileSystem :=
  {| fs_files := [(lit "/repo/tmp/minimal.json",
                   jsonText "{'metadata':{'version':1},'snapshot':{}}")];
     fs_dirs := [lit "/"; lit "/repo"; lit "/repo/tmp"] |}.

Definition minimalStored : JsValue :=
  VObject [(lit "metadata", VObject [(lit "version", VNumber 1)]);
           (lit "snapshot", VObject [])].


(** A file system with one file, outside the directory of the examples. *)
Definition otherFs : FileSystem :=
  {| fs_files := [(lit "/etc/passwd", lit "root")];
     fs_dirs := [lit "/"; lit "/etc"] |}.

(** A string without a dollar sign. *)
Definition noDollar (s : jsstring) : bool :=
  negb (existsb (fun c => N.eqb c dollar) s).

(** The function entries as the extractor makes them, for files below a
    directory: the key is [makeFunctionKey] of the recorded name and path,
    the name has no colon, and the path starts with the directory and has no
    dollar sign. *)
Definition extractedBelow (prefix : jsstring)
    (fs : JsRecord FunctionSignature) : Prop :=
  forall key fn, In (key, fn) fs ->
    key = makeFunctionKey (fn_name fn) (fn_filePath fn)
    /\ noColon (fn_name fn) = true
    /\ noDollar (fn_filePath fn) = true
    /\ startsWith (fn_filePath fn) prefix = true.

(** An entry with [fromPrefix] at the head of its path replaced by
    [toPrefix], in the key and in the record. *)
Definition relocated (fromPrefix toPrefix : jsstring)
    (entry : jsstring * FunctionSignature) : jsstring * FunctionSignature :=
  let newPath := toPrefix ++ skipn (length fromPrefix) (fn_filePath (snd entry)) in
  (makeFunctionKey (fn_name (snd entry)) newPath,
   withFunctionPath (snd entry) newPath).

(** The registry of a work tree. *)
Definition worktreeRegistry : SymbolRegistry :=
  {| functions :=
       [(makeFunctionKey (lit "greet") (lit "/tmp/flowlock-x/src/api.ts"),
         mkFn (lit "greet") [greet_name] (lit "string")
              (lit "/tmp/flowlock-x/src/api.ts"));
        (makeFunctionKey (lit "UserService.getUser")
                         (lit "/tmp/flowlock-x/src/user.ts"),
         mkFn (lit "UserService.getUser") [] (lit "User")
              (lit "/tmp/flowlock-x/src/user.ts"))];
     interfaces := []; types := [] |}.

(** The entries of a record whose paths do not start with a prefix and hold
    no dollar sign. *)
Definition outsidePrefix V (filePathOf : V -> jsstring) (prefix : jsstring)
    (o : JsRecord V) : Prop :=
  forall key value, In (key, value) o ->
    noDollar (filePathOf value) = true
    /\ startsWith (filePathOf value) prefix = false.

(* ===================================================================== *)
(** * Properties                                                          *)
(* ===================================================================== *)

Unset Implicit Arguments.

Example greet_scenario :
  let name := mkParam (lit "name") (lit "string") false in
  let greeting := mkParam (lit "greeting") (lit "string") true in
  let f ps := mkFn (lit "greet") ps (lit "string") (lit "/a.ts") in
  let snap f := mkSnapshot [(lit "function:/a.ts::greet", f)] in
  let r := compareSnapshots (snap (f [name])) (snap (f [name; greeting])) in
  map changes (modifiedFunctions r) = [[ParameterAdded greeting false]]
  /\ hasBreakingChanges r = false /\ suggestedVersion r = minor.
Proof. vm_compute. repeat split. Qed.

(** ** Strings *)

Lemma str_eqb_refl a : str_eqb a a = true.
Proof.
  induction a as [|x a IH]; simpl; [reflexivity|].
  now rewrite N.eqb_refl, IH.
Qed.

Lemma str_eqb_eq a b : str_eqb a b = true <-> a = b.
Proof.
  split.
  - revert b; induction a as [|x a IH]; intros [|y b]; simpl; try easy.
    intro H. apply andb_true_iff in H as [Hx Hr].
    apply N.eqb_eq in Hx. f_equal; auto.
  - intros ->. apply str_eqb_refl.
Qed.

Lemma str_eqb_neq a b : str_eqb a b = false <-> a <> b.
Proof.
  rewrite <- str_eqb_eq. destruct (str_eqb a b); split; congruence.
Qed.

Lemma str_eqb_sym a b : str_eqb a b = str_eqb b a.
Proof.
  destruct (str_eqb a b) eqn:E.
  - apply str_eqb_eq in E. subst. now rewrite str_eqb_refl.
  - destruct (str_eqb b a) eqn:E'; [|reflexivity].
    apply str_eqb_eq in E'. subst. now rewrite str_eqb_refl in E.
Qed.

(** ** Loops that push onto an array *)

Lemma fold_left_push A B (f : B -> list A) (l : list B) (acc : list A) :
  fold_left (fun acc x => acc ++ f x) l acc = acc ++ flat_map f l.
Proof.
  revert acc; induction l as [|x l IH]; intro acc; simpl.
  - now rewrite app_nil_r.
  - now rewrite IH, app_assoc.
Qed.

Lemma fold_left_ext_all A B (f g : A -> B -> A) (l : list B) (a : A) :
  (forall a x, f a x = g a x) -> fold_left f l a = fold_left g l a.
Proof.
  intro H. revert a; induction l as [|x l IH]; intro a; simpl; [reflexivity|].
  now rewrite H, IH.
Qed.

(** ** Map *)

Lemma Map_get_set V (m : JsMap V) k v k' :
  Map_get (Map_set m k v) k' = if str_eqb k k' then Some v else Map_get m k'.
Proof.
  induction m as [|[k0 v0] m IH]; simpl.
  - reflexivity.
  - destruct (str_eqb k0 k) eqn:E; simpl.
    + apply str_eqb_eq in E. subst k0.
      now destruct (str_eqb k k').
    + destruct (str_eqb k0 k') eqn:E'.
      * apply str_eqb_eq in E'. subst k0.
        now rewrite str_eqb_sym, E.
      * apply IH.
Qed.

Lemma Map_set_keys_In V (m : JsMap V) k v x :
  In x (map fst (Map_set m k v)) <-> x = k \/ In x (map fst m).
Proof.
  induction m as [|[k0 v0] m IH]; simpl.
  - intuition.
  - destruct (str_eqb k0 k) eqn:E; simpl.
    + apply str_eqb_eq in E. subst. intuition.
    + rewrite IH. intuition.
Qed.

Lemma Map_set_NoDup V (m : JsMap V) k v :
  NoDup (map fst m) -> NoDup (map fst (Map_set m k v)).
Proof.
  induction m as [|[k0 v0] m IH]; simpl; intro H.
  - constructor; [intros []|constructor].
  - inversion H as [|? ? Hn Hd]; subst.
    destruct (str_eqb k0 k) eqn:E; simpl.
    + now constructor.
    + constructor; [|auto].
      rewrite Map_set_keys_In. intros [->|Hin]; [|contradiction].
      now rewrite str_eqb_refl in E.
Qed.

Lemma Map_fold_NoDup V (entries : list (jsstring * V)) (m0 : JsMap V) :
  NoDup (map fst m0) ->
  NoDup (map fst (fold_left (fun m e => Map_set m (fst e) (snd e)) entries m0)).
Proof.
  revert m0; induction entries as [|e entries IH]; intros m0 H; simpl; auto.
  apply IH, Map_set_NoDup, H.
Qed.

Lemma Map_new_NoDup V (entries : list (jsstring * V)) :
  NoDup (map fst (Map_new entries)).
Proof. apply Map_fold_NoDup. constructor. Qed.

Lemma Map_get_In V (m : JsMap V) k v :
  Map_get m k = Some v -> In (k, v) m.
Proof.
  induction m as [|[k0 v0] m IH]; simpl; [discriminate|].
  destruct (str_eqb k0 k) eqn:E.
  - apply str_eqb_eq in E. intros [= ->]. subst. now left.
  - auto.
Qed.

Lemma Map_In_get V (m : JsMap V) k v :
  NoDup (map fst m) -> In (k, v) m -> Map_get m k = Some v.
Proof.
  induction m as [|[k0 v0] m IH]; simpl; [easy|].
  intros Hnd [Heq|Hin]; inversion Hnd as [|? ? Hn Hd]; subst.
  - inversion Heq; subst. now rewrite str_eqb_refl.
  - destruct (str_eqb k0 k) eqn:E; [|auto].
    apply str_eqb_eq in E. subst k0.
    exfalso. apply Hn. now apply (in_map fst) in Hin.
Qed.

Lemma Map_get_None_keys V (m : JsMap V) k :
  Map_get m k = None <-> ~ In k (map fst m).
Proof.
  induction m as [|[k0 v0] m IH]; simpl; [intuition|].
  destruct (str_eqb k0 k) eqn:E.
  - apply str_eqb_eq in E. subst. split; [discriminate|intuition].
  - apply str_eqb_neq in E. rewrite IH. intuition.
Qed.

Lemma Map_set_values V (P : jsstring -> V -> Prop) (m : JsMap V) k v :
  (forall k' v', In (k', v') m -> P k' v') -> P k v ->
  forall k' v', In (k', v') (Map_set m k v) -> P k' v'.
Proof.
  induction m as [|[k0 v0] m IH]; simpl; intros Hm Hk k' v'.
  - intros [[= <- <-]|[]]. exact Hk.
  - destruct (str_eqb k0 k) eqn:E; simpl.
    + apply str_eqb_eq in E. subst k0.
      intros [[= <- <-]|Hin]; auto.
    + intros [[= <- <-]|Hin]; auto.
Qed.

Lemma Map_fold_values V (P : jsstring -> V -> Prop) (entries : list (jsstring * V)) m0 :
  (forall k v, In (k, v) m0 -> P k v) ->
  (forall k v, In (k, v) entries -> P k v) ->
  forall k v,
    In (k, v) (fold_left (fun m e => Map_set m (fst e) (snd e)) entries m0) ->
    P k v.
Proof.
  revert m0; induction entries as [|[k1 v1] entries IH]; intros m0 H0 He; simpl.
  - exact H0.
  - apply IH.
    + apply Map_set_values; auto. apply He. now left.
    + intros k v Hin. apply He. now right.
Qed.

Lemma find_append A (f : A -> bool) (l1 l2 : list A) :
  find f (l1 ++ l2) = match find f l1 with Some x => Some x | None => find f l2 end.
Proof.
  induction l1 as [|x l1 IH]; simpl; [reflexivity|].
  now destruct (f x).
Qed.

Lemma Map_fold_get V (entries : list (jsstring * V)) m0 k :
  Map_get (fold_left (fun m e => Map_set m (fst e) (snd e)) entries m0) k
  = match find (fun e => str_eqb (fst e) k) (rev entries) with
    | Some e => Some (snd e)
    | None => Map_get m0 k
    end.
Proof.
  revert m0; induction entries as [|[k1 v1] entries IH]; intro m0; simpl.
  - reflexivity.
  - rewrite IH, find_append.
    destruct (find _ (rev entries)); [reflexivity|].
    simpl. rewrite Map_get_set. now destruct (str_eqb k1 k).
Qed.

Lemma Map_fold_distinct V (entries : list (jsstring * V)) m0 :
  NoDup (map fst (m0 ++ entries)) ->
  fold_left (fun m e => Map_set m (fst e) (snd e)) entries m0 = m0 ++ entries.
Proof.
  revert m0; induction entries as [|[k1 v1] entries IH]; intros m0 H; simpl.
  - now rewrite app_nil_r.
  - assert (Hset : Map_set m0 k1 v1 = m0 ++ [(k1, v1)]).
    { clear IH. induction m0 as [|[k0 v0] m0 IHm]; simpl in *; [reflexivity|].
      inversion H as [|? ? Hn Hd]; subst.
      destruct (str_eqb k0 k1) eqn:E.
      - apply str_eqb_eq in E. subst. exfalso. apply Hn.
        rewrite map_app, in_app_iff. right. now left.
      - now rewrite IHm. }
    rewrite Hset, IH; rewrite <- app_assoc; [reflexivity|exact H].
Qed.

Lemma Map_new_distinct V (entries : list (jsstring * V)) :
  NoDup (map fst entries) -> Map_new entries = entries.
Proof. intro H. apply (Map_fold_distinct V entries []). exact H. Qed.

(** ** The signature comparator *)

Lemma flat_map_all_nil A B (f : A -> list B) (l : list A) :
  (forall x, In x l -> f x = []) -> flat_map f l = [].
Proof.
  induction l as [|x l IH]; simpl; intro H; [reflexivity|].
  rewrite (H x), IH; auto.
Qed.

Lemma flat_map_nil_inv A B (f : A -> list B) (l : list A) :
  flat_map f l = [] -> forall x, In x l -> f x = [].
Proof.
  induction l as [|x l IH]; simpl; intros H y; [intros []|].
  apply app_eq_nil in H as [H1 H2]. intros [<-|Hin]; auto.
Qed.

Lemma afterStep_push bp acc e : afterStep bp acc e = acc ++ afterChange bp e.
Proof.
  destruct e as [name p]. unfold afterStep, afterChange. simpl.
  destruct (Map_get bp name) as [q|]; [|reflexivity].
  destruct (negb (paramsEqual q p)); [reflexivity|now rewrite app_nil_r].
Qed.

Lemma beforeStep_push ap acc e :
  beforeStep ap acc e = acc ++ removedChange ap e.
Proof.
  destruct e as [name p]. unfold beforeStep, removedChange. simpl.
  destruct (negb (Map_has ap name)); [reflexivity|now rewrite app_nil_r].
Qed.

(** The three loops of [compareSignatures], read as three groups. *)
Lemma compareSignatures_groups before after :
  compareSignatures before after
  = flat_map (afterChange (Map_new (paramEntries before)))
             (Map_new (paramEntries after))
    ++ flat_map (removedChange (Map_new (paramEntries after)))
                (Map_new (paramEntries before))
    ++ returnChange before after.
Proof.
  unfold compareSignatures, returnChange.
  rewrite (fold_left_ext_all _ _ _ _ _ _ (afterStep_push _)).
  rewrite (fold_left_ext_all _ _ _ _ _ _ (beforeStep_push _)).
  rewrite !fold_left_push. simpl.
  destruct (negb _); [now rewrite <- app_assoc|now rewrite app_nil_r].
Qed.

Lemma find_map_entries (l : list ParameterSignature) n :
  find (fun e : jsstring * ParameterSignature => str_eqb (fst e) n)
       (map (fun p => (param_name p, p)) l)
  = option_map (fun p => (param_name p, p))
      (find (fun p => str_eqb (param_name p) n) l).
Proof.
  induction l as [|p l IH]; simpl; [reflexivity|].
  now destruct (str_eqb (param_name p) n).
Qed.

Lemma paramMap_get f n :
  Map_get (Map_new (paramEntries f)) n = effectiveParam f n.
Proof.
  unfold Map_new, paramEntries, effectiveParam.
  rewrite Map_fold_get, <- map_rev, find_map_entries.
  now destruct (find _ (rev (fn_parameters f))).
Qed.

Lemma paramMap_has f n :
  Map_has (Map_new (paramEntries f)) n
  = match effectiveParam f n with Some _ => true | None => false end.
Proof. unfold Map_has. now rewrite paramMap_get. Qed.

Lemma paramMap_entry f k p :
  In (k, p) (Map_new (paramEntries f)) ->
  k = param_name p /\ In p (fn_parameters f).
Proof.
  revert k p. unfold Map_new.
  apply Map_fold_values with (P := fun k p => k = param_name p /\ In p (fn_parameters f)).
  - intros k v [].
  - intros k v Hin. unfold paramEntries in Hin.
    apply in_map_iff in Hin as [q [[= <- <-] Hq]]. auto.
Qed.

Lemma paramMap_self f k p :
  In (k, p) (Map_new (paramEntries f)) ->
  Map_get (Map_new (paramEntries f)) k = Some p.
Proof. apply Map_In_get, Map_new_NoDup. Qed.

Lemma effectiveParam_name f n p :
  effectiveParam f n = Some p -> param_name p = n /\ In p (fn_parameters f).
Proof.
  unfold effectiveParam. intro H. apply find_some in H as [Hin He].
  apply str_eqb_eq in He. split; [exact He|]. now apply in_rev.
Qed.


Lemma paramsEqual_refl p : paramsEqual p p = true.
Proof.
  unfold paramsEqual. now rewrite !str_eqb_refl, Bool.eqb_reflx.
Qed.

Lemma returnChange_same_type before after :
  normalizeForComparison (fn_returnType before)
  = normalizeForComparison (fn_returnType after) ->
  returnChange before after = [].
Proof. unfold returnChange. intros ->. now rewrite str_eqb_refl. Qed.

(** A signature compared with itself shows no change. *)
Lemma compareSignatures_same f : compareSignatures f f = [].
Proof.
  rewrite compareSignatures_groups.
  rewrite returnChange_same_type by reflexivity.
  rewrite !flat_map_all_nil; [reflexivity| |].
  - intros [k p] Hin. unfold removedChange, Map_has. simpl.
    now rewrite (paramMap_self _ _ _ Hin).
  - intros [k p] Hin. unfold afterChange. simpl.
    now rewrite (paramMap_self _ _ _ Hin), paramsEqual_refl.
Qed.

(** ** Sets, records and sorting *)

Lemma Set_has_In s k : Set_has s k = true <-> In k s.
Proof.
  unfold Set_has. rewrite existsb_exists. split.
  - intros [x [Hin He]]. apply str_eqb_eq in He. now subst.
  - intro H. exists k. split; [exact H|apply str_eqb_refl].
Qed.

Lemma Set_has_not_In s k : Set_has s k = false <-> ~ In k s.
Proof.
  rewrite <- Set_has_In. destruct (Set_has s k); split; congruence.
Qed.

Lemma Set_add_In s k x : In x (Set_add s k) <-> In x s \/ x = k.
Proof.
  unfold Set_add. destruct (Set_has s k) eqn:E.
  - apply Set_has_In in E. split; [auto|]. intros [H| ->]; auto.
  - rewrite in_app_iff. simpl. intuition.
Qed.

Lemma Set_fold_In l s x : In x (fold_left Set_add l s) <-> In x s \/ In x l.
Proof.
  revert s; induction l as [|k l IH]; intro s; simpl.
  - intuition.
  - rewrite IH, Set_add_In. intuition.
Qed.

Lemma Set_new_In l x : In x (Set_new l) <-> In x l.
Proof. unfold Set_new. rewrite Set_fold_In. simpl. intuition. Qed.

Lemma Record_get_None V (o : JsRecord V) k :
  Record_get o k = None <-> ~ In k (Object_keys o).
Proof. apply Map_get_None_keys. Qed.

Lemma Record_get_Some V (o : JsRecord V) k :
  In k (Object_keys o) -> exists v, Record_get o k = Some v.
Proof.
  intro H. destruct (Record_get o k) as [v|] eqn:E; [now exists v|].
  now apply Record_get_None in E.
Qed.

Lemma sort_insert_In x l y : In y (sort_insert x l) <-> y = x \/ In y l.
Proof.
  induction l as [|z l IH]; simpl.
  - intuition.
  - destruct (str_leb x z); simpl; [intuition|]. rewrite IH. intuition.
Qed.

Lemma Array_sort_In l y : In y (Array_sort l) <-> In y l.
Proof.
  induction l as [|x l IH]; simpl; [reflexivity|].
  rewrite sort_insert_In, IH. intuition.
Qed.

Lemma Array_sort_nil l : Array_sort l = [] <-> l = [].
Proof.
  split; [|now intros ->].
  destruct l as [|x l]; [reflexivity|]. intro H.
  assert (Hin : In x (Array_sort (x :: l))) by (apply Array_sort_In; now left).
  rewrite H in Hin. destruct Hin.
Qed.

Lemma length_pos_iff A (l : list A) : (0 <? length l)%nat = true <-> l <> [].
Proof.
  destruct l; simpl; split; try congruence; try easy.
Qed.

Lemma length_pos_false A (l : list A) : (0 <? length l)%nat = false <-> l = [].
Proof.
  destruct l; simpl; split; try congruence; try easy.
Qed.

Lemma fold_left_fixed A B (f : A -> B -> A) (l : list B) (a : A) :
  (forall x, In x l -> f a x = a) -> fold_left f l a = a.
Proof.
  induction l as [|x l IH]; simpl; intro H; [reflexivity|].
  rewrite (H x) by now left. apply IH. intros y Hy. apply H. now right.
Qed.

(** ** The drift aggregator *)

Lemma beforeKeyStep_push ak acc key :
  beforeKeyStep ak acc key
  = acc ++ (if negb (Set_has ak key) then [key] else []).
Proof.
  unfold beforeKeyStep. destruct (negb _); [reflexivity|now rewrite app_nil_r].
Qed.

Lemma removed_loop_In ak bk key :
  In key (fold_left (beforeKeyStep ak) bk []) <-> In key bk /\ ~ In key ak.
Proof.
  rewrite (fold_left_ext_all _ _ _ _ _ _ (beforeKeyStep_push ak)), fold_left_push.
  simpl. rewrite in_flat_map. split.
  - intros [x [Hx Hin]]. destruct (Set_has ak x) eqn:E; simpl in Hin.
    + destruct Hin.
    + destruct Hin as [<-|[]]. split; [exact Hx|]. now apply Set_has_not_In.
  - intros [Hb Ha]. exists key. split; [exact Hb|].
    apply Set_has_not_In in Ha. rewrite Ha. now left.
Qed.

Lemma anyBreaking_existsb (modified : list FunctionDrift) :
  existsb (fun fn => existsb breaking (changes fn)) modified = true
  <-> exists fn c, In fn modified /\ In c (changes fn) /\ breaking c = true.
Proof.
  rewrite existsb_exists. split.
  - intros [fn [Hfn Hc]]. apply existsb_exists in Hc as [c [Hc Hb]].
    now exists fn, c.
  - intros [fn [c [Hfn [Hc Hb]]]]. exists fn. split; [exact Hfn|].
    apply existsb_exists. now exists c.
Qed.

(** The report's two verdicts are computed from its own three lists. *)
Lemma compareSnapshots_verdicts before after :
  let r := compareSnapshots before after in
  hasBreakingChanges r
    = computeHasBreakingChanges (modifiedFunctions r) (removedFunctions r)
  /\ suggestedVersion r
    = computeSuggestedVersion (modifiedFunctions r) (addedFunctions r)
        (removedFunctions r).
Proof.
  unfold compareSnapshots. destruct (fold_left _ _ _) as [a m]. simpl. auto.
Qed.

Lemma compareSnapshots_removed before after key :
  In key (removedFunctions (compareSnapshots before after))
  <-> In key (Object_keys (functions (symbols before)))
      /\ ~ In key (Object_keys (functions (symbols after))).
Proof.
  unfold compareSnapshots. destruct (fold_left _ _ _) as [a m]. simpl.
  rewrite Array_sort_In, removed_loop_In, !Set_new_In. reflexivity.
Qed.

Lemma breakingIn_dec modified :
  (existsb (fun fn => existsb breaking (changes fn)) modified = true
   /\ breakingIn modified)
  \/ (existsb (fun fn => existsb breaking (changes fn)) modified = false
      /\ ~ breakingIn modified).
Proof.
  destruct (existsb _ modified) eqn:E.
  - left. split; [reflexivity|]. now apply anyBreaking_existsb.
  - right. split; [reflexivity|]. intro H.
    apply anyBreaking_existsb in H. congruence.
Qed.

Lemma computeHasBreakingChanges_spec modified removed :
  computeHasBreakingChanges modified removed = true
  <-> removed <> [] \/ breakingIn modified.
Proof.
  unfold computeHasBreakingChanges.
  destruct removed as [|k removed]; simpl.
  - destruct (breakingIn_dec modified) as [[-> H]|[-> H]]; split; auto.
    + discriminate.
    + intros [Hr|Hb]; [congruence|contradiction].
  - split; [left; discriminate|reflexivity].
Qed.

Lemma computeSuggestedVersion_spec modified added removed :
  (removed <> [] -> computeSuggestedVersion modified added removed = major)
  /\ (removed = [] -> breakingIn modified ->
      computeSuggestedVersion modified added removed = major)
  /\ (removed = [] -> ~ breakingIn modified ->
      added <> [] \/ modified <> [] ->
      computeSuggestedVersion modified added removed = minor)
  /\ (removed = [] -> ~ breakingIn modified -> added = [] -> modified = [] ->
      computeSuggestedVersion modified added removed = patch).
Proof.
  unfold computeSuggestedVersion.
  destruct removed as [|k removed]; simpl.
  - destruct (breakingIn_dec modified) as [[-> H]|[-> H]];
      repeat split; try congruence; try contradiction.
    + intros _ _ [Ha|Hm].
      * apply length_pos_iff in Ha. now rewrite Ha.
      * apply length_pos_iff in Hm. rewrite Hm. now rewrite orb_true_r.
    + intros _ _ -> ->. reflexivity.
  - repeat split; congruence.
Qed.

(** C1. For every pair of snapshots, [hasBreakingChanges] holds exactly when
    [removedFunctions] is non-empty or some change of some modified function
    is breaking; [suggestedVersion] follows the ordered policy (removed
    non-empty gives major; otherwise a breaking modification gives major;
    otherwise added or modified non-empty gives minor; otherwise patch); and
    a function key present before and absent after is reported as removed,
    with [hasBreakingChanges = true] and [suggestedVersion = major],
    whatever else changed. *)
Theorem compareSnapshots_classification (before after : ProjectSnapshot) :
  let r := compareSnapshots before after in
  (hasBreakingChanges r = true
     <-> removedFunctions r <> [] \/ anyBreakingModification r)
  /\ (removedFunctions r <> [] -> suggestedVersion r = major)
  /\ (removedFunctions r = [] -> anyBreakingModification r ->
      suggestedVersion r = major)
  /\ (removedFunctions r = [] -> ~ anyBreakingModification r ->
      addedFunctions r <> [] \/ modifiedFunctions r <> [] ->
      suggestedVersion r = minor)
  /\ (removedFunctions r = [] -> ~ anyBreakingModification r ->
      addedFunctions r = [] -> modifiedFunctions r = [] ->
      suggestedVersion r = patch)
  /\ (forall key,
        In key (Object_keys (functions (symbols before))) ->
        ~ In key (Object_keys (functions (symbols after))) ->
        In key (removedFunctions r)
        /\ hasBreakingChanges r = true /\ suggestedVersion r = major).
Proof.
  intro r.
  destruct (compareSnapshots_verdicts before after) as [Hb Hv].
  fold r in Hb, Hv.
  change (anyBreakingModification r) with (breakingIn (modifiedFunctions r)).
  rewrite Hb, Hv.
  destruct (computeSuggestedVersion_spec (modifiedFunctions r)
              (addedFunctions r) (removedFunctions r))
    as (Hmaj1 & Hmaj2 & Hmin & Hpat).
  split; [apply computeHasBreakingChanges_spec|].
  repeat (split; [assumption|]).
  intros key Hin Hout.
  assert (Hrem : In key (removedFunctions r))
    by now apply compareSnapshots_removed.
  assert (Hne : removedFunctions r <> [])
    by (intro H; rewrite H in Hrem; destruct Hrem).
  split; [exact Hrem|]. split; [|now apply Hmaj1].
  apply computeHasBreakingChanges_spec. now left.
Qed.

Lemma afterKeyStep_same (R : SymbolRegistry) acc key :
  In key (Object_keys (functions R)) ->
  afterKeyStep {| symbols := R |} {| symbols := R |}
    (Set_new (Object_keys (functions R))) acc key = acc.
Proof.
  intro Hin. unfold afterKeyStep. destruct acc as [added modified]. simpl.
  assert (Hhas : Set_has (Set_new (Object_keys (functions R))) key = true)
    by now apply Set_has_In, Set_new_In.
  rewrite Hhas. simpl.
  destruct (Record_get_Some _ _ _ Hin) as [f ->].
  now rewrite compareSignatures_same.
Qed.

(** C8. Comparing a registry (wrapped as a snapshot) against itself yields
    empty [addedFunctions], [removedFunctions] and [modifiedFunctions],
    [hasBreakingChanges = false] and [suggestedVersion = patch]. *)
Theorem compareSnapshots_self (R : SymbolRegistry) :
  compareSnapshots {| symbols := R |} {| symbols := R |}
  = {| modifiedFunctions := []; addedFunctions := []; removedFunctions := [];
       hasBreakingChanges := false; suggestedVersion := patch |}.
Proof.
  unfold compareSnapshots. simpl.
  rewrite fold_left_fixed.
  - rewrite fold_left_fixed; [reflexivity|].
    intros key Hin. unfold beforeKeyStep.
    apply Set_has_In in Hin. now rewrite Hin.
  - intros key Hin. apply afterKeyStep_same. now apply Set_new_In.
Qed.

(** ** Parameter order *)

Lemma paramEntries_keys f :
  map fst (paramEntries f) = map param_name (fn_parameters f).
Proof. unfold paramEntries. rewrite map_map. reflexivity. Qed.

Lemma paramMap_distinct f :
  NoDup (map param_name (fn_parameters f)) ->
  Map_new (paramEntries f) = paramEntries f.
Proof. intro H. apply Map_new_distinct. now rewrite paramEntries_keys. Qed.

Lemma paramMap_distinct_get f p :
  NoDup (map param_name (fn_parameters f)) ->
  In p (fn_parameters f) ->
  Map_get (Map_new (paramEntries f)) (param_name p) = Some p.
Proof.
  intros Hnd Hin. apply Map_In_get; [apply Map_new_NoDup|].
  rewrite paramMap_distinct by exact Hnd.
  unfold paramEntries. apply in_map_iff. now exists p.
Qed.

(** With two parameters called [x], the two orders differ. *)
Lemma compareSignatures_permutation_counterexample :
  Permutation (fn_parameters (sigOf [x_string; x_number]))
              (fn_parameters (sigOf [x_number; x_string]))
  /\ normalizeForComparison (fn_returnType (sigOf [x_string; x_number]))
     = normalizeForComparison (fn_returnType (sigOf [x_number; x_string]))
  /\ compareSignatures (sigOf [x_string; x_number])
                       (sigOf [x_number; x_string])
     = [ParameterTypeChanged x_number x_string true]
  /\ compareSignatures (sigOf [x_string; x_number])
                       (sigOf [x_number; x_string]) <> [].
Proof.
  split; [apply perm_swap|]. split; [reflexivity|].
  split; [vm_compute; reflexivity|]. vm_compute. discriminate.
Qed.

(** C10 (amended). For two signatures whose parameter names are pairwise
    distinct, whose parameter lists are the same multiset of (name, type,
    optional) triples in any order, and whose normalized return types are
    equal, [compareSignatures] returns the empty change list. *)
Theorem compareSignatures_permutation (before after : FunctionSignature) :
  NoDup (map param_name (fn_parameters before)) ->
  Permutation (fn_parameters before) (fn_parameters after) ->
  normalizeForComparison (fn_returnType before)
  = normalizeForComparison (fn_returnType after) ->
  compareSignatures before after = [].
Proof.
  intros Hnd Hperm Hret.
  assert (Hnd' : NoDup (map param_name (fn_parameters after))).
  { eapply Permutation_NoDup; [|exact Hnd]. now apply Permutation_map. }
  rewrite compareSignatures_groups, (returnChange_same_type _ _ Hret).
  rewrite !flat_map_all_nil; [reflexivity| |].
  - intros [k p] Hin. apply paramMap_entry in Hin as [-> Hp].
    unfold removedChange, Map_has. simpl.
    rewrite (paramMap_distinct_get after p Hnd'); [reflexivity|].
    eapply Permutation_in; eassumption.
  - intros [k p] Hin. apply paramMap_entry in Hin as [-> Hp].
    unfold afterChange. simpl.
    rewrite (paramMap_distinct_get before p Hnd).
    + now rewrite paramsEqual_refl.
    + eapply Permutation_in; [apply Permutation_sym|]; eassumption.
Qed.

Lemma compareSignatures_permutation_witness :
  compareSignatures (sigOf [a_string; b_optional])
                    (sigOf [b_optional; a_string]) = [].
Proof.
  apply compareSignatures_permutation.
  - simpl. repeat constructor; simpl; intuition discriminate.
  - apply perm_swap.
  - reflexivity.
Defined.

(** ** Order of the change list *)

Lemma Subsequence_app A (s1 l1 s2 l2 : list A) :
  Subsequence s1 l1 -> Subsequence s2 l2 -> Subsequence (s1 ++ s2) (l1 ++ l2).
Proof.
  induction 1; intro H2; simpl.
  - exact H2.
  - apply Subsequence_skip. auto.
  - apply Subsequence_keep. auto.
Qed.

Lemma Subsequence_changes E (f : E -> list SignatureChange)
      (key : E -> jsstring) (l : list E) :
  (forall e, In e l ->
     f e = [] \/ exists c, f e = [c] /\ changeSubject c = Some (key e)) ->
  Subsequence (map changeSubject (flat_map f l)) (map Some (map key l)).
Proof.
  induction l as [|e l IH]; intro H; simpl; [constructor|].
  rewrite map_app.
  assert (IH' : Subsequence (map changeSubject (flat_map f l))
                            (map Some (map key l)))
    by (apply IH; intros e' He'; apply H; now right).
  destruct (H e (or_introl eq_refl)) as [->|[c [-> Hc]]]; simpl.
  - now apply Subsequence_skip.
  - rewrite Hc. now apply Subsequence_keep.
Qed.

Lemma afterChange_shape before after e :
  In e (Map_new (paramEntries after)) ->
  afterChange (Map_new (paramEntries before)) e = []
  \/ exists c, afterChange (Map_new (paramEntries before)) e = [c]
               /\ changeSubject c = Some (fst e)
               /\ (isParameterAdded c || isParameterTypeChanged c = true).
Proof.
  destruct e as [k p]. intro Hin. apply paramMap_entry in Hin as [-> _].
  unfold afterChange. simpl.
  destruct (Map_get _ _) as [q|].
  - destruct (negb (paramsEqual q p)); [right|now left].
    eexists. split; [reflexivity|]. simpl. auto.
  - right. eexists. split; [reflexivity|]. simpl. auto.
Qed.

Lemma removedChange_shape before after e :
  In e (Map_new (paramEntries before)) ->
  removedChange (Map_new (paramEntries after)) e = []
  \/ exists c, removedChange (Map_new (paramEntries after)) e = [c]
               /\ changeSubject c = Some (fst e)
               /\ isParameterRemoved c = true.
Proof.
  destruct e as [k p]. intro Hin. apply paramMap_entry in Hin as [-> _].
  unfold removedChange. simpl.
  destruct (negb _); [right|now left].
  eexists. split; [reflexivity|]. simpl. auto.
Qed.

Lemma Forall_flat_map_shape E (f : E -> list SignatureChange)
      (P : SignatureChange -> Prop) (l : list E) :
  (forall e, In e l -> f e = [] \/ exists c, f e = [c] /\ P c) ->
  Forall P (flat_map f l).
Proof.
  induction l as [|e l IH]; intro H; simpl; [constructor|].
  apply Forall_app. split.
  - destruct (H e (or_introl eq_refl)) as [->|[c [-> Hc]]]; repeat constructor.
    exact Hc.
  - apply IH. intros e' He'. apply H. now right.
Qed.

(** The empty change list characterises agreement name by name. *)
Lemma compareSignatures_nil_iff before after :
  compareSignatures before after = [] <-> agreeByName before after.
Proof.
  rewrite compareSignatures_groups. unfold agreeByName. split.
  - intro H. apply app_eq_nil in H as [H1 H]. apply app_eq_nil in H as [H2 H3].
    pose proof (flat_map_nil_inv _ _ _ _ H1) as Ha.
    pose proof (flat_map_nil_inv _ _ _ _ H2) as Hb.
    split.
    + intro n. rewrite <- !paramMap_get.
      destruct (Map_get (Map_new (paramEntries after)) n) as [q|] eqn:Eq.
      * specialize (Ha _ (Map_get_In _ _ _ _ Eq)). unfold afterChange in Ha.
        simpl in Ha.
        destruct (Map_get (Map_new (paramEntries before)) n) as [p|];
          [|discriminate].
        destruct (paramsEqual p q); [reflexivity|discriminate].
      * destruct (Map_get (Map_new (paramEntries before)) n) as [p|] eqn:Ep;
          [|exact I].
        specialize (Hb _ (Map_get_In _ _ _ _ Ep)). unfold removedChange in Hb.
        simpl in Hb. unfold Map_has in Hb. rewrite Eq in Hb. discriminate.
    + unfold returnChange in H3.
      destruct (str_eqb _ _) eqn:E; [now apply str_eqb_eq|discriminate].
  - intros [Hp Hr]. rewrite (returnChange_same_type _ _ Hr).
    rewrite !flat_map_all_nil; [reflexivity| |].
    + intros [k p] Hin. unfold removedChange, Map_has. simpl.
      pose proof (paramMap_self _ _ _ Hin) as Hk.
      specialize (Hp k). rewrite <- !paramMap_get, Hk in Hp.
      destruct (Map_get (Map_new (paramEntries after)) k);
        [reflexivity|destruct Hp].
    + intros [k q] Hin. unfold afterChange. simpl.
      pose proof (paramMap_self _ _ _ Hin) as Hk.
      specialize (Hp k). rewrite <- !paramMap_get, Hk in Hp.
      destruct (Map_get (Map_new (paramEntries before)) k);
        [now rewrite Hp|destruct Hp].
Qed.

Lemma paramsEqual_spec p q :
  paramsEqual p q = true
  <-> param_name p = param_name q
      /\ param_optional p = param_optional q
      /\ normalizeForComparison (param_type p)
         = normalizeForComparison (param_type q).
Proof.
  unfold paramsEqual. rewrite !andb_true_iff, !str_eqb_eq, Bool.eqb_true_iff.
  tauto.
Qed.

Lemma find_Forall2 A (R : A -> A -> Prop) (f : A -> bool) l l' :
  Forall2 R l l' ->
  (forall x y, R x y -> f x = f y) ->
  match find f l, find f l' with
  | Some x, Some y => R x y
  | None, None => True
  | _, _ => False
  end.
Proof.
  intros H Hf. induction H as [|x y l l' Hxy _ IH]; simpl; [exact I|].
  rewrite <- (Hf x y Hxy). destruct (f x); [exact Hxy|exact IH].
Qed.

Lemma Forall2_rev_both A (R : A -> A -> Prop) l l' :
  Forall2 R l l' -> Forall2 R (rev l) (rev l').
Proof.
  induction 1; simpl; [constructor|].
  apply Forall2_app; [assumption|]. repeat constructor. assumption.
Qed.

Lemma compareSignatures_equivalent f g :
  equivalentSignature f g -> compareSignatures f g = [].
Proof.
  intros [Hp Hr]. apply compareSignatures_nil_iff. split; [|exact Hr].
  intro n. unfold effectiveParam.
  apply (find_Forall2 _ (fun p q => paramsEqual p q = true)).
  - now apply Forall2_rev_both.
  - intros p q H. apply paramsEqual_spec in H as [-> _]. reflexivity.
Qed.

Lemma sameSignature_equivalent before after :
  sameSignature before after -> equivalentSignature before after.
Proof.
  intros [Hp Hr]. split; [|exact Hr].
  eapply Forall2_impl; [|exact Hp].
  intros p q (Hn & Ht & Ho). apply paramsEqual_spec. auto.
Qed.

(** A changed parameter ahead of an added one: the list does not start with
    the added parameters.  And two parameters exchanged: the signatures
    differ, the list is empty. *)
Lemma compareSignatures_order_counterexample :
  (compareSignatures (sigOf [a_string]) (sigOf [a_number; b_string])
   = [ParameterTypeChanged a_string a_number true; ParameterAdded b_string true]
   /\ addedRemovedReturnOrder
        (compareSignatures (sigOf [a_string]) (sigOf [a_number; b_string]))
      = false)
  /\ (compareSignatures (sigOf [a_string; b_optional])
                        (sigOf [b_optional; a_string]) = []
      /\ ~ sameSignature (sigOf [a_string; b_optional])
                         (sigOf [b_optional; a_string])).
Proof.
  split; [split; vm_compute; reflexivity|].
  split; [vm_compute; reflexivity|].
  intros [H _]. inversion H as [|p q ps qs (Hn & _) _]; subst.
  discriminate Hn.
Qed.

(** C7 (amended). The list returned by [compareSignatures] consists of three
    groups in this order: first the changes found while iterating over the
    parameters of "after" (parameter-added and parameter-type-changed,
    interleaved, at most one per parameter name, in map-iteration order of
    "after"); then the parameter-removed changes, in map-iteration order of
    "before"; then at most one return-type-changed change.  The empty list
    is returned exactly when the two signatures agree name by name: every
    parameter name denotes, on both sides, parameters of the same
    optionality and the same normalized type, or no parameter on either
    side, and the normalized return types agree.  Two functions with the
    same signature (the same ordered parameters and the same normalized
    return type) get the empty list; the converse does not hold, since the
    order of the parameters is not compared. *)
Theorem compareSignatures_order (before after : FunctionSignature) :
  (exists g1 g2 g3,
     compareSignatures before after = g1 ++ g2 ++ g3
     /\ Forall (fun c => isParameterAdded c || isParameterTypeChanged c = true)
               g1
     /\ Subsequence (map changeSubject g1)
          (map Some (map fst (Map_new (paramEntries after))))
     /\ Forall (fun c => isParameterRemoved c = true) g2
     /\ Subsequence (map changeSubject g2)
          (map Some (map fst (Map_new (paramEntries before))))
     /\ (g3 = [] \/
         g3 = [ReturnTypeChanged (fn_returnType before) (fn_returnType after)
                 true]))
  /\ (compareSignatures before after = [] <-> agreeByName before after)
  /\ (sameSignature before after -> compareSignatures before after = []).
Proof.
  split; [|split; [apply compareSignatures_nil_iff|
                   intro H; apply compareSignatures_equivalent;
                   now apply sameSignature_equivalent]].
  exists (flat_map (afterChange (Map_new (paramEntries before)))
            (Map_new (paramEntries after))),
         (flat_map (removedChange (Map_new (paramEntries after)))
            (Map_new (paramEntries before))),
         (returnChange before after).
  split; [apply compareSignatures_groups|].
  split; [|split; [|split; [|split]]].
  - apply Forall_flat_map_shape. intros e He.
    destruct (afterChange_shape before after e He) as [H|[c [H [_ Hc]]]];
      [now left|right; now exists c].
  - apply Subsequence_changes. intros e He.
    destruct (afterChange_shape before after e He) as [H|[c [H [Hc _]]]];
      [now left|right; now exists c].
  - apply Forall_flat_map_shape. intros e He.
    destruct (removedChange_shape before after e He) as [H|[c [H [_ Hc]]]];
      [now left|right; now exists c].
  - apply Subsequence_changes. intros e He.
    destruct (removedChange_shape before after e He) as [H|[c [H [Hc _]]]];
      [now left|right; now exists c].
  - unfold returnChange. destruct (negb _); auto.
Qed.

(** ** Added parameters *)





(** ** The loops of the aggregator as contributions per key *)

Lemma afterKeyStep_push before after bk acc key :
  afterKeyStep before after bk acc key
  = (fst acc ++ addedOf bk key, snd acc ++ modifiedOf before after bk key).
Proof.
  unfold afterKeyStep, addedOf, modifiedOf. destruct acc as [a m]. simpl.
  destruct (negb (Set_has bk key)); [now rewrite app_nil_r|].
  destruct (Record_get (functions (symbols before)) key) as [f|];
    [|now rewrite !app_nil_r].
  destruct (Record_get (functions (symbols after)) key) as [g|];
    [|now rewrite !app_nil_r].
  destruct (0 <? _)%nat; now rewrite !app_nil_r.
Qed.

Lemma fold_left_push_pair A B C (f : C -> list A) (g : C -> list B)
      (l : list C) (acc : list A * list B) :
  fold_left (fun acc x => (fst acc ++ f x, snd acc ++ g x)) l acc
  = (fst acc ++ flat_map f l, snd acc ++ flat_map g l).
Proof.
  revert acc; induction l as [|x l IH]; intros [a b]; simpl.
  - now rewrite !app_nil_r.
  - rewrite IH. simpl. now rewrite <- !app_assoc.
Qed.

Lemma compareSnapshots_modified before after :
  modifiedFunctions (compareSnapshots before after)
  = flat_map (modifiedOf before after
                (Set_new (Object_keys (functions (symbols before)))))
             (Set_new (Object_keys (functions (symbols after)))).
Proof.
  unfold compareSnapshots.
  rewrite (fold_left_ext_all _ _ _ _ _ _ (afterKeyStep_push before after _)).
  rewrite fold_left_push_pair. reflexivity.
Qed.

Lemma Record_get_In_keys V (o : JsRecord V) k v :
  Record_get o k = Some v -> In k (Object_keys o).
Proof.
  intro H. destruct (in_dec (list_eq_dec N.eq_dec) k (Object_keys o)) as [Hin|Hn];
    [exact Hin|].
  apply Record_get_None in Hn. congruence.
Qed.



(** ** Appending optional parameters *)

Lemma existsb_false_forall A (f : A -> bool) l :
  existsb f l = false <-> forall x, In x l -> f x = false.
Proof.
  induction l as [|y l IH]; simpl; [intuition|].
  rewrite orb_false_iff, IH. split.
  - intros [Hy Hl] x [<-|Hx]; auto.
  - intro H. split; [apply H; now left|]. intros x Hx. apply H. now right.
Qed.








(** ** Instances *)

Lemma compareSnapshots_classification_witness :
  In (lit "function:/src/api.ts::f")
     (removedFunctions (compareSnapshots snapshotWithF snapshotWithoutF))
  /\ hasBreakingChanges (compareSnapshots snapshotWithF snapshotWithoutF) = true
  /\ suggestedVersion (compareSnapshots snapshotWithF snapshotWithoutF) = major.
Proof.
  pose proof (compareSnapshots_classification snapshotWithF snapshotWithoutF)
    as H.
  cbv zeta in H. destruct H as (_ & _ & _ & _ & _ & H).
  apply (H (lit "function:/src/api.ts::f")).
  - simpl. left. reflexivity.
  - simpl. intros [].
Defined.


Lemma compareSignatures_order_witness :
  agreeByName (sigOf [a_string; b_optional]) (sigOf [b_optional; a_string]).
Proof.
  apply (proj1 (proj1 (proj2 (compareSignatures_order
                                (sigOf [a_string; b_optional])
                                (sigOf [b_optional; a_string]))))).
  vm_compute. reflexivity.
Defined.

(** ** The validator on the inputs of its test suite *)

Example validateGitRef_examples :
  validateGitRef (VString (lit "origin/main")) = Ok (lit "origin/main")
  /\ validateGitRef (VString (lit "main; rm -rf /"))
     = Throw (lit "Git ref contains invalid characters. Use only alphanumeric, hyphens, dots, slashes.")
  /\ validateGitRef (VString (lit "   ")) = Throw (lit "Git ref cannot be empty")
  /\ validateGitRef VNull = Throw (lit "Git ref must be a string").
Proof. vm_compute. repeat split. Qed.

Example validatePath_examples :
  validatePath (lit "/work") (VString (lit "tsconfig.json"))
    (Some (lit "/home/project"))
  = Ok (lit "/home/project/tsconfig.json")
  /\ validatePath (lit "/work") (VString (lit ".flowlock/snapshot.json")) None
     = Ok (lit "/work/.flowlock/snapshot.json")
  /\ validatePath (lit "/work") (VString (lit "../../../etc/passwd"))
       (Some (lit "/home/project"))
     = Throw (lit "Path resolves outside allowed directory")
  /\ validatePath (lit "/work") (VString (lit ".."))
       (Some (lit "/home/project"))
     = Throw (lit "Path resolves outside allowed directory")
  /\ validatePath (lit "/work") (VString (lit "/home/project/a/../b"))
       (Some (lit "project/.."))
     = Throw (lit "Path resolves outside allowed directory")
  /\ validatePath (lit "/home") (VString (lit "/home/project/a/../b"))
       (Some (lit "project/x/.."))
     = Ok (lit "/home/project/b").
Proof. vm_compute. repeat split. Qed.

(** ** Trimming *)

Lemma trimStart_all_ws s : forallb is_ws s = true <-> trimStart s = [].
Proof.
  induction s as [|c s IH]; simpl; [intuition|].
  destruct (is_ws c); simpl; [exact IH|]. split; discriminate.
Qed.

Lemma trimStart_head s c r : trimStart s = c :: r -> is_ws c = false.
Proof.
  induction s as [|x s IH]; simpl; [discriminate|].
  destruct (is_ws x) eqn:E; [exact IH|]. now intros [= <- _].
Qed.

Lemma trimStart_no_ws s : existsb is_ws s = false -> trimStart s = s.
Proof.
  destruct s as [|c s]; simpl; [reflexivity|].
  intro H. apply orb_false_iff in H as [-> _]. reflexivity.
Qed.

Lemma trimStart_length s : (length (trimStart s) <= length s)%nat.
Proof.
  induction s as [|c s IH]; simpl; [lia|]. destruct (is_ws c); simpl; lia.
Qed.

Lemma forallb_rev A (f : A -> bool) l : forallb f (rev l) = forallb f l.
Proof.
  induction l as [|x l IH]; simpl; [reflexivity|].
  rewrite forallb_app, IH. simpl. rewrite andb_true_r. apply andb_comm.
Qed.

Lemma existsb_rev A (f : A -> bool) l : existsb f (rev l) = existsb f l.
Proof.
  induction l as [|x l IH]; simpl; [reflexivity|].
  rewrite existsb_app, IH. simpl. rewrite orb_false_r. apply orb_comm.
Qed.

Lemma trim_all_ws s : forallb is_ws s = true <-> trim s = [].
Proof.
  unfold trim, trimEnd. split.
  - intro H. apply trimStart_all_ws in H. now rewrite H.
  - intro H.
    assert (H1 : trimStart (rev (trimStart s)) = []).
    { destruct (trimStart (rev (trimStart s))); [reflexivity|].
      apply (f_equal (@length N)) in H. rewrite length_rev in H. discriminate. }
    apply trimStart_all_ws in H1. rewrite forallb_rev in H1.
    apply trimStart_all_ws.
    destruct (trimStart s) as [|c r] eqn:E; [reflexivity|].
    apply trimStart_head in E. simpl in H1. now rewrite E in H1.
Qed.

Lemma trim_no_ws s : existsb is_ws s = false -> trim s = s.
Proof.
  intro H. unfold trim, trimEnd. rewrite (trimStart_no_ws _ H).
  rewrite trimStart_no_ws by now rewrite existsb_rev. apply rev_involutive.
Qed.

Lemma trim_length s : (length (trim s) <= length s)%nat.
Proof.
  unfold trim, trimEnd. rewrite length_rev.
  pose proof (trimStart_length (rev (trimStart s))) as H1.
  rewrite length_rev in H1. pose proof (trimStart_length s). lia.
Qed.

Lemma trim_shorter_has_ws s :
  (length (trim s) < length s)%nat -> existsb is_ws s = true.
Proof.
  intro H. destruct (existsb is_ws s) eqn:E; [reflexivity|].
  rewrite (trim_no_ws _ E) in H. lia.
Qed.

(** ** Git refs *)

Lemma UNSAFE_REF_CHARS_spec c :
  UNSAFE_REF_CHARS c = true <-> In c reservedChars \/ is_ws c = true.
Proof.
  unfold UNSAFE_REF_CHARS, reservedChars. rewrite orb_true_iff.
  rewrite !orb_true_iff, !N.eqb_eq. simpl. intuition congruence.
Qed.

Lemma ws_is_unsafe s : existsb is_ws s = true -> existsb UNSAFE_REF_CHARS s = true.
Proof.
  rewrite !existsb_exists. intros [c [Hin Hc]]. exists c. split; [exact Hin|].
  apply UNSAFE_REF_CHARS_spec. now right.
Qed.

Lemma validateGitRef_unsafe s :
  existsb isControlChar s || existsb UNSAFE_REF_CHARS s = true ->
  isOk (validateGitRef (VString s)) = false.
Proof.
  intro H. unfold validateGitRef.
  destruct (length (trim s) =? 0)%nat; [reflexivity|].
  destruct (256 <? length (trim s))%nat; [reflexivity|].
  now rewrite H.
Qed.

(** A control character above U+007F is not in the class that the code
    tests: a ref that holds U+0085 is returned. *)
Lemma validateGitRef_counterexample :
  isUnicodeControl 133 = true
  /\ In 133%N (lit "main" ++ [133%N])
  /\ validateGitRef (VString (lit "main" ++ [133%N]))
     = Ok (lit "main" ++ [133%N]).
Proof. split; [reflexivity|split; [simpl; tauto|vm_compute; reflexivity]]. Qed.

(** C4 (amended). [validateGitRef] rejects a non-string, an empty or
    white-space-only string, a string longer than 256, a string with an
    ASCII control character (U+0000 to U+001F, U+007F; the control
    characters U+0080 to U+009F are not tested) and a string with a
    character of the reserved
    set (quotes, backtick, dollar, backslash, semicolon, pipe, ampersand,
    angle brackets, parentheses, white space); every other string is
    returned trimmed (and is left unchanged by the trimming).  The ref
    "main; rm -rf /" fails with the invalid-character error and "origin/main"
    is returned. *)
Theorem validateGitRef_spec :
  (forall v, isString v = false ->
             validateGitRef v = Throw (lit "Git ref must be a string"))
  /\ (forall s, forallb is_ws s = true ->
                validateGitRef (VString s)
                = Throw (lit "Git ref cannot be empty"))
  /\ (forall s, (256 < length s)%nat ->
                isOk (validateGitRef (VString s)) = false)
  /\ (forall s c, In c s -> (c <= 31 \/ c = 127)%N ->
                  isOk (validateGitRef (VString s)) = false)
  /\ (forall s c, In c s -> In c reservedChars \/ is_ws c = true ->
                  isOk (validateGitRef (VString s)) = false)
  /\ (forall s,
        forallb is_ws s = false -> (length s <= 256)%nat ->
        existsb isControlChar s = false ->
        existsb UNSAFE_REF_CHARS s = false ->
        validateGitRef (VString s) = Ok (trim s) /\ trim s = s)
  /\ validateGitRef (VString (lit "main; rm -rf /")) = Throw invalidCharacters
  /\ validateGitRef (VString (lit "origin/main")) = Ok (lit "origin/main").
Proof.
  split; [|split; [|split; [|split; [|split; [|split; [|split]]]]]].
  - intros v Hv. destruct v; try reflexivity. discriminate.
  - intros s Hs. apply trim_all_ws in Hs. unfold validateGitRef.
    now rewrite Hs.
  - intros s Hlen. unfold validateGitRef.
    destruct (length (trim s) =? 0)%nat; [reflexivity|].
    destruct (256 <? length (trim s))%nat eqn:E; [reflexivity|].
    apply Nat.ltb_ge in E.
    assert (Hws : existsb is_ws s = true) by (apply trim_shorter_has_ws; lia).
    now rewrite (ws_is_unsafe _ Hws), orb_true_r.
  - intros s c Hin Hc. apply validateGitRef_unsafe.
    apply orb_true_iff. left. apply existsb_exists. exists c.
    split; [exact Hin|]. unfold isControlChar.
    apply orb_true_iff. destruct Hc as [Hc|Hc];
      [left; now apply N.leb_le|right; now apply N.eqb_eq].
  - intros s c Hin Hc. apply validateGitRef_unsafe.
    apply orb_true_iff. right. apply existsb_exists. exists c.
    split; [exact Hin|now apply UNSAFE_REF_CHARS_spec].
  - intros s Hne Hlen Hctl Hunsafe.
    assert (Hws : existsb is_ws s = false).
    { destruct (existsb is_ws s) eqn:E; [|reflexivity].
      apply ws_is_unsafe in E. congruence. }
    pose proof (trim_no_ws _ Hws) as Htrim. split; [|exact Htrim].
    unfold validateGitRef. rewrite Htrim, Hctl, Hunsafe. simpl.
    destruct s as [|c s]; [discriminate|]. simpl.
    destruct (256 <? S (length s))%nat eqn:E; [|reflexivity].
    apply Nat.ltb_lt in E. simpl in Hlen. lia.
  - vm_compute. reflexivity.
  - vm_compute. reflexivity.
Qed.

Lemma validateGitRef_spec_witness :
  validateGitRef (VString (lit "v1.0.0")) = Ok (trim (lit "v1.0.0"))
  /\ trim (lit "v1.0.0") = lit "v1.0.0".
Proof.
  destruct validateGitRef_spec as (_ & _ & _ & _ & _ & H & _).
  apply (H (lit "v1.0.0")).
  - reflexivity.
  - simpl. lia.
  - reflexivity.
  - reflexivity.
Defined.

(** ** Paths: splitting and joining *)

Lemma splitSlash_not_nil s : splitSlash s <> [].
Proof.
  destruct s as [|c s]; simpl; [discriminate|].
  destruct (N.eqb c slash); [discriminate|].
  destruct (splitSlash s); discriminate.
Qed.

Lemma splitSlash_app s t :
  splitSlash (s ++ slash :: t) = splitSlash s ++ splitSlash t.
Proof.
  induction s as [|c s IH]; simpl.
  - reflexivity.
  - destruct (N.eqb c slash); [now rewrite IH|].
    rewrite IH. destruct (splitSlash s) eqn:E; [|reflexivity].
    now apply splitSlash_not_nil in E.
Qed.

Lemma noSlash_cons c seg :
  N.eqb c slash = false -> noSlash (c :: seg) = noSlash seg.
Proof. intro H. unfold noSlash. simpl. now rewrite H. Qed.

Lemma splitSlash_noSlash s : forallb noSlash (splitSlash s) = true.
Proof.
  induction s as [|c s IH]; simpl; [reflexivity|].
  destruct (N.eqb c slash) eqn:E; simpl; [exact IH|].
  destruct (splitSlash s) as [|seg segs]; simpl in *.
  - now rewrite (noSlash_cons c _ E).
  - now rewrite (noSlash_cons c _ E).
Qed.

Lemma splitSlash_plain s : noSlash s = true -> splitSlash s = [s].
Proof.
  unfold noSlash. induction s as [|c s IH]; simpl; [reflexivity|].
  rewrite negb_orb. intro H. apply andb_true_iff in H as [Hc Hs].
  apply negb_true_iff in Hc. rewrite Hc.
  now rewrite (IH Hs).
Qed.

Lemma splitSlash_join segs :
  segs <> [] -> forallb noSlash segs = true ->
  splitSlash (joinSlash segs) = segs.
Proof.
  induction segs as [|seg segs IH]; [congruence|]. intros _ H.
  simpl in H. apply andb_true_iff in H as [Hseg Hsegs].
  destruct segs as [|seg' segs'].
  - simpl. now apply splitSlash_plain.
  - change (joinSlash (seg :: seg' :: segs'))
      with (seg ++ slash :: joinSlash (seg' :: segs')).
    rewrite splitSlash_app, (splitSlash_plain _ Hseg), IH;
      [reflexivity|discriminate|exact Hsegs].
Qed.

Lemma joinSlash_split s : joinSlash (splitSlash s) = s.
Proof.
  induction s as [|c s IH]; simpl; [reflexivity|].
  destruct (N.eqb c slash) eqn:E.
  - apply N.eqb_eq in E. subst c.
    destruct (splitSlash s) eqn:Es; [now apply splitSlash_not_nil in Es|].
    simpl in *. now rewrite IH.
  - destruct (splitSlash s) as [|seg segs] eqn:Es;
      [now apply splitSlash_not_nil in Es|].
    destruct segs; simpl in *; now rewrite <- IH.
Qed.

Lemma goodSeg_noSlash seg : goodSeg seg = true -> noSlash seg = true.
Proof. unfold goodSeg. intro H. now apply andb_true_iff in H as [_ H]. Qed.

Lemma goodSegs_noSlash segs :
  forallb goodSeg segs = true -> forallb noSlash segs = true.
Proof.
  rewrite !forallb_forall. intros H x Hx. apply goodSeg_noSlash. auto.
Qed.

Lemma goodSeg_not_empty seg : goodSeg seg = true -> str_eqb seg [] = false.
Proof.
  unfold goodSeg. intro H. repeat (apply andb_true_iff in H as [H _]).
  now apply negb_true_iff.
Qed.

(** ** Paths: normalisation *)

Lemma normStep_good stack seg :
  goodSeg seg = true -> normStep false stack seg = seg :: stack.
Proof.
  unfold goodSeg, normStep. intro H.
  apply andb_true_iff in H as [H _].
  apply andb_true_iff in H as [H H3]. apply andb_true_iff in H as [H1 H2].
  apply negb_true_iff in H1, H2, H3. now rewrite H1, H2, H3.
Qed.

Lemma normStep_empty stack : normStep false stack [] = stack.
Proof. reflexivity. Qed.

Lemma normStep_keeps_good stack seg :
  forallb goodSeg stack = true -> noSlash seg = true ->
  forallb goodSeg (normStep false stack seg) = true.
Proof.
  intros Hst Hseg. unfold normStep.
  destruct (str_eqb seg []) eqn:E1; [exact Hst|].
  destruct (str_eqb seg dot) eqn:E2; [exact Hst|]. simpl.
  destruct (str_eqb seg dotdot) eqn:E3.
  - destruct stack as [|top rest]; [reflexivity|].
    simpl in Hst. now apply andb_true_iff in Hst as [_ Hst].
  - simpl. rewrite Hst, andb_true_r. unfold goodSeg.
    now rewrite E1, E2, E3, Hseg.
Qed.

Lemma normalize_keeps_good segs stack :
  forallb goodSeg stack = true -> forallb noSlash segs = true ->
  forallb goodSeg (fold_left (normStep false) segs stack) = true.
Proof.
  revert stack; induction segs as [|seg segs IH]; intros stack Hst Hs; simpl.
  - exact Hst.
  - simpl in Hs. apply andb_true_iff in Hs as [H1 H2].
    apply IH; [now apply normStep_keeps_good|exact H2].
Qed.

Lemma normalize_good_segs segs stack :
  forallb goodSeg segs = true ->
  fold_left (normStep false) segs stack = rev segs ++ stack.
Proof.
  revert stack; induction segs as [|seg segs IH]; intros stack H; simpl.
  - reflexivity.
  - simpl in H. apply andb_true_iff in H as [H1 H2].
    rewrite normStep_good by exact H1. rewrite IH by exact H2.
    now rewrite <- app_assoc.
Qed.

(** Normalising the text of an already normal list of segments. *)
Lemma normalize_join b stack :
  forallb goodSeg b = true ->
  fold_left (normStep false) (splitSlash (joinSlash b)) stack = rev b ++ stack.
Proof.
  intro H. destruct b as [|seg b']; [reflexivity|].
  rewrite splitSlash_join;
    [now apply normalize_good_segs|discriminate|now apply goodSegs_noSlash].
Qed.

Lemma forallb_rev_true A (f : A -> bool) l :
  forallb f l = true -> forallb f (rev l) = true.
Proof. now rewrite forallb_rev. Qed.

Lemma segments_join b :
  forallb goodSeg b = true -> segments (slash :: joinSlash b) = b.
Proof.
  intro H. unfold segments. simpl.
  destruct b as [|seg b']; [reflexivity|].
  rewrite splitSlash_join; [|discriminate|now apply goodSegs_noSlash].
  induction (seg :: b') as [|x l IH]; simpl; [reflexivity|].
  simpl in H. apply andb_true_iff in H as [Hx Hl].
  rewrite (goodSeg_not_empty _ Hx). simpl. now rewrite IH.
Qed.

(** ** Paths: resolution against an absolute working directory *)

Section Resolve.

Variable cwd : jsstring.
Hypothesis cwd_absolute : isAbsolute cwd = true.

Lemma cwd_not_empty : (length cwd =? 0)%nat = false.
Proof. destruct cwd; [discriminate cwd_absolute|reflexivity]. Qed.

Lemma resolveLoop_absolute l acc :
  existsb isAbsolute l = true ->
  snd (resolveLoop l acc) = true.
Proof.
  revert acc; induction l as [|p l IH]; intros acc H; simpl in *;
    [discriminate|].
  destruct (length p =? 0)%nat eqn:E.
  - destruct p; [|discriminate]. simpl in H. now apply IH.
  - destruct (isAbsolute p) eqn:Ep; [reflexivity|].
    simpl in H. now apply IH.
Qed.

(** A resolved path is a slash followed by kept segments. *)
Lemma path_resolve_good args :
  exists b, forallb goodSeg b = true
            /\ path_resolve cwd args = slash :: joinSlash b.
Proof.
  unfold path_resolve.
  destruct (resolveLoop (rev (cwd :: args)) []) as [rp abs] eqn:E.
  assert (Habs : abs = true).
  { change abs with (snd (rp, abs)). rewrite <- E.
    apply resolveLoop_absolute. rewrite existsb_rev. simpl.
    now rewrite cwd_absolute. }
  subst abs. exists (normalizeSegments false rp). split; [|reflexivity].
  unfold normalizeSegments. apply forallb_rev_true.
  apply normalize_keeps_good; [reflexivity|apply splitSlash_noSlash].
Qed.

Lemma normalize_after_base (b : list jsstring) (rest : jsstring) :
  forallb goodSeg b = true ->
  fold_left (normStep false)
    (splitSlash ((slash :: joinSlash b) ++ slash :: rest)) []
  = fold_left (normStep false) (splitSlash rest) (rev b).
Proof.
  intro Hb. rewrite splitSlash_app, fold_left_app.
  change (splitSlash (slash :: joinSlash b))
    with ([] :: splitSlash (joinSlash b)).
  simpl fold_left at 2. rewrite normStep_empty, normalize_join by exact Hb.
  now rewrite app_nil_r.
Qed.

Lemma normalize_trailing (t : jsstring) (stack : list jsstring) :
  fold_left (normStep false) (splitSlash (t ++ [slash])) stack
  = fold_left (normStep false) (splitSlash t) stack.
Proof. rewrite splitSlash_app, fold_left_app. reflexivity. Qed.

Lemma base_not_empty b : (length (slash :: joinSlash b) =? 0)%nat = false.
Proof. reflexivity. Qed.

(** Resolving a resolved path gives it back. *)
Lemma path_resolve_idem (b : list jsstring) :
  forallb goodSeg b = true ->
  path_resolve cwd [slash :: joinSlash b] = slash :: joinSlash b.
Proof.
  intro Hb. unfold path_resolve.
  change (rev [cwd; slash :: joinSlash b]) with [slash :: joinSlash b; cwd].
  unfold resolveLoop. rewrite base_not_empty.
  change (isAbsolute (slash :: joinSlash b)) with true.
  cbv iota beta. unfold normalizeString, normalizeSegments.
  change (negb true) with false.
  rewrite (normalize_after_base b [] Hb). simpl.
  now rewrite normStep_empty, rev_involutive.
Qed.

(** Resolving a non-empty path against a resolved base. *)
Lemma path_resolve_against (b : list jsstring) (t : jsstring) :
  forallb goodSeg b = true -> t <> [] ->
  path_resolve cwd [slash :: joinSlash b; t]
  = slash :: joinSlash
      (rev (fold_left (normStep false) (splitSlash t)
              (if isAbsolute t then [] else rev b))).
Proof.
  intros Hb Ht. unfold path_resolve.
  change (rev [cwd; slash :: joinSlash b; t])
    with [t; slash :: joinSlash b; cwd].
  unfold resolveLoop.
  destruct t as [|c t']; [congruence|].
  change (length (c :: t') =? 0)%nat with false. cbv iota.
  destruct (isAbsolute (c :: t')) eqn:Et.
  - unfold normalizeString, normalizeSegments.
    change (negb true) with false.
    now rewrite normalize_trailing.
  - rewrite base_not_empty.
    change (isAbsolute (slash :: joinSlash b)) with true.
    cbv iota beta. unfold normalizeString, normalizeSegments.
    change (negb true) with false.
    rewrite (normalize_after_base b _ Hb).
    now rewrite normalize_trailing.
Qed.

Lemma stripCommon_same b : stripCommon b b = ([], []).
Proof.
  induction b as [|x b IH]; simpl; [reflexivity|].
  now rewrite str_eqb_refl.
Qed.

Lemma stripCommon_app p a c : stripCommon (p ++ a) (p ++ c) = stripCommon a c.
Proof.
  induction p as [|x p IH]; simpl; [reflexivity|].
  now rewrite str_eqb_refl.
Qed.

Lemma stripCommon_prefix b r :
  fst (stripCommon b r) = [] <-> isPrefix b r = true.
Proof.
  revert r; induction b as [|x b IH]; intro r; simpl; [intuition|].
  destruct r as [|y r]; simpl; [split; discriminate|].
  destruct (str_eqb x y); simpl; [apply IH|split; discriminate].
Qed.

Lemma stripCommon_extend b e : stripCommon b (b ++ e) = ([], e).
Proof.
  rewrite <- (app_nil_r b) at 1. rewrite stripCommon_app.
  reflexivity.
Qed.

(** The relative path between two resolved paths. *)
Lemma path_relative_good (b r : list jsstring) :
  forallb goodSeg b = true -> forallb goodSeg r = true ->
  path_relative cwd (slash :: joinSlash b) (slash :: joinSlash r)
  = joinSlash (map (fun _ => dotdot) (fst (stripCommon b r))
               ++ snd (stripCommon b r)).
Proof.
  intros Hb Hr. unfold path_relative.
  assert (Hsame : str_eqb (slash :: joinSlash b) (slash :: joinSlash r) = true
                  -> joinSlash (map (fun _ => dotdot) (fst (stripCommon b r))
                                ++ snd (stripCommon b r)) = []).
  { intro H. apply str_eqb_eq in H.
    assert (Hbr : b = r).
    { rewrite <- (segments_join b Hb), <- (segments_join r Hr). now rewrite H. }
    subst r. now rewrite stripCommon_same. }
  destruct (str_eqb (slash :: joinSlash b) (slash :: joinSlash r)) eqn:E.
  - symmetry. now apply Hsame.
  - rewrite !path_resolve_idem, E by assumption.
    rewrite !segments_join by assumption.
    now destruct (stripCommon b r).
Qed.

Lemma startsWith_climb up down :
  up <> [] ->
  startsWith (joinSlash (map (fun _ : jsstring => dotdot) up ++ down)) dotdot
  = true.
Proof.
  destruct up as [|u up]; [congruence|]. intros _. simpl.
  destruct (map _ up ++ down); reflexivity.
Qed.

End Resolve.

(** ** Path validation *)

Section ValidatePath.

Variable cwd : jsstring.
Hypothesis cwd_absolute : isAbsolute cwd = true.

Lemma baseOf_segments baseDir :
  forallb goodSeg (baseSegments cwd baseDir) = true
  /\ baseOf cwd baseDir = slash :: joinSlash (baseSegments cwd baseDir).
Proof.
  unfold baseSegments, baseOf.
  destruct (path_resolve_good cwd cwd_absolute
              [match baseDir with Some d => d | None => cwd end])
    as [b [Hb Eb]].
  rewrite Eb, (segments_join b Hb). auto.
Qed.

Lemma resolvedSegments_good b t :
  forallb goodSeg b = true -> forallb goodSeg (resolvedSegments b t) = true.
Proof.
  intro Hb. unfold resolvedSegments. apply forallb_rev_true.
  apply normalize_keeps_good; [|apply splitSlash_noSlash].
  destruct (isAbsolute t); [reflexivity|now apply forallb_rev_true].
Qed.

Lemma startsWith_slash t : startsWith t [slash] = isAbsolute t.
Proof.
  destruct t as [|c t]; [reflexivity|]. unfold isAbsolute. simpl.
  apply andb_true_r.
Qed.

(** [validatePath] on a string that passes the two length checks, read on
    segments. *)
Lemma validatePath_segments s baseDir :
  trim s <> [] -> (length (trim s) <= 4096)%nat ->
  validatePath cwd (VString s) baseDir
  = let b := baseSegments cwd baseDir in
    let r := resolvedSegments b (trim s) in
    let rel := joinSlash (relativeSegments b r) in
    if startsWith rel dotdot || startsWith rel [slash]
    then Throw outsideAllowed
    else Ok (slash :: joinSlash r).
Proof.
  intros Hne Hlen. unfold validatePath.
  destruct (trim s) as [|c t'] eqn:Et; [congruence|].
  change (length (c :: t') =? 0)%nat with false. cbv iota.
  assert (Hle : (MAX_PATH_LENGTH <? length (c :: t'))%nat = false)
    by (apply Nat.ltb_ge; exact Hlen).
  rewrite Hle. cbv zeta.
  destruct (baseOf_segments baseDir) as [Hb Eb]. unfold baseOf in Eb.
  set (base := path_resolve cwd [_]) in *.
  set (resolved := path_resolve cwd _).
  assert (Hres : resolved
                 = slash :: joinSlash
                     (resolvedSegments (baseSegments cwd baseDir) (c :: t'))).
  { unfold resolved. rewrite Eb.
    apply path_resolve_against; [exact Hb|discriminate]. }
  assert (Hrel : path_relative cwd base resolved
                 = joinSlash
                     (relativeSegments (baseSegments cwd baseDir)
                        (resolvedSegments (baseSegments cwd baseDir)
                           (c :: t')))).
  { rewrite Hres, Eb.
    apply (path_relative_good cwd);
      [exact Hb|now apply resolvedSegments_good]. }
  rewrite Hrel, Hres. reflexivity.
Qed.

(** A relative path made of plain segments stays under the base. *)
Lemma validatePath_plain s baseDir :
  (length (trim s) <= 4096)%nat ->
  forallb goodSeg (splitSlash (trim s)) = true ->
  startsWith (trim s) dotdot = false ->
  validatePath cwd (VString s) baseDir
  = Ok (slash :: joinSlash (baseSegments cwd baseDir ++ splitSlash (trim s))).
Proof.
  intros Hlen Hgood Hdd.
  assert (Hrel : isAbsolute (trim s) = false).
  { destruct (trim s) as [|c t']; [reflexivity|]. unfold isAbsolute.
    destruct (N.eqb c slash) eqn:E; [|reflexivity].
    simpl in Hgood. rewrite E in Hgood. discriminate. }
  assert (Hne : trim s <> []) by (intro H; rewrite H in Hgood; discriminate).
  rewrite (validatePath_segments s baseDir Hne Hlen). cbv zeta.
  assert (Hr : resolvedSegments (baseSegments cwd baseDir) (trim s)
               = baseSegments cwd baseDir ++ splitSlash (trim s)).
  { unfold resolvedSegments. rewrite Hrel, normalize_good_segs by exact Hgood.
    now rewrite rev_app_distr, !rev_involutive. }
  rewrite Hr. unfold relativeSegments. rewrite stripCommon_extend.
  cbn [fst snd map app].
  now rewrite joinSlash_split, Hdd, startsWith_slash, Hrel.
Qed.

(** A target whose segments do not start with those of the base is
    rejected. *)
Lemma validatePath_escape s baseDir :
  trim s <> [] -> (length (trim s) <= 4096)%nat ->
  isPrefix (baseSegments cwd baseDir)
    (resolvedSegments (baseSegments cwd baseDir) (trim s)) = false ->
  validatePath cwd (VString s) baseDir = Throw outsideAllowed.
Proof.
  intros Hne Hlen Hpre.
  rewrite (validatePath_segments s baseDir Hne Hlen). cbv zeta.
  unfold relativeSegments. rewrite startsWith_climb; [reflexivity|].
  intro H. apply stripCommon_prefix in H. congruence.
Qed.

Lemma normStep_dotdot stack : normStep false stack dotdot = tl stack.
Proof. destruct stack; reflexivity. Qed.

Lemma isPrefix_app p a c : isPrefix (p ++ a) (p ++ c) = isPrefix a c.
Proof.
  induction p as [|x p IH]; simpl; [reflexivity|].
  now rewrite str_eqb_refl.
Qed.

Lemma etcPasswd_escapes b :
  b <> [] -> b <> [lit "etc"] -> b <> [lit "etc"; lit "passwd"] ->
  isPrefix b (resolvedSegments b etcPasswdTraversal) = false.
Proof.
  intros H0 H1 H2. unfold resolvedSegments.
  change (isAbsolute etcPasswdTraversal) with false. cbv iota.
  change (splitSlash etcPasswdTraversal)
    with [dotdot; dotdot; dotdot; lit "etc"; lit "passwd"].
  cbn [fold_left]. rewrite !normStep_dotdot.
  rewrite !normStep_good by reflexivity.
  assert (Hb : b = rev (rev b)) by now rewrite rev_involutive.
  destruct (rev b) as [|x [|y [|z rest]]]; simpl in Hb; subst b.
  - congruence.
  - simpl. rewrite andb_true_r. apply str_eqb_neq. congruence.
  - simpl. rewrite andb_true_r.
    destruct (str_eqb y (lit "etc")) eqn:Ey; [|reflexivity].
    destruct (str_eqb x (lit "passwd")) eqn:Ex; [|reflexivity].
    apply str_eqb_eq in Ey, Ex. subst. congruence.
  - cbn [tl rev]. rewrite <- !app_assoc. cbn [app].
    rewrite isPrefix_app. simpl. now rewrite !andb_false_r.
Qed.

End ValidatePath.

(** Trailing blanks are not counted, and the root contains every path. *)
Lemma validatePath_counterexample :
  (length (lit "a" ++ repeat 32%N 4096) > 4096)%nat
  /\ validatePath (lit "/work") (VString (lit "a" ++ repeat 32%N 4096))
       (Some (lit "/home/project"))
     = Ok (lit "/home/project/a")
  /\ validatePath (lit "/work") (VString etcPasswdTraversal) (Some (lit "/"))
     = Ok (lit "/etc/passwd").
Proof.
  split; [|split].
  - rewrite length_app, repeat_length. simpl. lia.
  - vm_compute. reflexivity.
  - vm_compute. reflexivity.
Qed.

(** C3 (amended). With an absolute working directory, [validatePath] rejects
    a non-string, an empty or white-space-only string, and a string whose
    length after trimming exceeds 4096.  Otherwise it resolves the trimmed
    candidate against the resolved base directory, rejects it when the
    relative path from the base to the resolved path starts with ".." or
    with "/", and else returns the resolved path, which is absolute.  The
    path "../../../etc/passwd" fails with the traversal error for every base
    directory that does not resolve to "/", "/etc" or "/etc/passwd", and
    "tsconfig.json" is returned as the absolute path of that name directly
    under the resolved base. *)
Theorem validatePath_spec (cwd : jsstring) :
  isAbsolute cwd = true ->
  (forall v baseDir, isString v = false ->
     validatePath cwd v baseDir = Throw (lit "Path must be a string"))
  /\ (forall s baseDir, forallb is_ws s = true ->
        validatePath cwd (VString s) baseDir
        = Throw (lit "Path cannot be empty"))
  /\ (forall s baseDir, (4096 < length (trim s))%nat ->
        validatePath cwd (VString s) baseDir
        = Throw (lit "Path exceeds maximum length (4096)"))
  /\ (forall s baseDir,
        forallb is_ws s = false -> (length (trim s) <= 4096)%nat ->
        let base := baseOf cwd baseDir in
        let resolved := path_resolve cwd [base; trim s] in
        let rel := path_relative cwd base resolved in
        isAbsolute resolved = true
        /\ validatePath cwd (VString s) baseDir
           = if startsWith rel dotdot || startsWith rel [slash]
             then Throw outsideAllowed
             else Ok resolved)
  /\ (forall baseDir,
        baseSegments cwd baseDir <> [] ->
        baseSegments cwd baseDir <> [lit "etc"] ->
        baseSegments cwd baseDir <> [lit "etc"; lit "passwd"] ->
        validatePath cwd (VString etcPasswdTraversal) baseDir
        = Throw outsideAllowed)
  /\ (forall baseDir,
        baseOf cwd baseDir = slash :: joinSlash (baseSegments cwd baseDir)
        /\ validatePath cwd (VString (lit "tsconfig.json")) baseDir
           = Ok (slash :: joinSlash (baseSegments cwd baseDir
                                     ++ [lit "tsconfig.json"]))).
Proof.
  intro Habs. split; [|split; [|split; [|split; [|split]]]].
  - intros v baseDir Hv. destruct v; try reflexivity. discriminate.
  - intros s baseDir Hs. apply trim_all_ws in Hs. unfold validatePath.
    now rewrite Hs.
  - intros s baseDir Hlen. unfold validatePath.
    destruct (trim s) as [|c t]; [simpl in Hlen; lia|].
    change (length (c :: t) =? 0)%nat with false. cbv iota.
    assert (H : (MAX_PATH_LENGTH <? length (c :: t))%nat = true)
      by (apply Nat.ltb_lt; exact Hlen).
    now rewrite H.
  - intros s baseDir Hne Hlen. cbv zeta.
    assert (Ht : trim s <> []).
    { intro H. apply trim_all_ws in H. congruence. }
    split.
    + destruct (path_resolve_good cwd Habs [baseOf cwd baseDir; trim s])
        as [r [_ ->]]. reflexivity.
    + unfold validatePath, baseOf.
      destruct (trim s) as [|c t]; [congruence|].
      change (length (c :: t) =? 0)%nat with false. cbv iota.
      assert (H : (MAX_PATH_LENGTH <? length (c :: t))%nat = false)
        by (apply Nat.ltb_ge; exact Hlen).
      now rewrite H.
  - intros baseDir H0 H1 H2.
    apply (validatePath_escape cwd Habs etcPasswdTraversal baseDir).
    + discriminate.
    + apply Nat.leb_le. vm_compute. reflexivity.
    + change (trim etcPasswdTraversal) with etcPasswdTraversal.
      now apply etcPasswd_escapes.
  - intro baseDir. split; [apply (baseOf_segments cwd Habs)|].
    apply (validatePath_plain cwd Habs (lit "tsconfig.json") baseDir).
    + apply Nat.leb_le. vm_compute. reflexivity.
    + reflexivity.
    + reflexivity.
Qed.

Lemma validatePath_spec_witness :
  validatePath (lit "/work") (VString etcPasswdTraversal)
    (Some (lit "/home/project")) = Throw outsideAllowed.
Proof.
  destruct (validatePath_spec (lit "/work") eq_refl)
    as (_ & _ & _ & _ & H & _).
  apply (H (Some (lit "/home/project"))); vm_compute; discriminate.
Defined.

(** ** JSON on small documents *)

Example JSON_stringify_example :
  JSON_stringify
    (VObject [(lit "a", VArray [VNumber 1; VUndefined; VString (lit "x/y")]);
              (lit "b", VUndefined);
              (lit "c", VObject []);
              (lit "d", VNumber (-20))])
  = Some (jsonText "{
  'a': [
    1,
    null,
    'x/y'
  ],
  'c': {},
  'd': -20
}").
Proof. vm_compute. reflexivity. Qed.

Example JSON_parse_examples :
  JSON_parse (jsonText "{'a': [1, null, 'x\u002fy'], 'a': true, 'b' : -0}")
  = Some (VObject [(lit "a", VBoolean true); (lit "b", VNumber 0)])
  /\ JSON_parse (jsonText "not valid json {") = None
  /\ JSON_parse (jsonText "{'foo': 'bar'}")
     = Some (VObject [(lit "foo", VString (lit "bar"))])
  /\ JSON_parse (jsonText "[01]") = None
  /\ JSON_parse (jsonText "[1] x") = None.
Proof. vm_compute. repeat split. Qed.

(** ** The snapshot store on small file systems *)

Example save_then_load :
  let opts := {| save_outputPath := Some (lit "tmp/snapshot.json");
                 save_baseDir := None;
                 save_gitRef := Some (lit "main");
                 save_gitSha := None |} in
  let '(saved, fs) :=
    saveSnapshot (lit "/repo") (lit "2025-02-23T00:00:00.000Z")
      {| symbols := greetRegistry |} (lit "tsconfig.json") opts emptyFs in
  saved = Ok (lit "/repo/tmp/snapshot.json")
  /\ fs_dirs fs = [lit "/"; lit "/repo"; lit "/repo/tmp"]
  /\ match loadSnapshot (lit "/repo") noMessage (lit "tmp/snapshot.json")
             {| load_baseDir := None |} fs with
     | (Ok v, _) =>
         getProp v (lit "snapshot") = snapshotValue {| symbols := greetRegistry |}
         /\ getProp (getProp v (lit "metadata")) (lit "gitRef")
            = VString (lit "main")
         /\ getProp (getProp v (lit "metadata")) (lit "gitSha") = VUndefined
     | (Throw _, _) => False
     end.
Proof. vm_compute. repeat split. Qed.

(** ** Loading a snapshot of another format version *)

Lemma includes_here s p : startsWith s p = true -> includes s p = true.
Proof. intro H. destruct s; simpl; now rewrite H. Qed.

Lemma startsWith_app p rest : startsWith (p ++ rest) p = true.
Proof.
  induction p as [|c p IH]; simpl; [reflexivity|].
  now rewrite N.eqb_refl, IH.
Qed.

Lemma includes_app a p b : includes (a ++ p ++ b) p = true.
Proof.
  induction a as [|c a IH]; simpl.
  - apply includes_here, startsWith_app.
  - rewrite IH. apply orb_true_r.
Qed.

Lemma versionMismatchMessage_names_both found :
  includes (versionMismatchMessage found) (Number_toString found) = true
  /\ includes (versionMismatchMessage found)
       (Number_toString SNAPSHOT_FORMAT_VERSION) = true.
Proof.
  unfold versionMismatchMessage. split.
  - apply includes_app.
  - rewrite !app_assoc. rewrite <- app_assoc. apply includes_app.
Qed.

Lemma versionMismatchMessage_text found :
  lit "Unsupported snapshot version: " ++ Number_toString found ++ lit ". "
  ++ lit "Current version is " ++ Number_toString SNAPSHOT_FORMAT_VERSION
  ++ lit ". " ++ lit "Please regenerate the snapshot."
  = versionMismatchMessage found.
Proof. unfold versionMismatchMessage. do 2 f_equal. Qed.

(** C6. When the file that [loadSnapshot] reads holds a well-formed stored
    snapshot (a document that passes the shape check) whose
    [metadata.version] differs from the supported format version 1, the
    call fails, and the message names the version found and the supported
    version; with version 99 the message mentions 99 and 1. *)
Theorem loadSnapshot_version_mismatch
    (cwd : jsstring) (syntaxErrorMessage : jsstring -> jsstring)
    (fs : FileSystem) (path : jsstring) (options : LoadSnapshotOptions)
    (resolvedPath raw : jsstring) (parsed : JsValue) (found : Z) :
  validatePath cwd (VString path) (Some (orElse (load_baseDir options) cwd))
  = Ok resolvedPath ->
  Map_get (fs_files fs) resolvedPath = Some raw ->
  JSON_parse raw = Some parsed ->
  isStoredSnapshot parsed = true ->
  getProp (getProp parsed (lit "metadata")) (lit "version") = VNumber found ->
  found <> SNAPSHOT_FORMAT_VERSION ->
  loadSnapshot cwd syntaxErrorMessage path options fs
  = (Throw (versionMismatchMessage found), fs)
  /\ includes (versionMismatchMessage found) (Number_toString found) = true
  /\ includes (versionMismatchMessage found)
       (Number_toString SNAPSHOT_FORMAT_VERSION) = true
  /\ (found = 99%Z ->
      includes (versionMismatchMessage found) (lit "99") = true
      /\ includes (versionMismatchMessage found) (lit "1") = true).
Proof.
  intros Hpath Hfile Hparse Hshape Hversion Hdiff.
  destruct (versionMismatchMessage_names_both found) as [H1 H2].
  split; [|split; [exact H1|split; [exact H2|]]].
  - unfold loadSnapshot, bindIO, liftResult, existsSync, readFileSync, isFile,
      Map_has.
    rewrite Hpath, Hfile. cbn [negb orb]. rewrite Hfile, Hparse, Hshape.
    cbn [negb]. rewrite Hversion.
    assert (Hne : Z.eqb found SNAPSHOT_FORMAT_VERSION = false)
      by now apply Z.eqb_neq.
    rewrite Hne. cbn [negb]. unfold throw.
    now rewrite versionMismatchMessage_text.
  - intros ->. split; vm_compute; reflexivity.
Qed.

Lemma loadSnapshot_version_mismatch_witness :
  loadSnapshot (lit "/repo") noMessage (lit "tmp/old-version.json")
    {| load_baseDir := None |} version99Fs
  = (Throw (versionMismatchMessage 99), version99Fs)
  /\ includes (versionMismatchMessage 99) (lit "99") = true
  /\ includes (versionMismatchMessage 99) (lit "1") = true.
Proof.
  destruct (loadSnapshot_version_mismatch (lit "/repo") noMessage version99Fs
              (lit "tmp/old-version.json") {| load_baseDir := None |}
              (lit "/repo/tmp/old-version.json") version99Text
              (VObject
                 [(lit "metadata",
                   VObject [(lit "version", VNumber 99);
                            (lit "createdAt",
                             VString (lit "2025-02-23T00:00:00.000Z"));
                            (lit "tsConfigPath", VString (lit "/"))]);
                  (lit "snapshot",
                   VObject [(lit "symbols",
                             VObject [(lit "functions", VObject []);
                                      (lit "interfaces", VObject []);
                                      (lit "types", VObject [])])])])
              99%Z)
    as (Hload & _ & _ & H99).
  - vm_compute. reflexivity.
  - vm_compute. reflexivity.
  - vm_compute. reflexivity.
  - vm_compute. reflexivity.
  - vm_compute. reflexivity.
  - discriminate.
  - split; [exact Hload|]. now apply H99.
Defined.

(** ** The default baseline file *)

Example saveSnapshotFromGitRef_example :
  fst (saveSnapshotFromGitRef (lit "/repo") sampleTime anyRepository
         greetWorktree (lit "tsconfig.json") (lit "origin/main") None
         defaultGitOptions emptyFs)
  = Ok (lit "/repo/.flowlock/baseline-origin_main.json").
Proof. vm_compute. reflexivity. Qed.

(** The dots of a version tag are kept in the file name. *)
Lemma saveSnapshotFromGitRef_counterexample :
  fst (saveSnapshotFromGitRef (lit "/repo") sampleTime anyRepository
         greetWorktree (lit "tsconfig.json") (lit "v1.0.0") None
         defaultGitOptions emptyFs)
  = Ok (lit "/repo/.flowlock/baseline-" ++ lit "v1.0.0" ++ lit ".json")
  /\ sanitizeRef (lit "v1.0.0") = lit "v1.0.0"
  /\ everyNonAlphanumericReplaced (lit "v1.0.0") (sanitizeRef (lit "v1.0.0"))
     = false.
Proof. vm_compute. repeat split. Qed.

Lemma refFileChar_plain c :
  isRefFileChar c = true \/ c = underscore ->
  is_ws c = false /\ N.eqb c slash = false.
Proof.
  intro H.
  assert (Hrange : (c = 45 \/ c = 46 \/ (48 <= c <= 57) \/ (65 <= c <= 90)
                    \/ c = 95 \/ (97 <= c <= 122))%N).
  { destruct H as [H| ->]; [|unfold underscore; lia].
    unfold isRefFileChar in H.
    rewrite !orb_true_iff, !andb_true_iff, !N.leb_le, !N.eqb_eq in H. lia. }
  split.
  - destruct (is_ws c) eqn:E; [|reflexivity]. exfalso.
    unfold is_ws in E.
    rewrite !orb_true_iff, !andb_true_iff, !N.leb_le, !N.eqb_eq in E. lia.
  - apply N.eqb_neq. unfold slash. lia.
Qed.

Lemma sanitizeRef_chars gitRef c :
  In c (sanitizeRef gitRef) -> isRefFileChar c = true \/ c = underscore.
Proof.
  unfold sanitizeRef. intro H. apply in_map_iff in H as [x [Hx _]].
  destruct (isRefFileChar x) eqn:E; subst c; auto.
Qed.

Lemma sanitizeRef_length gitRef : length (sanitizeRef gitRef) = length gitRef.
Proof. apply length_map. Qed.

Lemma sanitizeRef_nth gitRef i c :
  nth_error gitRef i = Some c ->
  nth_error (sanitizeRef gitRef) i
  = Some (if isRefFileChar c then c else underscore).
Proof.
  intro H. unfold sanitizeRef. rewrite nth_error_map, H. reflexivity.
Qed.

Lemma sanitizeRef_no_ws gitRef : existsb is_ws (sanitizeRef gitRef) = false.
Proof.
  apply existsb_false_forall. intros c Hc.
  now apply refFileChar_plain, sanitizeRef_chars with (gitRef := gitRef).
Qed.

Lemma sanitizeRef_noSlash gitRef : noSlash (sanitizeRef gitRef) = true.
Proof.
  unfold noSlash. apply negb_true_iff, existsb_false_forall. intros c Hc.
  now apply refFileChar_plain, sanitizeRef_chars with (gitRef := gitRef).
Qed.

Lemma noSlash_app a b : noSlash (a ++ b) = noSlash a && noSlash b.
Proof. unfold noSlash. now rewrite existsb_app, negb_orb. Qed.

Lemma baselineName_good gitRef : goodSeg (baselineName gitRef) = true.
Proof.
  unfold goodSeg, baselineName.
  rewrite !noSlash_app, sanitizeRef_noSlash. reflexivity.
Qed.

Lemma defaultBaseline_split gitRef :
  splitSlash (lit ".flowlock/baseline-" ++ sanitizeRef gitRef ++ lit ".json")
  = [lit ".flowlock"; baselineName gitRef].
Proof.
  change (lit ".flowlock/baseline-" ++ sanitizeRef gitRef ++ lit ".json")
    with (lit ".flowlock" ++ slash :: baselineName gitRef).
  rewrite splitSlash_app.
  rewrite (splitSlash_plain (baselineName gitRef))
    by apply goodSeg_noSlash, baselineName_good.
  reflexivity.
Qed.

Lemma defaultBaseline_no_ws gitRef :
  existsb is_ws
    (lit ".flowlock/baseline-" ++ sanitizeRef gitRef ++ lit ".json") = false.
Proof. now rewrite !existsb_app, sanitizeRef_no_ws. Qed.

Lemma validateGitRef_length gitRef safeRef :
  validateGitRef (VString gitRef) = Ok safeRef ->
  (length gitRef <= 256)%nat /\ safeRef = gitRef.
Proof.
  unfold validateGitRef.
  destruct (length (trim gitRef) =? 0)%nat; [discriminate|].
  destruct (256 <? length (trim gitRef))%nat eqn:E; [discriminate|].
  destruct (existsb isControlChar gitRef || existsb UNSAFE_REF_CHARS gitRef)
    eqn:Eu; [discriminate|].
  intros [= <-]. apply orb_false_iff in Eu as [_ Eu].
  assert (Hws : existsb is_ws gitRef = false).
  { destruct (existsb is_ws gitRef) eqn:Ew; [|reflexivity].
    apply ws_is_unsafe in Ew. congruence. }
  rewrite (trim_no_ws _ Hws) in *. split; [|reflexivity].
  now apply Nat.ltb_ge in E.
Qed.

(** The default path always passes the path check. *)
Lemma validatePath_defaultBaseline cwd gitRef baseDir :
  isAbsolute cwd = true -> (length gitRef <= 256)%nat ->
  validatePath cwd
    (VString (lit ".flowlock/baseline-" ++ sanitizeRef gitRef ++ lit ".json"))
    baseDir
  = Ok (slash :: joinSlash (baseSegments cwd baseDir
                            ++ [lit ".flowlock"; baselineName gitRef])).
Proof.
  intros Habs Hlen.
  pose proof (trim_no_ws _ (defaultBaseline_no_ws gitRef)) as Htrim.
  pose proof (validatePath_plain cwd Habs
                (lit ".flowlock/baseline-" ++ sanitizeRef gitRef ++ lit ".json")
                baseDir) as H.
  rewrite Htrim, defaultBaseline_split in H. apply H.
  - rewrite !length_app, sanitizeRef_length. simpl. lia.
  - simpl. now rewrite baselineName_good.
  - reflexivity.
Qed.

(** ** Writing the snapshot file *)

Lemma validatePath_Ok_shape cwd v baseDir P :
  isAbsolute cwd = true ->
  validatePath cwd v baseDir = Ok P ->
  exists r, forallb goodSeg r = true /\ P = slash :: joinSlash r.
Proof.
  intros Habs H. destruct v as [| | | |s| |]; try discriminate H.
  assert (Hne : trim s <> []).
  { intro E. unfold validatePath in H. rewrite E in H. discriminate H. }
  assert (Hlen : (length (trim s) <= 4096)%nat).
  { destruct (MAX_PATH_LENGTH <? length (trim s))%nat eqn:E.
    - unfold validatePath in H. rewrite E in H.
      destruct (length (trim s) =? 0)%nat; discriminate H.
    - now apply Nat.ltb_ge in E. }
  rewrite (validatePath_segments cwd Habs s baseDir Hne Hlen) in H.
  cbv zeta in H. destruct (_ || _); [discriminate H|].
  injection H as <-. eexists. split; [|reflexivity].
  apply resolvedSegments_good. apply (baseOf_segments cwd Habs).
Qed.

Lemma prefixes_self (l : list jsstring) : In l (prefixes l).
Proof.
  induction l as [|x l IH]; simpl; [now left|].
  right. apply in_map_iff. now exists l.
Qed.

Lemma prefixes_sub (l p : list jsstring) :
  In p (prefixes l) ->
  (length p <= length l)%nat /\ (forall x, In x p -> In x l).
Proof.
  revert p; induction l as [|x l IH]; intros p H; simpl in H.
  - destruct H as [<-|[]]. split; [lia|auto].
  - destruct H as [<-|H]; [split; [simpl; lia|intros y []]|].
    apply in_map_iff in H as [q [<- Hq]]. destruct (IH q Hq) as [Hl Hin].
    split; [simpl; lia|]. intros y [<-|Hy]; [now left|right; auto].
Qed.

Lemma removelast_sub (l : list jsstring) :
  (forall x, In x (removelast l) -> In x l)
  /\ (l <> [] -> length (removelast l) < length l)%nat.
Proof.
  induction l as [|x l [IH1 IH2]]; [split; [intros x []|congruence]|].
  destruct l as [|y l'].
  - split; [intros z []|simpl; lia].
  - split.
    + intros z [<-|Hz]; [now left|right; now apply IH1].
    + intros _. change (removelast (x :: y :: l'))
        with (x :: removelast (y :: l')).
      simpl length. assert (y :: l' <> []) by discriminate.
      specialize (IH2 H). simpl in IH2. lia.
Qed.

Lemma goodSegs_sub (l p : list jsstring) :
  forallb goodSeg l = true -> (forall x, In x p -> In x l) ->
  forallb goodSeg p = true.
Proof.
  rewrite !forallb_forall. auto.
Qed.

Lemma absolute_inj r1 r2 :
  forallb goodSeg r1 = true -> forallb goodSeg r2 = true ->
  slash :: joinSlash r1 = slash :: joinSlash r2 -> r1 = r2.
Proof.
  intros H1 H2 E. rewrite <- (segments_join r1 H1), <- (segments_join r2 H2).
  now rewrite E.
Qed.

Lemma dirname_absolute r :
  forallb goodSeg r = true ->
  dirname (slash :: joinSlash r) = slash :: joinSlash (removelast r).
Proof. intro H. unfold dirname. now rewrite segments_join. Qed.

Lemma ancestorsOf_dirname r :
  forallb goodSeg r = true ->
  ancestorsOf (dirname (slash :: joinSlash r))
  = map (fun p => slash :: joinSlash p) (prefixes (removelast r)).
Proof.
  intro H. rewrite dirname_absolute by exact H. unfold ancestorsOf.
  rewrite segments_join; [reflexivity|].
  apply (goodSegs_sub r); [exact H|apply removelast_sub].
Qed.

Lemma dirname_in_ancestors r :
  forallb goodSeg r = true ->
  In (dirname (slash :: joinSlash r))
     (ancestorsOf (dirname (slash :: joinSlash r))).
Proof.
  intro H. rewrite ancestorsOf_dirname by exact H.
  rewrite dirname_absolute by exact H.
  apply in_map_iff. exists (removelast r). split; [reflexivity|].
  apply prefixes_self.
Qed.

Lemma file_not_in_ancestors r :
  forallb goodSeg r = true -> r <> [] ->
  ~ In (slash :: joinSlash r) (ancestorsOf (dirname (slash :: joinSlash r))).
Proof.
  intros H Hne Hin. rewrite ancestorsOf_dirname in Hin by exact H.
  apply in_map_iff in Hin as [p [Ep Hp]].
  apply prefixes_sub in Hp as [Hlen Hsub].
  destruct (removelast_sub r) as [Hr1 Hr2]. specialize (Hr2 Hne).
  assert (Hgood : forallb goodSeg p = true).
  { apply (goodSegs_sub r); [exact H|]. auto. }
  apply (absolute_inj p r Hgood H) in Ep. subst p. lia.
Qed.

Lemma stringify_object props :
  exists text, JSON_stringify (VObject props) = Some text.
Proof. unfold JSON_stringify. cbn [SerializeJSONProperty]. eauto. Qed.

(** The steps of [saveSnapshot] after the two path checks. *)
Lemma persist_ok (fs : FileSystem) (r : list jsstring) (text : jsstring) :
  forallb goodSeg r = true -> r <> [] ->
  writable fs (slash :: joinSlash r) ->
  exists fs',
    (dirExists <-- existsSync (dirname (slash :: joinSlash r)) ;;;
     (if negb dirExists then mkdirSync (dirname (slash :: joinSlash r))
      else ret tt) ;;;
     writeFileSync (slash :: joinSlash r) text ;;;
     ret (slash :: joinSlash r)) fs
    = (Ok (slash :: joinSlash r), fs')
    /\ Map_get (fs_files fs') (slash :: joinSlash r) = Some (toWellFormed text).
Proof.
  intros Hgood Hne [Hfiles Hdir].
  set (P := slash :: joinSlash r) in *.
  assert (HdirFile : isFile fs (dirname P) = false).
  { rewrite existsb_false_forall in Hfiles. apply Hfiles.
    now apply dirname_in_ancestors. }
  unfold bindIO, existsSync. rewrite HdirFile. cbn [orb].
  destruct (isDirectory fs (dirname P)) eqn:Ed; cbn [negb].
  - unfold ret, writeFileSync. rewrite Hdir, Ed. cbn [negb].
    eexists. split; [reflexivity|]. cbn [fs_files].
    now rewrite Map_get_set, str_eqb_refl.
  - unfold mkdirSync. rewrite Hfiles. unfold writeFileSync, isDirectory.
    cbn [fs_dirs fs_files].
    assert (H1 : Set_has (fold_left Set_add (ancestorsOf (dirname P))
                            (fs_dirs fs)) P = false).
    { apply Set_has_not_In. rewrite Set_fold_In. intros [H|H].
      - apply Set_has_In in H. unfold isDirectory in Hdir. congruence.
      - now apply (file_not_in_ancestors r Hgood Hne). }
    assert (H2 : Set_has (fold_left Set_add (ancestorsOf (dirname P))
                            (fs_dirs fs)) (dirname P) = true).
    { apply Set_has_In. rewrite Set_fold_In. right.
      now apply dirname_in_ancestors. }
    rewrite H1, H2. cbn [negb]. unfold ret.
    eexists. split; [reflexivity|]. cbn [fs_files].
    now rewrite Map_get_set, str_eqb_refl.
Qed.

Lemma saveSnapshot_ok cwd now snap tsConfigPath options fs r resolved :
  validatePath cwd
    (VString (orElse (save_outputPath options) DEFAULT_OUTPUT_PATH))
    (Some (orElse (save_baseDir options) cwd))
  = Ok (slash :: joinSlash r) ->
  validatePath cwd (VString tsConfigPath)
    (Some (orElse (save_baseDir options) cwd)) = Ok resolved ->
  forallb goodSeg r = true -> r <> [] ->
  writable fs (slash :: joinSlash r) ->
  exists fs' text,
    saveSnapshot cwd now snap tsConfigPath options fs
    = (Ok (slash :: joinSlash r), fs')
    /\ JSON_stringify (storedValue (envelope now resolved options snap))
       = Some text
    /\ Map_get (fs_files fs') (slash :: joinSlash r)
       = Some (toWellFormed text).
Proof.
  intros Hout Hcfg Hgood Hne Hw.
  destruct (stringify_object
              [(lit "metadata",
                metadataValue (metadata (envelope now resolved options snap)));
               (lit "snapshot", snapshotValue snap)]) as [text Htext].
  destruct (persist_ok fs r text Hgood Hne Hw) as [fs' [Hrun Hfile]].
  exists fs', text. split; [|split; [exact Htext|exact Hfile]].
  unfold saveSnapshot.
  unfold bindIO at 1. unfold liftResult at 1. rewrite Hout.
  unfold bindIO at 1. unfold liftResult at 1. rewrite Hcfg.
  fold (envelope now resolved options snap).
  unfold storedValue at 1.
  change (snapshot (envelope now resolved options snap)) with snap.
  rewrite Htext. exact Hrun.
Qed.

(** C9 (amended). When [saveSnapshotFromGitRef] is called without an output
    path, the resolution of the ref succeeds and the file system lets the
    file be created, the snapshot is persisted under the ref-derived default
    file name ".flowlock/baseline-{ref}.json" below the working directory,
    in which every character of the ref other than an ASCII letter, a digit,
    a dot or a hyphen has been replaced by an underscore. *)
Theorem saveSnapshotFromGitRef_default_path
    (cwd now : jsstring) (isGitRepository : jsstring -> bool)
    (inWorktree : jsstring -> jsstring -> jsstring -> jsstring -> bool ->
                  Result (ProjectSnapshot * option jsstring))
    (tsConfigPath gitRef : jsstring) (options : SnapshotFromGitOptions)
    (fs : FileSystem) (stored : StoredSnapshot) (resolved : jsstring) :
  let cwd' := orElse (git_cwd options) cwd in
  let target :=
    slash :: joinSlash (baseSegments cwd (Some cwd')
                        ++ [lit ".flowlock"; baselineName gitRef]) in
  let saveOptions :=
    {| save_outputPath :=
         Some (lit ".flowlock/baseline-" ++ sanitizeRef gitRef ++ lit ".json");
       save_baseDir := Some cwd';
       save_gitRef := Some gitRef;
       save_gitSha := gitSha (metadata stored) |} in
  isAbsolute cwd = true ->
  snapshotFromGitRef cwd now isGitRepository inWorktree tsConfigPath gitRef
    options = Ok stored ->
  validatePath cwd (VString (path_resolve cwd [cwd'; tsConfigPath]))
    (Some cwd') = Ok resolved ->
  writable fs target ->
  (exists fs' text,
      saveSnapshotFromGitRef cwd now isGitRepository inWorktree tsConfigPath
        gitRef None options fs = (Ok target, fs')
      /\ JSON_stringify
           (storedValue (envelope now resolved saveOptions (snapshot stored)))
         = Some text
      /\ Map_get (fs_files fs') target = Some (toWellFormed text))
  /\ length (sanitizeRef gitRef) = length gitRef
  /\ (forall i c,
        nth_error gitRef i = Some c ->
        nth_error (sanitizeRef gitRef) i
        = Some (if isRefFileChar c then c else underscore)).
Proof.
  intros cwd' target saveOptions Habs Hstored Hcfg Hw.
  split; [|split; [apply sanitizeRef_length|apply sanitizeRef_nth]].
  assert (Hlen : (length gitRef <= 256)%nat).
  { unfold snapshotFromGitRef, bind in Hstored.
    destruct (validateGitRef (VString gitRef)) as [safeRef|] eqn:E;
      [|discriminate Hstored].
    now apply validateGitRef_length in E as [H _]. }
  pose proof (validatePath_defaultBaseline cwd gitRef (Some cwd') Habs Hlen)
    as Hout.
  assert (Hgood : forallb goodSeg (baseSegments cwd (Some cwd')
                                   ++ [lit ".flowlock"; baselineName gitRef])
                  = true).
  { rewrite forallb_app. destruct (baseOf_segments cwd Habs (Some cwd')) as [-> _].
    simpl. now rewrite baselineName_good. }
  destruct (saveSnapshot_ok cwd now (snapshot stored)
              (path_resolve cwd [cwd'; tsConfigPath]) saveOptions fs
              (baseSegments cwd (Some cwd')
               ++ [lit ".flowlock"; baselineName gitRef]) resolved)
    as [fs' [text [Hrun [Htext Hfile]]]]; try assumption.
  - intro H. apply app_eq_nil in H as [_ H]. discriminate H.
  - exists fs', text. split; [|split; [exact Htext|exact Hfile]].
    unfold saveSnapshotFromGitRef. unfold bindIO at 1. unfold liftResult at 1.
    rewrite Hstored. exact Hrun.
Qed.

Lemma saveSnapshotFromGitRef_default_path_witness :
  exists fs' text,
    saveSnapshotFromGitRef (lit "/repo") sampleTime anyRepository greetWorktree
      (lit "tsconfig.json") (lit "origin/main") None defaultGitOptions emptyFs
    = (Ok (lit "/repo/.flowlock/baseline-origin_main.json"), fs')
    /\ Map_get (fs_files fs') (lit "/repo/.flowlock/baseline-origin_main.json")
       = Some (toWellFormed text).
Proof.
  destruct (saveSnapshotFromGitRef_default_path (lit "/repo") sampleTime
              anyRepository greetWorktree (lit "tsconfig.json")
              (lit "origin/main") defaultGitOptions emptyFs
              {| metadata := {| version := SNAPSHOT_FORMAT_VERSION;
                                createdAt := sampleTime;
                                tsConfigPath := lit "/repo/tsconfig.json";
                                gitRef := Some (lit "origin/main");
                                gitSha := Some (lit "abc1234") |};
                 snapshot := {| symbols := greetRegistry |} |}
              (lit "/repo/tsconfig.json"))
    as [[fs' [text [Hrun [_ Hfile]]]] _].
  - reflexivity.
  - vm_compute. reflexivity.
  - vm_compute. reflexivity.
  - split; vm_compute; reflexivity.
  - exists fs', text. split; [exact Hrun|exact Hfile].
Defined.

(** ** JSON: induction on values *)

Lemma JsValue_nested_ind (P : JsValue -> Prop) :
  P VUndefined -> P VNull -> (forall b, P (VBoolean b)) ->
  (forall n, P (VNumber n)) -> (forall s, P (VString s)) ->
  (forall items, Forall P items -> P (VArray items)) ->
  (forall props, Forall (fun kv => P (snd kv)) props -> P (VObject props)) ->
  forall v, P v.
Proof.
  intros Hu Hn Hb Hnum Hs Ha Ho.
  fix IH 1. intros [| |b|n|s|items|props].
  - exact Hu.
  - exact Hn.
  - apply Hb.
  - apply Hnum.
  - apply Hs.
  - apply Ha. induction items as [|x items IHitems]; constructor.
    + apply IH.
    + exact IHitems.
  - apply Ho. induction props as [|[k x] props IHprops]; constructor.
    + apply IH.
    + exact IHprops.
Qed.

(** ** JSON: strings *)

Lemma hexValue_hexDigit d : (d < 16)%N -> hexValue (hexDigit d) = Some d.
Proof.
  intro H. unfold hexDigit, hexValue.
  destruct (N.ltb d 10) eqn:E.
  - apply N.ltb_lt in E.
    assert (H1 : ((48 <=? 48 + d) && (48 + d <=? 57))%N = true)
      by (apply andb_true_iff; split; apply N.leb_le; lia).
    rewrite H1. f_equal. lia.
  - apply N.ltb_ge in E.
    assert (H1 : ((48 <=? 87 + d) && (87 + d <=? 57))%N = false)
      by (apply andb_false_iff; right; apply N.leb_gt; lia).
    assert (H2 : ((97 <=? 87 + d) && (87 + d <=? 102))%N = true)
      by (apply andb_true_iff; split; apply N.leb_le; lia).
    rewrite H1, H2. f_equal. lia.
Qed.

Lemma hex_digits_sum c :
  (c < 65536)%N ->
  ((c / 4096) mod 16 * 4096 + (c / 256) mod 16 * 256
   + (c / 16) mod 16 * 16 + c mod 16 = c)%N.
Proof.
  intro H. zify. Z.to_euclidean_division_equations. lia.
Qed.

Lemma hex4_roundtrip c :
  (c < 65536)%N ->
  hex4Value (hexDigit ((c / 4096) mod 16)) (hexDigit ((c / 256) mod 16))
    (hexDigit ((c / 16) mod 16)) (hexDigit (c mod 16)) = Some c.
Proof.
  intro H. unfold hex4Value.
  rewrite !hexValue_hexDigit by (apply N.mod_lt; discriminate).
  f_equal. now apply hex_digits_sum.
Qed.

Lemma parse_unicodeEscape c x :
  (c < 65536)%N ->
  parseStringBody (unicodeEscape c ++ x) = consParsed c (parseStringBody x).
Proof.
  intro H. unfold unicodeEscape. cbn [app parseStringBody].
  change (N.eqb 92 34) with false. change (N.eqb 92 92) with true.
  change (N.eqb 117 117) with true. cbv iota.
  rewrite (hex4_roundtrip c H). reflexivity.
Qed.

Lemma parse_raw c x :
  N.eqb c 34 = false -> N.eqb c 92 = false -> N.ltb c 32 = false ->
  parseStringBody (c :: x) = consParsed c (parseStringBody x).
Proof.
  intros H1 H2 H3. cbn [parseStringBody]. now rewrite H1, H2, H3.
Qed.

Lemma surrogate_raw c :
  isLeadingSurrogate c = true \/ isTrailingSurrogate c = true ->
  N.eqb c 34 = false /\ N.eqb c 92 = false /\ N.ltb c 32 = false
  /\ (c < 65536)%N.
Proof.
  unfold isLeadingSurrogate, isTrailingSurrogate.
  rewrite !andb_true_iff, !N.leb_le. intro H.
  rewrite !N.eqb_neq, N.ltb_ge. lia.
Qed.

Lemma parse_escapeChar c x :
  parseStringBody (escapeChar c ++ x) = consParsed c (parseStringBody x).
Proof.
  unfold escapeChar.
  destruct (N.eqb c 8) eqn:E8; [apply N.eqb_eq in E8; now subst|].
  destruct (N.eqb c 9) eqn:E9; [apply N.eqb_eq in E9; now subst|].
  destruct (N.eqb c 10) eqn:E10; [apply N.eqb_eq in E10; now subst|].
  destruct (N.eqb c 12) eqn:E12; [apply N.eqb_eq in E12; now subst|].
  destruct (N.eqb c 13) eqn:E13; [apply N.eqb_eq in E13; now subst|].
  destruct (N.eqb c 34) eqn:E34; [apply N.eqb_eq in E34; now subst|].
  destruct (N.eqb c 92) eqn:E92; [apply N.eqb_eq in E92; now subst|].
  destruct (N.ltb c 32) eqn:E32.
  - apply parse_unicodeEscape. apply N.ltb_lt in E32. lia.
  - now apply parse_raw.
Qed.

Lemma parse_quoteBody_bounded n :
  forall s, (length s <= n)%nat ->
  forall rest, parseStringBody (quoteBody s ++ 34%N :: rest) = Some (s, rest).
Proof.
  induction n as [|n IH]; intros s Hlen rest.
  - destruct s; [reflexivity|simpl in Hlen; lia].
  - destruct s as [|c r]; [reflexivity|]. simpl in Hlen.
    cbn [quoteBody].
    destruct (isLeadingSurrogate c) eqn:El.
    + destruct (surrogate_raw c (or_introl El)) as (H1 & H2 & H3 & H4).
      destruct r as [|d r'].
      * rewrite parse_unicodeEscape by exact H4. reflexivity.
      * destruct (isTrailingSurrogate d) eqn:Et.
        -- destruct (surrogate_raw d (or_intror Et)) as (D1 & D2 & D3 & _).
           cbn [app]. rewrite (parse_raw c _ H1 H2 H3).
           rewrite (parse_raw d _ D1 D2 D3).
           rewrite IH by (simpl in Hlen; lia). reflexivity.
        -- rewrite <- app_assoc, parse_unicodeEscape by exact H4.
           rewrite IH by (simpl in *; lia). reflexivity.
    + destruct (isTrailingSurrogate c) eqn:Et.
      * destruct (surrogate_raw c (or_intror Et)) as (_ & _ & _ & H4).
        rewrite <- app_assoc, parse_unicodeEscape by exact H4.
        rewrite IH by lia. reflexivity.
      * rewrite <- app_assoc, parse_escapeChar.
        rewrite IH by lia. reflexivity.
Qed.

(** A quoted string is read back as the string. *)
Lemma parse_quoted s rest :
  parseStringBody (quoteBody s ++ 34%N :: rest) = Some (s, rest).
Proof. apply (parse_quoteBody_bounded (length s)). lia. Qed.

(** ** JSON: numbers *)

Lemma digitOf_other c u : isDigit c = false -> digitOf c u = None.
Proof.
  unfold isDigit, digitOf. intro H.
  apply andb_false_iff in H. rewrite !N.leb_gt in H.
  repeat match goal with
         | |- context [N.eqb c ?k] =>
             let E := fresh "E" in
             destruct (N.eqb c k) eqn:E; [apply N.eqb_eq in E; lia|]
         end.
  reflexivity.
Qed.

Lemma readDigits_other c r : isDigit c = false -> readDigits (c :: r) = (Decimal.Nil, c :: r).
Proof.
  intro H. cbn [readDigits]. destruct (readDigits r) as [u rest].
  now rewrite digitOf_other.
Qed.

Lemma readDigits_digits u rest :
  (match rest with [] => True | c :: _ => isDigit c = false end) ->
  readDigits (digitsOf u ++ rest) = (u, rest).
Proof.
  intro Hrest.
  induction u as [|u IH|u IH|u IH|u IH|u IH|u IH|u IH|u IH|u IH|u IH];
    cbn [digitsOf app readDigits]; try (rewrite IH; reflexivity).
  destruct rest as [|c r]; [reflexivity|]. now apply readDigits_other.
Qed.

Lemma digitsOf_head u :
  u <> Decimal.Nil ->
  exists c r, digitsOf u = c :: r /\ isDigit c = true.
Proof.
  destruct u; [congruence| | | | | | | | | |]; intros _;
    eexists; eexists; (split; [reflexivity|reflexivity]).
Qed.

Lemma unorm_not_Nil u : Decimal.unorm u <> Decimal.Nil.
Proof. unfold Decimal.unorm. destruct (Decimal.nzhead u); discriminate. Qed.

Lemma to_uint_normal m : Decimal.unorm (N.to_uint m) = N.to_uint m.
Proof.
  rewrite <- (DecimalN.Unsigned.of_to m) at 2.
  now rewrite DecimalN.Unsigned.to_of.
Qed.

Lemma to_uint_not_Nil m : N.to_uint m <> Decimal.Nil.
Proof. rewrite <- to_uint_normal. apply unorm_not_Nil. Qed.

Lemma uint_eqb_refl u : uint_eqb u u = true.
Proof. unfold uint_eqb. destruct (Decimal.uint_eq_dec u u); congruence. Qed.

Lemma uint_eqb_neq u v : u <> v -> uint_eqb u v = false.
Proof. unfold uint_eqb. destruct (Decimal.uint_eq_dec u v); congruence. Qed.

Lemma endsValue_not_digit rest :
  endsValue rest ->
  match rest with [] => True | c :: _ => isDigit c = false end.
Proof.
  destruct rest as [|c r]; [auto|]. unfold endsValue, newline.
  intros [->| ->]; reflexivity.
Qed.

Lemma parseDigits_digits m rest :
  (m <= MAX_SAFE)%N -> endsValue rest ->
  parseDigits (digitsOf (N.to_uint m) ++ rest) = Some (m, rest).
Proof.
  intros Hm Hrest. unfold parseDigits.
  rewrite readDigits_digits by now apply endsValue_not_digit.
  rewrite (uint_eqb_neq _ _ (to_uint_not_Nil m)).
  rewrite to_uint_normal, uint_eqb_refl. cbn [negb].
  rewrite DecimalN.Unsigned.of_to.
  assert (Hmax : (MAX_SAFE <? m)%N = false) by now apply N.ltb_ge.
  rewrite Hmax.
  destruct rest as [|c r]; [reflexivity|].
  unfold endsValue, newline in Hrest. destruct Hrest as [->| ->]; reflexivity.
Qed.

Lemma digit_not_minus c : isDigit c = true -> N.eqb c 45 = false.
Proof.
  unfold isDigit. rewrite andb_true_iff, !N.leb_le, N.eqb_neq. lia.
Qed.

(** The decimal text of an integer is read back as the integer. *)
Lemma parseNumber_toString n rest :
  (Z.abs n <= Z.of_N MAX_SAFE)%Z -> endsValue rest ->
  parseNumber (Number_toString n ++ rest) = Some (n, rest).
Proof.
  intros Hn Hrest. unfold Number_toString.
  destruct (n <? 0)%Z eqn:E.
  - apply Z.ltb_lt in E. cbn [app parseNumber].
    change (N.eqb 45 45) with true. cbv iota.
    rewrite parseDigits_digits; [|lia|exact Hrest].
    f_equal. f_equal. lia.
  - apply Z.ltb_ge in E.
    destruct (digitsOf_head _ (to_uint_not_Nil (Z.to_N n)))
      as [c [r [Hd Hc]]].
    pose proof (parseDigits_digits (Z.to_N n) rest) as Hp.
    rewrite Hd in *. cbn [app parseNumber] in *.
    rewrite (digit_not_minus c Hc), Hp; [|lia|exact Hrest].
    f_equal. f_equal. lia.
Qed.

(** ** JSON: values *)

Lemma skipWs_indent depth x : skipWs (indentOf depth ++ x) = skipWs x.
Proof.
  unfold indentOf. induction (2 * depth)%nat as [|n IH]; [reflexivity|].
  exact IH.
Qed.

Lemma skipWs_line depth x : skipWs (newline :: indentOf depth ++ x) = skipWs x.
Proof. cbn [skipWs]. change (isJsonWs newline) with true. apply skipWs_indent. Qed.

Lemma startsValue_facts c :
  startsValue c = true ->
  isJsonWs c = false /\ N.eqb c 93 = false /\ N.eqb c 125 = false.
Proof.
  unfold startsValue, isDigit, isJsonWs.
  rewrite !orb_true_iff, andb_true_iff, !N.eqb_eq, !N.leb_le. intro H.
  rewrite !orb_false_iff, !N.eqb_neq. lia.
Qed.

Lemma skipWs_value c x : startsValue c = true -> skipWs (c :: x) = c :: x.
Proof.
  intro H. cbn [skipWs]. now destruct (startsValue_facts c H) as [-> _].
Qed.

Lemma parseValue_skip fuel s s' :
  skipWs s = skipWs s' -> parseValue fuel s = parseValue fuel s'.
Proof. intro H. destruct fuel; [reflexivity|]. cbn [parseValue]. now rewrite H. Qed.

Lemma parseMembers_skip fuel s s' :
  skipWs s = skipWs s' -> parseMembers fuel s = parseMembers fuel s'.
Proof. intro H. destruct fuel; [reflexivity|]. cbn [parseMembers]. now rewrite H. Qed.

Lemma parseElements_skip fuel s s' :
  skipWs s = skipWs s' -> parseElements fuel s = parseElements fuel s'.
Proof.
  intro H. destruct fuel; [reflexivity|]. cbn [parseElements].
  now rewrite (parseValue_skip fuel s s' H).
Qed.

Lemma wrapEntries_app opening closing depth p ps rest :
  wrapEntries opening closing depth (p :: ps) ++ rest
  = opening :: newline :: indentOf (S depth)
    ++ joinWith (entrySeparator depth) (p :: ps)
    ++ newline :: indentOf depth ++ closing :: rest.
Proof.
  unfold wrapEntries, entrySeparator. cbn [app].
  do 2 f_equal. rewrite <- !app_assoc. do 2 f_equal.
  cbn [app]. f_equal. now rewrite <- app_assoc.
Qed.

Lemma joinWith_cons sep p q qs :
  joinWith sep (p :: q :: qs) = p ++ sep ++ joinWith sep (q :: qs).
Proof. reflexivity. Qed.

Lemma number_start n :
  exists c t, Number_toString n = c :: t /\ startsValue c = true
              /\ (N.eqb c 45 = true \/ isDigit c = true).
Proof.
  unfold Number_toString. destruct (n <? 0)%Z.
  - eexists; eexists. split; [reflexivity|]. split; [reflexivity|now left].
  - destruct (digitsOf_head _ (to_uint_not_Nil (Z.to_N n))) as [c [r [-> Hc]]].
    exists c, r. split; [reflexivity|]. split; [|now right].
    unfold startsValue. rewrite Hc. apply orb_true_r.
Qed.

Lemma parseValue_number fuel c x :
  N.eqb c 45 = true \/ isDigit c = true ->
  parseValue (S fuel) (c :: x)
  = match parseNumber (c :: x) with
    | Some (n, rest) => Some (VNumber n, rest)
    | None => None
    end.
Proof.
  intro H.
  assert (Hc : (c = 45 \/ 48 <= c <= 57)%N).
  { destruct H as [H|H]; [left; now apply N.eqb_eq|right].
    unfold isDigit in H. rewrite andb_true_iff, !N.leb_le in H. exact H. }
  cbn [parseValue skipWs].
  assert (Hws : isJsonWs c = false).
  { unfold isJsonWs. rewrite !orb_false_iff, !N.eqb_neq. lia. }
  rewrite Hws.
  repeat match goal with
         | |- context [if N.eqb c ?k then _ else _] =>
             let E := fresh "E" in
             destruct (N.eqb c k) eqn:E; [apply N.eqb_eq in E; lia|]
         end.
  reflexivity.
Qed.

Lemma readsBack_scalar_null : readsBack VNull.
Proof.
  intros _ depth fuel rest Hfuel _. destruct fuel; [simpl in Hfuel; lia|].
  eexists; eexists. split; [reflexivity|]. split; reflexivity.
Qed.

Lemma readsBack_scalar_boolean b : readsBack (VBoolean b).
Proof.
  intros _ depth fuel rest Hfuel _. destruct fuel; [simpl in Hfuel; lia|].
  destruct b; (eexists; eexists; split; [reflexivity|]; split; reflexivity).
Qed.

Lemma readsBack_scalar_string s : readsBack (VString s).
Proof.
  intros _ depth fuel rest Hfuel _. destruct fuel; [simpl in Hfuel; lia|].
  exists 34%N, (quoteBody s ++ [34%N]). split; [reflexivity|].
  split; [reflexivity|].
  rewrite <- app_assoc. cbn [app].
  change (parseValue (S fuel) (34%N :: quoteBody s ++ 34%N :: rest))
    with (match parseStringBody (quoteBody s ++ 34%N :: rest) with
          | Some (str, rest') => Some (VString str, rest')
          | None => None
          end).
  now rewrite parse_quoted.
Qed.

Lemma readsBack_scalar_number n : readsBack (VNumber n).
Proof.
  intros Hclean depth fuel rest Hfuel Hrest.
  destruct fuel; [simpl in Hfuel; lia|].
  cbn [jsonClean] in Hclean. apply Z.leb_le in Hclean.
  destruct (number_start n) as [c [t [Ht [Hc Hkind]]]].
  exists c, t. split; [cbn [SerializeJSONProperty]; now rewrite Ht|].
  split; [exact Hc|].
  rewrite (parseValue_number fuel c (t ++ rest) Hkind).
  change (c :: t ++ rest) with ((c :: t) ++ rest). rewrite <- Ht.
  now rewrite parseNumber_toString.
Qed.

Lemma parseValue_array fuel x :
  parseValue (S fuel) (91%N :: x)
  = match skipWs x with
    | c' :: r' =>
        if N.eqb c' 93 then Some (VArray [], r')
        else match parseElements fuel x with
             | Some (vs, rest) => Some (VArray vs, rest)
             | None => None
             end
    | [] => None
    end.
Proof. reflexivity. Qed.

Lemma parseValue_object fuel x :
  parseValue (S fuel) (123%N :: x)
  = match skipWs x with
    | c' :: r' =>
        if N.eqb c' 125 then Some (VObject [], r')
        else match parseMembers fuel x with
             | Some (ms, rest) => Some (VObject (Map_new ms), rest)
             | None => None
             end
    | [] => None
    end.
Proof. reflexivity. Qed.

Lemma readsBack_text v depth :
  readsBack v -> jsonClean v = true ->
  exists c t, SerializeJSONProperty depth v = Some (c :: t)
              /\ startsValue c = true.
Proof.
  intros H Hclean.
  destruct (H Hclean depth (jsonSize v) [] (le_n _) I) as [c [t [H1 [H2 _]]]].
  now exists c, t.
Qed.

Lemma closing_line depth closing rest :
  isJsonWs closing = false ->
  skipWs (newline :: indentOf depth ++ closing :: rest) = closing :: rest.
Proof. intro H. rewrite skipWs_line. cbn [skipWs]. now rewrite H. Qed.

(** The elements of a non-empty array, from the line break after the
    bracket to the closing bracket. *)
Lemma parseElements_texts depth items :
  Forall readsBack items -> forallb jsonClean items = true -> items <> [] ->
  forall fuel rest,
    (list_sum (map (fun x => S (jsonSize x)) items) <= fuel)%nat ->
    parseElements fuel
      (newline :: indentOf (S depth)
       ++ joinWith (entrySeparator depth) (elementTexts depth items)
       ++ newline :: indentOf depth ++ 93%N :: rest)
    = Some (items, rest).
Proof.
  induction items as [|v items IH]; [congruence|].
  intros HF Hclean _ fuel rest Hfuel.
  inversion HF as [|? ? Hv HF']; subst.
  cbn [forallb] in Hclean. apply andb_true_iff in Hclean as [Hcv Hci].
  change (list_sum (map (fun x => S (jsonSize x)) (v :: items)))
    with (S (jsonSize v) + list_sum (map (fun x => S (jsonSize x)) items))%nat
    in Hfuel.
  destruct fuel as [|fuel]; [lia|].
  cbn [parseElements]. rewrite (parseValue_skip fuel _ _ (skipWs_line _ _)).
  unfold elementTexts. cbn [map]. fold (elementTexts depth items).
  destruct items as [|w items'].
  - cbn [elementTexts map joinWith].
    destruct (Hv Hcv (S depth) fuel
                (newline :: indentOf depth ++ 93%N :: rest))
      as [c [t [Hser [_ Hparse]]]]; [lia|now right|].
    rewrite Hser. cbn [app]. rewrite Hparse.
    rewrite closing_line by reflexivity. reflexivity.
  - assert (Hne : w :: items' <> []) by discriminate.
    specialize (IH HF' Hci Hne fuel rest).
    destruct (elementTexts depth (w :: items')) as [|q qs] eqn:Eq;
      [discriminate Eq|].
    rewrite joinWith_cons. unfold entrySeparator at 1.
    rewrite <- !app_assoc. cbn [app].
    destruct (Hv Hcv (S depth) fuel
                (44%N :: newline :: indentOf (S depth)
                 ++ joinWith (entrySeparator depth) (q :: qs)
                 ++ newline :: indentOf depth ++ 93%N :: rest))
      as [c [t [Hser [_ Hparse]]]]; [lia|now left|].
    rewrite Hser. cbn [app]. rewrite Hparse. cbn [skipWs].
    change (isJsonWs 44) with false. change (N.eqb 44 44) with true.
    cbv iota. rewrite IH by lia. reflexivity.
Qed.

Lemma readsBack_array items :
  Forall readsBack items -> readsBack (VArray items).
Proof.
  intros HF Hclean depth fuel rest Hfuel Hrest.
  cbn [jsonClean] in Hclean. cbn [jsonSize] in Hfuel.
  destruct fuel as [|fuel]; [lia|].
  destruct items as [|v items'].
  - exists 91%N, [93%N]. repeat split.
  - assert (Hne : v :: items' <> []) by discriminate.
    pose proof (parseElements_texts depth (v :: items') HF Hclean Hne fuel rest)
      as Helems.
    inversion HF as [|? ? Hv _]; subst.
    cbn [forallb] in Hclean. apply andb_true_iff in Hclean as [Hcv _].
    destruct (readsBack_text v (S depth) Hv Hcv) as [c [t [Hser Hc]]].
    destruct (elementTexts depth (v :: items')) as [|p ps] eqn:Ep;
      [discriminate Ep|].
    assert (Hp : p = c :: t).
    { unfold elementTexts in Ep. cbn [map] in Ep. rewrite Hser in Ep.
      now injection Ep as <- _. }
    exists 91%N, (tl (wrapEntries 91 93 depth (p :: ps))).
    split; [cbn [SerializeJSONProperty];
            fold (elementTexts depth (v :: items')); now rewrite Ep|].
    split; [reflexivity|].
    change (91%N :: tl (wrapEntries 91 93 depth (p :: ps)) ++ rest)
      with (wrapEntries 91 93 depth (p :: ps) ++ rest).
    rewrite wrapEntries_app, parseValue_array, skipWs_line.
    assert (Hhead : exists y,
               joinWith (entrySeparator depth) (p :: ps)
               ++ newline :: indentOf depth ++ 93%N :: rest = c :: y).
    { subst p. destruct ps; cbn [joinWith app]; eauto. }
    destruct Hhead as [y Hy]. rewrite Hy, (skipWs_value c y Hc).
    destruct (startsValue_facts c Hc) as (_ & -> & _).
    rewrite <- Hy, Helems by lia. reflexivity.
Qed.

Lemma distinctKeys_NoDup keys : distinctKeys keys = true <-> NoDup keys.
Proof.
  induction keys as [|k keys IH]; simpl.
  - split; [constructor|reflexivity].
  - rewrite andb_true_iff, negb_true_iff, IH. split.
    + intros [Hk Hd]. constructor; [|exact Hd].
      intro Hin. rewrite existsb_false_forall in Hk.
      specialize (Hk k Hin). now rewrite str_eqb_refl in Hk.
    + intro H. inversion H as [|? ? Hk Hd]; subst. split; [|exact Hd].
      apply existsb_false_forall. intros x Hx. apply str_eqb_neq.
      intros ->. contradiction.
Qed.

(** One member, from the quote of its name. *)
Lemma parseMembers_member fuel k x :
  parseMembers (S fuel) (QuoteJSONString k ++ 58%N :: 32%N :: x)
  = match parseValue fuel x with
    | Some (v, r3) =>
        match skipWs r3 with
        | c4 :: r4 =>
            if N.eqb c4 44 then
              match parseMembers fuel r4 with
              | Some (ms, rest) => Some ((k, v) :: ms, rest)
              | None => None
              end
            else if N.eqb c4 125 then Some ([(k, v)], r4)
            else None
        | [] => None
        end
    | None => None
    end.
Proof.
  unfold QuoteJSONString. cbn [app]. rewrite <- app_assoc.
  cbn [app parseMembers skipWs]. change (isJsonWs 34) with false.
  change (N.eqb 34 34) with true. cbv iota.
  rewrite parse_quoted. cbn [skipWs]. change (isJsonWs 58) with false.
  change (N.eqb 58 58) with true. cbv iota.
  now rewrite (parseValue_skip fuel (32%N :: x) x).
Qed.

Lemma memberTexts_cons depth k x props t :
  SerializeJSONProperty (S depth) x = Some t ->
  memberTexts depth ((k, x) :: props)
  = @cons jsstring (QuoteJSONString k ++ 58%N :: 32%N :: t)
      (memberTexts depth props).
Proof.
  intro H. unfold memberTexts. cbn [flat_map]. now rewrite H.
Qed.

(** The members of a non-empty object, from the line break after the brace
    to the closing brace. *)
Lemma parseMembers_texts depth props :
  Forall (fun kv => readsBack (snd kv)) props ->
  forallb (fun kv => jsonClean (snd kv)) props = true -> props <> [] ->
  forall fuel rest,
    (list_sum (map (fun kv => S (jsonSize (snd kv))) props) <= fuel)%nat ->
    parseMembers fuel
      (newline :: indentOf (S depth)
       ++ joinWith (entrySeparator depth) (memberTexts depth props)
       ++ newline :: indentOf depth ++ 125%N :: rest)
    = Some (props, rest).
Proof.
  induction props as [|[k v] props IH]; [congruence|].
  intros HF Hclean _ fuel rest Hfuel.
  inversion HF as [|? ? Hv HF']; subst. cbn [snd] in Hv.
  cbn [forallb snd] in Hclean. apply andb_true_iff in Hclean as [Hcv Hci].
  change (list_sum (map (fun kv => S (jsonSize (snd kv))) ((k, v) :: props)))
    with (S (jsonSize v)
          + list_sum (map (fun kv => S (jsonSize (snd kv))) props))%nat
    in Hfuel.
  destruct fuel as [|fuel]; [lia|].
  rewrite (parseMembers_skip (S fuel) _ _ (skipWs_line _ _)).
  destruct props as [|[k' w] props'].
  - destruct (Hv Hcv (S depth) fuel
                (newline :: indentOf depth ++ 125%N :: rest))
      as [c [t [Hser [_ Hparse]]]]; [lia|now right|].
    rewrite (memberTexts_cons depth k v [] (c :: t) Hser).
    cbn [memberTexts flat_map joinWith].
    rewrite <- app_assoc. cbn [app].
    rewrite parseMembers_member, Hparse.
    rewrite closing_line by reflexivity. reflexivity.
  - assert (Hne : (k', w) :: props' <> []) by discriminate.
    specialize (IH HF' Hci Hne fuel rest).
    destruct (readsBack_text v (S depth) Hv Hcv) as [c [t [Hser _]]].
    rewrite (memberTexts_cons depth k v _ (c :: t) Hser).
    destruct (memberTexts depth ((k', w) :: props')) as [|q qs] eqn:Eq.
    { exfalso. inversion HF' as [|? ? Hw _]; subst. cbn [snd] in Hw.
      cbn [forallb snd] in Hci. apply andb_true_iff in Hci as [Hcw _].
      destruct (readsBack_text w (S depth) Hw Hcw) as [c' [t' [Hser' _]]].
      rewrite (memberTexts_cons depth k' w _ _ Hser') in Eq. discriminate Eq. }
    rewrite joinWith_cons. unfold entrySeparator at 1.
    rewrite <- !app_assoc. cbn [app].
    destruct (Hv Hcv (S depth) fuel
                (44%N :: newline :: indentOf (S depth)
                 ++ joinWith (entrySeparator depth) (q :: qs)
                 ++ newline :: indentOf depth ++ 125%N :: rest))
      as [c2 [t2 [Hser2 [_ Hparse]]]]; [lia|now left|].
    rewrite Hser in Hser2. injection Hser2 as <- <-.
    rewrite parseMembers_member, Hparse. cbn [skipWs].
    change (isJsonWs 44) with false. change (N.eqb 44 44) with true.
    cbv iota. rewrite IH by lia. reflexivity.
Qed.

Lemma readsBack_object props :
  Forall (fun kv => readsBack (snd kv)) props -> readsBack (VObject props).
Proof.
  intros HF Hclean depth fuel rest Hfuel Hrest.
  cbn [jsonClean] in Hclean. apply andb_true_iff in Hclean as [Hkeys Hclean].
  cbn [jsonSize] in Hfuel.
  destruct fuel as [|fuel]; [lia|].
  destruct props as [|[k v] props'].
  - exists 123%N, [125%N]. repeat split.
  - assert (Hne : (k, v) :: props' <> []) by discriminate.
    pose proof (parseMembers_texts depth ((k, v) :: props') HF Hclean Hne
                  fuel rest) as Hmembers.
    inversion HF as [|? ? Hv _]; subst. cbn [snd] in Hv.
    cbn [forallb snd] in Hclean. apply andb_true_iff in Hclean as [Hcv _].
    destruct (readsBack_text v (S depth) Hv Hcv) as [c [t [Hser _]]].
    rewrite (memberTexts_cons depth k v props' (c :: t) Hser) in Hmembers.
    exists 123%N,
      (tl (wrapEntries 123 125 depth
             ((QuoteJSONString k ++ 58%N :: 32%N :: c :: t)
              :: memberTexts depth props'))).
    split.
    { cbn [SerializeJSONProperty].
      fold (memberTexts depth ((k, v) :: props')).
      now rewrite (memberTexts_cons depth k v props' (c :: t) Hser). }
    split; [reflexivity|].
    match goal with
    | |- parseValue _ (_ :: tl (wrapEntries _ _ _ ?parts) ++ _) = _ =>
        change (parseValue (S fuel)
                  (wrapEntries 123 125 depth parts ++ rest)
                = Some (VObject ((k, v) :: props'), rest))
    end.
    rewrite wrapEntries_app, parseValue_object, skipWs_line.
    match goal with
    | |- context [skipWs ?X] =>
        assert (Hhead : exists y, X = 34%N :: y)
    end.
    { unfold QuoteJSONString.
      destruct (memberTexts depth props'); cbn [joinWith app]; eauto. }
    destruct Hhead as [y Hy]. rewrite Hy. cbn [skipWs].
    change (isJsonWs 34) with false. change (N.eqb 34 125) with false.
    cbv iota. rewrite <- Hy, Hmembers by lia.
    rewrite Map_new_distinct by now apply distinctKeys_NoDup.
    reflexivity.
Qed.

(** Every clean value is read back from its text. *)
Lemma readsBack_all v : readsBack v.
Proof.
  induction v using JsValue_nested_ind.
  - intro H. discriminate H.
  - apply readsBack_scalar_null.
  - apply readsBack_scalar_boolean.
  - apply readsBack_scalar_number.
  - apply readsBack_scalar_string.
  - now apply readsBack_array.
  - now apply readsBack_object.
Qed.

(** ** JSON: the text survives the passage through UTF-8 *)

Lemma toWellFormed_scalar c s :
  isScalar c = true -> toWellFormed (c :: s) = c :: toWellFormed s.
Proof.
  unfold isScalar. intro H. apply andb_true_iff in H as [H1 H2].
  apply negb_true_iff in H1, H2. cbn [toWellFormed]. now rewrite H1, H2.
Qed.

Lemma surrogate_not_replacement c :
  isLeadingSurrogate c = true \/ isTrailingSurrogate c = true ->
  c <> 65533%N.
Proof.
  unfold isLeadingSurrogate, isTrailingSurrogate.
  rewrite !andb_true_iff, !N.leb_le. lia.
Qed.

Lemma toWellFormed_app_bounded n :
  forall a, (length a <= n)%nat -> wellFormedText a ->
  forall b, toWellFormed (a ++ b) = a ++ toWellFormed b.
Proof.
  unfold wellFormedText.
  induction n as [|n IH]; intros a Hlen Ha b.
  - destruct a; [reflexivity|simpl in Hlen; lia].
  - destruct a as [|c r]; [reflexivity|]. simpl in Hlen.
    cbn [toWellFormed app] in *.
    destruct (isLeadingSurrogate c) eqn:El.
    + pose proof (surrogate_not_replacement c (or_introl El)) as Hc.
      destruct r as [|d r']; [injection Ha as Ha; congruence|].
      cbn [app]. destruct (isTrailingSurrogate d) eqn:Et.
      * injection Ha as Ha. rewrite IH; [reflexivity|simpl in Hlen; lia|exact Ha].
      * injection Ha as Ha _. congruence.
    + destruct (isTrailingSurrogate c) eqn:Et.
      * pose proof (surrogate_not_replacement c (or_intror Et)) as Hc.
        injection Ha as Ha _. congruence.
      * injection Ha as Ha. rewrite IH; [reflexivity|lia|exact Ha].
Qed.

Lemma wellFormed_app a b :
  wellFormedText a -> wellFormedText b -> wellFormedText (a ++ b).
Proof.
  intros Ha Hb. unfold wellFormedText.
  rewrite (toWellFormed_app_bounded (length a) a (le_n _) Ha). now rewrite Hb.
Qed.

Lemma wellFormed_cons c s :
  isScalar c = true -> wellFormedText s -> wellFormedText (c :: s).
Proof.
  intros Hc Hs. unfold wellFormedText. rewrite toWellFormed_scalar by exact Hc.
  now rewrite Hs.
Qed.

Lemma wellFormed_nil : wellFormedText [].
Proof. reflexivity. Qed.

Lemma wellFormed_scalars s : forallb isScalar s = true -> wellFormedText s.
Proof.
  induction s as [|c s IH]; [reflexivity|]. cbn [forallb]. intro H.
  apply andb_true_iff in H as [Hc Hs]. apply wellFormed_cons; auto.
Qed.

Lemma small_isScalar c : (c < 128)%N -> isScalar c = true.
Proof.
  intro H. unfold isScalar, isLeadingSurrogate, isTrailingSurrogate.
  rewrite andb_true_iff, !negb_true_iff, !andb_false_iff, !N.leb_gt. lia.
Qed.

Lemma hexDigit_small x : (hexDigit (x mod 16) < 128)%N.
Proof.
  assert (H : (x mod 16 < 16)%N) by (apply N.mod_lt; discriminate).
  unfold hexDigit. destruct (N.ltb (x mod 16) 10); lia.
Qed.

Lemma wellFormed_unicodeEscape c : wellFormedText (unicodeEscape c).
Proof.
  unfold unicodeEscape.
  repeat (apply wellFormed_cons;
          [first [reflexivity|apply small_isScalar, hexDigit_small]|]).
  apply wellFormed_nil.
Qed.

Lemma wellFormed_escapeChar c :
  isLeadingSurrogate c = false -> isTrailingSurrogate c = false ->
  wellFormedText (escapeChar c).
Proof.
  intros Hl Ht. unfold escapeChar.
  repeat match goal with
         | |- context [if ?b then _ else _] => destruct b; [reflexivity|]
         end.
  destruct (N.ltb c 32); [apply wellFormed_unicodeEscape|].
  apply wellFormed_cons; [|apply wellFormed_nil].
  unfold isScalar. now rewrite Hl, Ht.
Qed.

Lemma wellFormed_quoteBody_bounded n :
  forall s, (length s <= n)%nat -> wellFormedText (quoteBody s).
Proof.
  induction n as [|n IH]; intros s Hlen.
  - destruct s; [reflexivity|simpl in Hlen; lia].
  - destruct s as [|c r]; [reflexivity|]. simpl in Hlen. cbn [quoteBody].
    destruct (isLeadingSurrogate c) eqn:El.
    + destruct r as [|d r']; [apply wellFormed_unicodeEscape|].
      destruct (isTrailingSurrogate d) eqn:Et.
      * unfold wellFormedText. cbn [toWellFormed]. rewrite El, Et.
        rewrite IH by (simpl in Hlen; lia). reflexivity.
      * apply wellFormed_app; [apply wellFormed_unicodeEscape|].
        apply IH. simpl in *. lia.
    + destruct (isTrailingSurrogate c) eqn:Et.
      * apply wellFormed_app; [apply wellFormed_unicodeEscape|]. apply IH. lia.
      * apply wellFormed_app; [now apply wellFormed_escapeChar|]. apply IH. lia.
Qed.

Lemma wellFormed_quote s : wellFormedText (QuoteJSONString s).
Proof.
  unfold QuoteJSONString. apply wellFormed_cons; [reflexivity|].
  apply wellFormed_app;
    [apply (wellFormed_quoteBody_bounded (length s)); lia|reflexivity].
Qed.

Lemma wellFormed_digits u : wellFormedText (digitsOf u).
Proof.
  induction u; cbn [digitsOf]; try (apply wellFormed_cons; [reflexivity|]);
    auto using wellFormed_nil.
Qed.

Lemma wellFormed_number n : wellFormedText (Number_toString n).
Proof.
  unfold Number_toString. destruct (n <? 0)%Z.
  - apply wellFormed_cons; [reflexivity|apply wellFormed_digits].
  - apply wellFormed_digits.
Qed.

Lemma wellFormed_indent depth : wellFormedText (indentOf depth).
Proof.
  unfold indentOf. induction (2 * depth)%nat as [|n IH]; [reflexivity|].
  apply wellFormed_cons; [reflexivity|exact IH].
Qed.

Lemma wellFormed_joinWith sep parts :
  wellFormedText sep -> Forall wellFormedText parts ->
  wellFormedText (joinWith sep parts).
Proof.
  intros Hsep H. induction H as [|p ps Hp Hps IH]; [reflexivity|].
  destruct ps as [|q qs]; [exact Hp|].
  rewrite joinWith_cons. repeat apply wellFormed_app; assumption.
Qed.

Lemma wellFormed_wrapEntries opening closing depth parts :
  isScalar opening = true -> isScalar closing = true ->
  Forall wellFormedText parts ->
  wellFormedText (wrapEntries opening closing depth parts).
Proof.
  intros Ho Hc Hparts. unfold wrapEntries.
  destruct parts as [|p ps].
  - apply wellFormed_cons; [exact Ho|].
    apply wellFormed_cons; [exact Hc|apply wellFormed_nil].
  - apply wellFormed_cons; [exact Ho|].
    apply wellFormed_cons; [reflexivity|].
    apply wellFormed_app; [apply wellFormed_indent|].
    apply wellFormed_app.
    + apply wellFormed_joinWith; [|exact Hparts].
      apply wellFormed_cons; [reflexivity|].
      apply wellFormed_cons; [reflexivity|apply wellFormed_indent].
    + apply wellFormed_cons; [reflexivity|].
      apply wellFormed_app; [apply wellFormed_indent|].
      apply wellFormed_cons; [exact Hc|apply wellFormed_nil].
Qed.

(** The text that [JSON.stringify] produces holds no lone surrogate. *)
Lemma wellFormed_serialized v :
  forall depth t, SerializeJSONProperty depth v = Some t -> wellFormedText t.
Proof.
  induction v as [| |b|n|s|items IH|props IH] using JsValue_nested_ind;
    intros depth t Ht; cbn [SerializeJSONProperty] in Ht.
  - discriminate Ht.
  - injection Ht as <-. reflexivity.
  - destruct b; injection Ht as <-; reflexivity.
  - injection Ht as <-. apply wellFormed_number.
  - injection Ht as <-. apply wellFormed_quote.
  - injection Ht as <-.
    apply wellFormed_wrapEntries; [reflexivity|reflexivity|].
    induction IH as [|x items Hx _ IHitems]; cbn [map]; constructor.
    + destruct (SerializeJSONProperty (S depth) x) as [tx|] eqn:Ex;
        [now apply (Hx (S depth))|reflexivity].
    + exact IHitems.
  - injection Ht as <-.
    apply wellFormed_wrapEntries; [reflexivity|reflexivity|].
    induction IH as [|[k x] props Hx _ IHprops]; cbn [flat_map];
      [constructor|].
    cbn [snd] in Hx.
    destruct (SerializeJSONProperty (S depth) x) as [tx|] eqn:Ex; cbn [app].
    + constructor; [|exact IHprops].
      change (wellFormedText (QuoteJSONString k ++ 58%N :: 32%N :: tx)).
      apply wellFormed_app; [apply wellFormed_quote|].
      apply wellFormed_cons; [reflexivity|].
      apply wellFormed_cons; [reflexivity|]. now apply (Hx (S depth)).
    + exact IHprops.
Qed.

(** ** JSON: the fuel of [JSON.parse] suffices *)

Lemma joinWith_length_ge sep parts sizes :
  (2 <= length sep)%nat ->
  Forall2 (fun (p : jsstring) n => (n <= length p + 2)%nat) parts sizes ->
  parts <> [] ->
  (list_sum sizes <= length (joinWith sep parts) + 2)%nat.
Proof.
  intros Hsep HF. induction HF as [|p n ps ns Hpn HF IH]; [congruence|].
  intros _. destruct ps as [|q qs].
  - inversion HF; subst. simpl. lia.
  - rewrite joinWith_cons, !length_app.
    change (list_sum (n :: ns)) with (n + list_sum ns)%nat.
    assert (Hne : q :: qs <> []) by discriminate.
    specialize (IH Hne). lia.
Qed.

Lemma wrapEntries_length opening closing depth parts :
  parts <> [] ->
  (length (joinWith (entrySeparator depth) parts) + 4
   <= length (wrapEntries opening closing depth parts))%nat.
Proof.
  destruct parts as [|p ps]; [congruence|]. intros _.
  unfold wrapEntries. fold (entrySeparator depth).
  cbn [length]. rewrite !length_app. cbn [length]. rewrite length_app.
  cbn [length]. lia.
Qed.

Lemma entrySeparator_length depth : (2 <= length (entrySeparator depth))%nat.
Proof. unfold entrySeparator. cbn [length]. lia. Qed.

Lemma le_through (a b c : nat) : (a <= b + 2 -> b + 4 <= c -> a <= c)%nat.
Proof. lia. Qed.

Lemma serialize_None depth v :
  SerializeJSONProperty depth v = None -> v = VUndefined.
Proof. destruct v as [| |[|]| | | |]; cbn; congruence. Qed.

Lemma jsonSize_bound v :
  jsonClean v = true ->
  forall depth t, SerializeJSONProperty depth v = Some t ->
                  (jsonSize v <= S (length t))%nat.
Proof.
  induction v as [| |b|n|s|items IH|props IH] using JsValue_nested_ind;
    intros Hclean depth t Ht; try (cbn [jsonSize]; lia).
  - cbn [SerializeJSONProperty] in Ht. injection Ht as <-.
    cbn [jsonClean] in Hclean. cbn [jsonSize]. apply le_n_S.
    destruct items as [|v items']; [simpl; lia|].
    fold (elementTexts depth (v :: items')).
    assert (HF : Forall2 (fun (p : jsstring) n => (n <= length p + 2)%nat)
                   (elementTexts depth (v :: items'))
                   (map (fun x => S (jsonSize x)) (v :: items'))).
    { clear -IH Hclean. induction IH as [|x xs Hx _ IHxs]; [constructor|].
      cbn [forallb] in Hclean. apply andb_true_iff in Hclean as [Hcx Hcs].
      unfold elementTexts. cbn [map]. constructor; [|now apply IHxs].
      destruct (SerializeJSONProperty (S depth) x) as [tx|] eqn:Ex.
      - specialize (Hx Hcx (S depth) tx Ex). lia.
      - apply serialize_None in Ex. subst x. discriminate Hcx. }
    pose proof (joinWith_length_ge (entrySeparator depth) _ _
                  (entrySeparator_length depth) HF) as Hjoin.
    pose proof (wrapEntries_length 91 93 depth
                  (elementTexts depth (v :: items'))) as Hwrap.
    assert (Hne : elementTexts depth (v :: items') <> [])
      by (unfold elementTexts; cbn [map]; discriminate).
    specialize (Hjoin Hne). specialize (Hwrap Hne).
    exact (le_through _ _ _ Hjoin Hwrap).
  - cbn [SerializeJSONProperty] in Ht. injection Ht as <-.
    cbn [jsonClean] in Hclean. apply andb_true_iff in Hclean as [_ Hclean].
    cbn [jsonSize]. apply le_n_S.
    destruct props as [|[k v] props']; [simpl; lia|].
    fold (memberTexts depth ((k, v) :: props')).
    assert (HF : Forall2 (fun (p : jsstring) n => (n <= length p + 2)%nat)
                   (memberTexts depth ((k, v) :: props'))
                   (map (fun kv => S (jsonSize (snd kv))) ((k, v) :: props'))).
    { clear -IH Hclean.
      induction IH as [|[k' x] xs Hx _ IHxs]; [constructor|].
      cbn [forallb snd] in Hclean. apply andb_true_iff in Hclean as [Hcx Hcs].
      cbn [snd] in Hx.
      destruct (SerializeJSONProperty (S depth) x) as [tx|] eqn:Ex.
      - rewrite (memberTexts_cons depth k' x xs tx Ex). cbn [map snd].
        constructor; [|now apply IHxs].
        specialize (Hx Hcx (S depth) tx Ex). rewrite length_app.
        cbn [length]. lia.
      - apply serialize_None in Ex. subst x. discriminate Hcx. }
    pose proof (joinWith_length_ge (entrySeparator depth) _ _
                  (entrySeparator_length depth) HF) as Hjoin.
    pose proof (wrapEntries_length 123 125 depth
                  (memberTexts depth ((k, v) :: props'))) as Hwrap.
    assert (Hne : memberTexts depth ((k, v) :: props') <> []).
    { intro E. rewrite E in HF. inversion HF. }
    specialize (Hjoin Hne). specialize (Hwrap Hne).
    exact (le_through _ _ _ Hjoin Hwrap).
Qed.

(** [JSON.parse(JSON.stringify(v, null, 2))] is [v] for a clean value. *)
Lemma JSON_parse_stringify v text :
  jsonClean v = true -> JSON_stringify v = Some text ->
  JSON_parse text = Some v.
Proof.
  intros Hclean Htext. unfold JSON_stringify in Htext.
  pose proof (jsonSize_bound v Hclean 0 text Htext) as Hsize.
  destruct (readsBack_all v Hclean 0 (S (length text)) [] Hsize I)
    as [c [t [Hser [_ Hparse]]]].
  rewrite Htext in Hser. injection Hser as ->.
  unfold JSON_parse. rewrite app_nil_r in Hparse.
  change (c :: t ++ []) with ((c :: t) ++ []) in Hparse.
  now rewrite Hparse.
Qed.

(** ** Saving, then loading *)

Lemma memberTexts_defined depth props :
  memberTexts depth (definedProps props) = memberTexts depth props.
Proof.
  induction props as [|[k x] props IH]; [reflexivity|].
  unfold definedProps. cbn [filter snd]. fold (definedProps props).
  destruct x; cbn [isUndefined negb];
    try (unfold memberTexts in *; cbn [flat_map]; now rewrite IH).
Qed.

Lemma serialize_defined depth props :
  SerializeJSONProperty depth (VObject (definedProps props))
  = SerializeJSONProperty depth (VObject props).
Proof.
  cbn [SerializeJSONProperty]. fold (memberTexts depth (definedProps props)).
  fold (memberTexts depth props). now rewrite memberTexts_defined.
Qed.

Lemma stringify_written s :
  JSON_stringify (writtenValue s) = JSON_stringify (storedValue s).
Proof.
  unfold JSON_stringify, writtenValue, storedValue, metadataValue.
  cbn [SerializeJSONProperty flat_map].
  change (flat_map _ (definedProps ?p)) with (memberTexts 1 (definedProps p)).
  rewrite memberTexts_defined. reflexivity.
Qed.

Lemma forallb_map_true A B (f : A -> B) (g : B -> bool) l :
  (forall x, g (f x) = true) -> forallb g (map f l) = true.
Proof.
  intro H. induction l as [|x l IH]; [reflexivity|]. cbn [map forallb].
  now rewrite H, IH.
Qed.

Lemma parameterValue_clean p : jsonClean (parameterValue p) = true.
Proof. reflexivity. Qed.

Lemma functionValue_clean f : jsonClean (functionValue f) = true.
Proof.
  unfold functionValue. cbn [jsonClean map fst snd forallb].
  rewrite (forallb_map_true _ _ parameterValue jsonClean _ parameterValue_clean).
  reflexivity.
Qed.

Lemma propertyValue_clean p : jsonClean (propertyValue p) = true.
Proof. reflexivity. Qed.

Lemma interfaceValue_clean i : jsonClean (interfaceValue i) = true.
Proof.
  unfold interfaceValue. cbn [jsonClean map fst snd forallb].
  rewrite (forallb_map_true _ _ propertyValue jsonClean _ propertyValue_clean).
  reflexivity.
Qed.

Lemma typeAliasValue_clean t : jsonClean (typeAliasValue t) = true.
Proof. reflexivity. Qed.

Lemma recordValue_clean V (f : V -> JsValue) (o : JsRecord V) :
  (forall x, jsonClean (f x) = true) -> NoDup (Object_keys o) ->
  jsonClean (recordValue f o) = true.
Proof.
  intros Hf Hnd. unfold recordValue. cbn [jsonClean].
  rewrite map_map. cbn [fst]. apply andb_true_iff. split.
  - now apply distinctKeys_NoDup.
  - induction o as [|e o IH]; [reflexivity|]. cbn [map forallb snd].
    rewrite Hf. apply IH. now inversion Hnd.
Qed.

Lemma snapshotValue_clean s :
  wellFormedSnapshot s -> jsonClean (snapshotValue s) = true.
Proof.
  intros (Hf & Hi & Ht). unfold snapshotValue, registryValue.
  cbn [jsonClean map fst snd forallb].
  rewrite (recordValue_clean _ functionValue _ functionValue_clean Hf).
  rewrite (recordValue_clean _ interfaceValue _ interfaceValue_clean Hi).
  rewrite (recordValue_clean _ typeAliasValue _ typeAliasValue_clean Ht).
  reflexivity.
Qed.

Lemma writtenValue_clean s :
  version (metadata s) = SNAPSHOT_FORMAT_VERSION ->
  wellFormedSnapshot (snapshot s) ->
  jsonClean (writtenValue s) = true.
Proof.
  intros Hv Hs. unfold writtenValue.
  cbn [jsonClean map fst snd forallb].
  rewrite (snapshotValue_clean _ Hs), Hv.
  destruct (gitRef (metadata s)), (gitSha (metadata s)); reflexivity.
Qed.

Lemma writtenValue_shape s :
  version (metadata s) = SNAPSHOT_FORMAT_VERSION ->
  isStoredSnapshot (writtenValue s) = true
  /\ getProp (getProp (writtenValue s) (lit "metadata")) (lit "version")
     = VNumber SNAPSHOT_FORMAT_VERSION
  /\ getProp (writtenValue s) (lit "snapshot") = snapshotValue (snapshot s)
  /\ getProp (getProp (writtenValue s) (lit "metadata")) (lit "gitRef")
     = optionalString (gitRef (metadata s))
  /\ getProp (getProp (writtenValue s) (lit "metadata")) (lit "gitSha")
     = optionalString (gitSha (metadata s)).
Proof.
  intro Hv. unfold writtenValue. rewrite Hv.
  destruct (gitRef (metadata s)), (gitSha (metadata s)); repeat split.
Qed.

(** What a successful [saveSnapshot] has done. *)
Lemma saveSnapshot_inv cwd now snap tsConfigPath options fs path fs' :
  saveSnapshot cwd now snap tsConfigPath options fs = (Ok path, fs') ->
  exists resolved text,
    validatePath cwd
      (VString (orElse (save_outputPath options) DEFAULT_OUTPUT_PATH))
      (Some (orElse (save_baseDir options) cwd)) = Ok path
    /\ validatePath cwd (VString tsConfigPath)
         (Some (orElse (save_baseDir options) cwd)) = Ok resolved
    /\ JSON_stringify (storedValue (envelope now resolved options snap))
       = Some text
    /\ Map_get (fs_files fs') path = Some (toWellFormed text).
Proof.
  unfold saveSnapshot, bindIO, liftResult. intro H.
  destruct (validatePath cwd (VString (orElse _ _)) _) as [out|] eqn:Eout;
    [|discriminate H].
  destruct (validatePath cwd (VString tsConfigPath) _) as [resolved|] eqn:Ecfg;
    [|discriminate H].
  fold (envelope now resolved options snap) in H.
  destruct (JSON_stringify (storedValue (envelope now resolved options snap)))
    as [text|] eqn:Etext.
  - exists resolved, text.
    unfold existsSync in H.
    destruct ((if negb (isFile fs (dirname out) || isDirectory fs (dirname out))
               then mkdirSync (dirname out) else ret tt) fs)
      as [[u|e] fs1] eqn:Emk; [|discriminate H].
    unfold writeFileSync, ret in H.
    destruct (isDirectory fs1 out); [discriminate H|].
    destruct (negb (isDirectory fs1 (dirname out))); [discriminate H|].
    injection H as <- <-. cbn [fs_files].
    rewrite Map_get_set, str_eqb_refl. auto.
  - unfold existsSync, throw in H.
    destruct ((if negb (isFile fs (dirname out) || isDirectory fs (dirname out))
               then mkdirSync (dirname out) else ret tt) fs)
      as [[u|e] fs1]; discriminate H.
Qed.

(** C5. When [saveSnapshot] has succeeded on a snapshot (whose records are
    objects, that is, without repeated keys), [loadSnapshot] on the same
    path and base directory succeeds, the [snapshot] field of what it
    returns is the value of the snapshot that was saved, and the [gitRef]
    and [gitSha] of its metadata are the ones supplied to [saveSnapshot]
    ([undefined] when none was supplied). *)
Theorem save_load_roundtrip
    (cwd now : jsstring) (syntaxErrorMessage : jsstring -> jsstring)
    (snap : ProjectSnapshot) (tsConfigPath : jsstring)
    (options : SaveSnapshotOptions) (fs fs' : FileSystem) (path : jsstring) :
  wellFormedSnapshot snap ->
  saveSnapshot cwd now snap tsConfigPath options fs = (Ok path, fs') ->
  exists loaded,
    loadSnapshot cwd syntaxErrorMessage
      (orElse (save_outputPath options) DEFAULT_OUTPUT_PATH)
      {| load_baseDir := save_baseDir options |} fs'
    = (Ok loaded, fs')
    /\ getProp loaded (lit "snapshot") = snapshotValue snap
    /\ getProp (getProp loaded (lit "metadata")) (lit "gitRef")
       = optionalString (save_gitRef options)
    /\ getProp (getProp loaded (lit "metadata")) (lit "gitSha")
       = optionalString (save_gitSha options)
    /\ (forall ref, save_gitRef options = Some ref ->
          getProp (getProp loaded (lit "metadata")) (lit "gitRef")
          = VString ref)
    /\ (forall sha, save_gitSha options = Some sha ->
          getProp (getProp loaded (lit "metadata")) (lit "gitSha")
          = VString sha).
Proof.
  intros Hwf Hsave.
  destruct (saveSnapshot_inv _ _ _ _ _ _ _ _ Hsave)
    as (resolved & text & Hout & _ & Htext & Hfile).
  set (stored := envelope now resolved options snap) in *.
  assert (Hversion : version (metadata stored) = SNAPSHOT_FORMAT_VERSION)
    by reflexivity.
  pose proof (wellFormed_serialized _ 0 text Htext) as Hsame.
  unfold wellFormedText in Hsame. rewrite Hsame in Hfile.
  rewrite <- stringify_written in Htext.
  pose proof (JSON_parse_stringify _ _
                (writtenValue_clean stored Hversion Hwf) Htext) as Hparse.
  destruct (writtenValue_shape stored Hversion)
    as (Hshape & Hfound & Hsnap & Href & Hsha).
  exists (writtenValue stored).
  split; [|split; [exact Hsnap|split; [exact Href|split; [exact Hsha|split]]]].
  - unfold loadSnapshot, bindIO, liftResult, existsSync, readFileSync, isFile,
      Map_has. cbn [load_baseDir].
    rewrite Hout, Hfile. cbn [negb orb]. rewrite Hfile, Hparse, Hshape.
    cbn [negb]. rewrite Hfound. reflexivity.
  - intros ref E. rewrite Href. cbn [stored envelope metadata gitRef].
    now rewrite E.
  - intros sha E. rewrite Hsha. cbn [stored envelope metadata gitSha].
    now rewrite E.
Qed.

Lemma save_load_roundtrip_witness :
  exists loaded,
    loadSnapshot (lit "/repo") noMessage (lit "tmp/snapshot.json")
      {| load_baseDir := None |}
      (snd (saveSnapshot (lit "/repo") sampleTime {| symbols := greetRegistry |}
              (lit "tsconfig.json") sampleSaveOptions emptyFs))
    = (Ok loaded,
       snd (saveSnapshot (lit "/repo") sampleTime {| symbols := greetRegistry |}
              (lit "tsconfig.json") sampleSaveOptions emptyFs))
    /\ getProp loaded (lit "snapshot")
       = snapshotValue {| symbols := greetRegistry |}
    /\ getProp (getProp loaded (lit "metadata")) (lit "gitRef")
       = VString (lit "main")
    /\ getProp (getProp loaded (lit "metadata")) (lit "gitSha")
       = VString (lit "abc1234").
Proof.
  destruct (save_load_roundtrip (lit "/repo") sampleTime noMessage
              {| symbols := greetRegistry |} (lit "tsconfig.json")
              sampleSaveOptions emptyFs
              (snd (saveSnapshot (lit "/repo") sampleTime
                      {| symbols := greetRegistry |} (lit "tsconfig.json")
                      sampleSaveOptions emptyFs))
              (lit "/repo/tmp/snapshot.json"))
    as [loaded (Hload & Hsnap & Href & Hsha & _)].
  - repeat split; simpl; repeat constructor; simpl; intuition.
  - vm_compute. reflexivity.
  - exists loaded. repeat split; assumption.
Defined.

(** ** One change at most for every parameter name *)

Lemma filter_all A (f : A -> bool) (l : list A) :
  (forall x, In x l -> f x = true) -> filter f l = l.
Proof.
  induction l as [|x l IH]; simpl; intro H; [reflexivity|].
  rewrite (H x) by now left. f_equal. apply IH. intros y Hy. apply H. now right.
Qed.

Lemma filter_none A (f : A -> bool) (l : list A) :
  (forall x, In x l -> f x = false) -> filter f l = [].
Proof.
  induction l as [|x l IH]; simpl; intro H; [reflexivity|].
  rewrite (H x) by now left. apply IH. intros y Hy. apply H. now right.
Qed.

Lemma filter_about_entries
      (g : jsstring * ParameterSignature -> list SignatureChange)
      (l : JsMap ParameterSignature) n :
  (forall e c, In e l -> In c (g e) -> changeSubject c = Some (fst e)) ->
  NoDup (map fst l) ->
  filter (isAbout n) (flat_map g l)
  = match Map_get l n with Some p => g (n, p) | None => [] end.
Proof.
  induction l as [|[k v] l IH]; intros Hsub Hnd; [reflexivity|].
  inversion Hnd as [|? ? Hk Hnd']; subst.
  cbn [flat_map Map_get]. rewrite filter_app.
  rewrite IH; [|intros e c He; apply Hsub; now right|exact Hnd'].
  destruct (str_eqb k n) eqn:E.
  - apply str_eqb_eq in E. subst k.
    assert (Hn : Map_get l n = None) by now apply Map_get_None_keys.
    rewrite Hn, app_nil_r. apply filter_all. intros c Hc.
    unfold isAbout. rewrite (Hsub (n, v) c (or_introl eq_refl) Hc).
    apply str_eqb_refl.
  - rewrite filter_none; [reflexivity|]. intros c Hc.
    unfold isAbout. rewrite (Hsub (k, v) c (or_introl eq_refl) Hc). exact E.
Qed.

Lemma afterChange_subject before after e c :
  In e (Map_new (paramEntries after)) ->
  In c (afterChange (Map_new (paramEntries before)) e) ->
  changeSubject c = Some (fst e).
Proof.
  intros He Hc.
  destruct (afterChange_shape before after e He) as [E|[c' [E [Hs _]]]];
    rewrite E in Hc; [destruct Hc|].
  destruct Hc as [<-|[]]. exact Hs.
Qed.

Lemma removedChange_subject before after e c :
  In e (Map_new (paramEntries before)) ->
  In c (removedChange (Map_new (paramEntries after)) e) ->
  changeSubject c = Some (fst e).
Proof.
  intros He Hc.
  destruct (removedChange_shape before after e He) as [E|[c' [E [Hs _]]]];
    rewrite E in Hc; [destruct Hc|].
  destruct Hc as [<-|[]]. exact Hs.
Qed.

(** The changes about one parameter name. *)
Lemma compareSignatures_about before after n :
  filter (isAbout n) (compareSignatures before after)
  = match effectiveParam before n, effectiveParam after n with
    | None, None => []
    | None, Some q => [ParameterAdded q (negb (param_optional q))]
    | Some p, None => [ParameterRemoved p true]
    | Some p, Some q =>
        if paramsEqual p q then [] else [ParameterTypeChanged p q true]
    end.
Proof.
  rewrite compareSignatures_groups, !filter_app.
  rewrite (filter_about_entries (afterChange _) _ n);
    [|intros e c; apply afterChange_subject|apply Map_new_NoDup].
  rewrite (filter_about_entries (removedChange _) _ n);
    [|intros e c; apply removedChange_subject|apply Map_new_NoDup].
  assert (Hret : filter (isAbout n) (returnChange before after) = []).
  { unfold returnChange. now destruct (negb _). }
  rewrite Hret, app_nil_r, !paramMap_get.
  unfold afterChange, removedChange. cbn [fst snd].
  rewrite paramMap_get, paramMap_has.
  destruct (effectiveParam before n) as [p|], (effectiveParam after n) as [q|];
    try reflexivity.
  cbn [negb]. rewrite app_nil_r. now destruct (paramsEqual p q).
Qed.

(** X1. A parameter name that only "before" has yields exactly one change
    about that name: a parameter-removed change carrying the parameter of
    "before", marked breaking. *)
Theorem compareSignatures_removed_parameter before after n p :
  effectiveParam before n = Some p ->
  effectiveParam after n = None ->
  filter (isAbout n) (compareSignatures before after)
  = [ParameterRemoved p true].
Proof.
  intros Hb Ha. rewrite compareSignatures_about.
  rewrite Hb, Ha. reflexivity.
Qed.

Lemma compareSignatures_removed_parameter_witness :
  filter (isAbout (lit "b")) (compareSignatures (sigOf [a_string; b_optional])
                                                (sigOf [a_string]))
  = [ParameterRemoved b_optional true].
Proof.
  apply (compareSignatures_removed_parameter _ _ (lit "b") b_optional);
    reflexivity.
Defined.

(** X2. A parameter name that both signatures have yields no change when
    the two parameters agree in optionality and in type up to white space,
    and otherwise exactly one change about that name: a breaking
    parameter-type-changed change carrying both parameters.  A change of
    optionality alone is reported this way. *)
Theorem compareSignatures_changed_parameter before after n p q :
  effectiveParam before n = Some p ->
  effectiveParam after n = Some q ->
  (param_optional p = param_optional q ->
   normalizeForComparison (param_type p) = normalizeForComparison (param_type q) ->
   filter (isAbout n) (compareSignatures before after) = [])
  /\ (param_optional p <> param_optional q
      \/ normalizeForComparison (param_type p)
         <> normalizeForComparison (param_type q) ->
      filter (isAbout n) (compareSignatures before after)
      = [ParameterTypeChanged p q true]).
Proof.
  intros Hb Ha. rewrite compareSignatures_about, Hb, Ha.
  destruct (effectiveParam_name _ _ _ Hb) as [Hp _].
  destruct (effectiveParam_name _ _ _ Ha) as [Hq _].
  split.
  - intros Ho Ht.
    assert (E : paramsEqual p q = true)
      by (apply paramsEqual_spec; repeat split; congruence).
    now rewrite E.
  - intro H. destruct (paramsEqual p q) eqn:E; [|reflexivity].
    apply paramsEqual_spec in E as (_ & Ho & Ht). tauto.
Qed.

Lemma compareSignatures_changed_parameter_witness :
  filter (isAbout (lit "a")) (compareSignatures (sigOf [a_string])
                                                (sigOf [a_optional]))
  = [ParameterTypeChanged a_string a_optional true].
Proof.
  apply (compareSignatures_changed_parameter (sigOf [a_string])
           (sigOf [a_optional]) (lit "a") a_string a_optional);
    [reflexivity|reflexivity|]. left. discriminate.
Defined.

Lemma parameter_changes_not_return before after :
  Forall (fun c => isReturnTypeChanged c = false)
    (flat_map (afterChange (Map_new (paramEntries before)))
              (Map_new (paramEntries after))
     ++ flat_map (removedChange (Map_new (paramEntries after)))
                 (Map_new (paramEntries before))).
Proof.
  apply Forall_app. split; apply Forall_flat_map_shape; intros e He.
  - destruct (afterChange_shape before after e He) as [E|[c [E [_ Hc]]]];
      [now left|right]. exists c. split; [exact E|]. now destruct c.
  - destruct (removedChange_shape before after e He) as [E|[c [E [_ Hc]]]];
      [now left|right]. exists c. split; [exact E|]. now destruct c.
Qed.

(** X3. When the return types differ after normalization, the change list
    ends with one breaking return-type-changed change that carries the two
    return types as they are written, and holds no other change of that
    kind; when they agree after normalization, it holds none. *)
Theorem compareSignatures_return_type before after :
  (normalizeForComparison (fn_returnType before)
   <> normalizeForComparison (fn_returnType after) ->
   exists l,
     compareSignatures before after
     = l ++ [ReturnTypeChanged (fn_returnType before) (fn_returnType after) true]
     /\ Forall (fun c => isReturnTypeChanged c = false) l)
  /\ (normalizeForComparison (fn_returnType before)
      = normalizeForComparison (fn_returnType after) ->
      Forall (fun c => isReturnTypeChanged c = false)
             (compareSignatures before after)).
Proof.
  rewrite compareSignatures_groups, app_assoc.
  pose proof (parameter_changes_not_return before after) as Hl.
  split; intro H.
  - eexists. split; [|exact Hl]. f_equal. unfold returnChange.
    apply str_eqb_neq in H. now rewrite H.
  - rewrite (returnChange_same_type _ _ H), app_nil_r. exact Hl.
Qed.

Lemma compareSignatures_return_type_witness :
  exists l,
    compareSignatures (mkFn (lit "f") [] (lit "string") (lit "/a.ts"))
                      (mkFn (lit "f") [] (lit "number") (lit "/a.ts"))
    = l ++ [ReturnTypeChanged (lit "string") (lit "number") true].
Proof.
  destruct (compareSignatures_return_type
              (mkFn (lit "f") [] (lit "string") (lit "/a.ts"))
              (mkFn (lit "f") [] (lit "number") (lit "/a.ts"))) as [H _].
  destruct H as [l [Hl _]]; [vm_compute; discriminate|].
  exists l. exact Hl.
Defined.

(** X4. The only change that [compareSignatures] reports as not breaking
    is the addition of an optional parameter: every removal, every change
    of a parameter, every change of the return type and every addition of a
    required parameter is marked breaking. *)
Theorem compareSignatures_nonbreaking before after c :
  In c (compareSignatures before after) ->
  (breaking c = false
   <-> exists p, c = ParameterAdded p false /\ param_optional p = true).
Proof.
  rewrite compareSignatures_groups, !in_app_iff, !in_flat_map.
  intros [[e [_ Hc]]|[[e [_ Hc]]|Hc]].
  - unfold afterChange in Hc. destruct (Map_get _ _) as [q|].
    + destruct (negb _); [|destruct Hc]. destruct Hc as [<-|[]]. simpl.
      split; [discriminate|]. intros [p [H _]]. discriminate H.
    + destruct Hc as [<-|[]]. simpl. split.
      * intro H. exists (snd e). apply negb_false_iff in H. rewrite H.
        now split.
      * intros [p [[= <- H] Hp]]. now rewrite Hp.
  - unfold removedChange in Hc. destruct (negb _); [|destruct Hc].
    destruct Hc as [<-|[]]. simpl.
    split; [discriminate|]. intros [p [H _]]. discriminate H.
  - unfold returnChange in Hc. destruct (negb _); [|destruct Hc].
    destruct Hc as [<-|[]]. simpl.
    split; [discriminate|]. intros [p [H _]]. discriminate H.
Qed.

Lemma compareSignatures_nonbreaking_witness :
  breaking (ParameterAdded b_optional false) = false
  <-> exists p, ParameterAdded b_optional false = ParameterAdded p false
                /\ param_optional p = true.
Proof.
  apply (compareSignatures_nonbreaking (sigOf [a_string])
           (sigOf [a_string; b_optional])).
  vm_compute. now left.
Defined.

(** ** Added and removed keys *)

Lemma flat_map_filter A (f : A -> bool) (l : list A) :
  flat_map (fun x => if f x then [x] else []) l = filter f l.
Proof.
  induction l as [|x l IH]; simpl; [reflexivity|].
  rewrite IH. now destruct (f x).
Qed.

Lemma compareSnapshots_added_list before after :
  addedFunctions (compareSnapshots before after)
  = Array_sort
      (filter (fun key =>
                 negb (Set_has (Set_new (Object_keys (functions (symbols before))))
                               key))
              (Set_new (Object_keys (functions (symbols after))))).
Proof.
  unfold compareSnapshots.
  rewrite (fold_left_ext_all _ _ _ _ _ _ (afterKeyStep_push before after _)).
  rewrite fold_left_push_pair. cbn [fst snd app addedFunctions].
  unfold addedOf. now rewrite flat_map_filter.
Qed.

Lemma compareSnapshots_removed_list before after :
  removedFunctions (compareSnapshots before after)
  = Array_sort
      (filter (fun key =>
                 negb (Set_has (Set_new (Object_keys (functions (symbols after))))
                               key))
              (Set_new (Object_keys (functions (symbols before))))).
Proof.
  unfold compareSnapshots. destruct (fold_left _ _ ([], [])) as [a m].
  cbn [removedFunctions].
  rewrite (fold_left_ext_all _ _ _ _ _ _ (beforeKeyStep_push _)), fold_left_push.
  cbn [app]. now rewrite flat_map_filter.
Qed.

(** X5. A key is reported in [addedFunctions] exactly when "after" has a
    function under it and "before" has none. *)
Theorem compareSnapshots_added before after key :
  In key (addedFunctions (compareSnapshots before after))
  <-> In key (Object_keys (functions (symbols after)))
      /\ ~ In key (Object_keys (functions (symbols before))).
Proof.
  rewrite compareSnapshots_added_list, Array_sort_In, filter_In, Set_new_In.
  rewrite negb_true_iff, Set_has_not_In, Set_new_In. reflexivity.
Qed.

(** X6. Exchanging the two snapshots exchanges the two lists of keys: what
    is added from "before" to "after" is what is removed from "after" to
    "before", as the same list. *)
Theorem compareSnapshots_swap before after :
  addedFunctions (compareSnapshots before after)
  = removedFunctions (compareSnapshots after before)
  /\ removedFunctions (compareSnapshots before after)
     = addedFunctions (compareSnapshots after before).
Proof.
  split.
  - rewrite compareSnapshots_added_list, compareSnapshots_removed_list.
    reflexivity.
  - rewrite compareSnapshots_added_list, compareSnapshots_removed_list.
    reflexivity.
Qed.

(** ** The lists of keys are sorted *)

Lemma str_leb_total a b : str_leb a b = false -> str_leb b a = true.
Proof.
  revert b; induction a as [|x a IH]; intros [|y b]; simpl; try easy.
  destruct (N.ltb x y) eqn:Hxy; [discriminate|].
  apply N.ltb_ge in Hxy.
  destruct (N.eqb x y) eqn:Exy.
  - apply N.eqb_eq in Exy. subst y. rewrite N.ltb_irrefl, N.eqb_refl. apply IH.
  - intros _. apply N.eqb_neq in Exy.
    assert (H : N.ltb y x = true) by (apply N.ltb_lt; lia).
    now rewrite H.
Qed.

Lemma sort_insert_ascending x l :
  ascending l = true -> ascending (sort_insert x l) = true.
Proof.
  induction l as [|y l IH]; intro H; [reflexivity|].
  cbn [sort_insert]. destruct (str_leb x y) eqn:E.
  - cbn [ascending]. now rewrite E.
  - apply str_leb_total in E.
    destruct l as [|z l]; [cbn; now rewrite E|].
    cbn [ascending] in H. apply andb_true_iff in H as [Hyz Hl].
    specialize (IH Hl). cbn [sort_insert] in IH |- *.
    destruct (str_leb x z); cbn [ascending] in IH |- *.
    + now rewrite E.
    + now rewrite Hyz.
Qed.

Lemma Array_sort_ascending l : ascending (Array_sort l) = true.
Proof.
  induction l as [|x l IH]; [reflexivity|]. now apply sort_insert_ascending.
Qed.

Lemma sort_insert_Permutation x l : Permutation (x :: l) (sort_insert x l).
Proof.
  induction l as [|y l IH]; simpl; [reflexivity|].
  destruct (str_leb x y); [reflexivity|].
  rewrite perm_swap. now apply perm_skip.
Qed.

Lemma Array_sort_Permutation l : Permutation l (Array_sort l).
Proof.
  induction l as [|x l IH]; simpl; [reflexivity|].
  rewrite <- sort_insert_Permutation. now apply perm_skip.
Qed.

Lemma Set_add_NoDup s k : NoDup s -> NoDup (Set_add s k).
Proof.
  intro H. unfold Set_add. destruct (Set_has s k) eqn:E; [exact H|].
  apply Set_has_not_In in E.
  apply NoDup_app; [exact H|repeat constructor; easy|].
  intros x Hx [<-|[]]. contradiction.
Qed.

Lemma Set_new_NoDup l : NoDup (Set_new l).
Proof.
  unfold Set_new. assert (H : NoDup (@nil jsstring)) by constructor.
  revert H. generalize (@nil jsstring).
  induction l as [|k l IH]; intros s Hs; simpl; [exact Hs|].
  apply IH. now apply Set_add_NoDup.
Qed.

Lemma sorted_keys_NoDup (f : jsstring -> bool) l :
  NoDup (Array_sort (filter f (Set_new l))).
Proof.
  eapply Permutation_NoDup; [apply Array_sort_Permutation|].
  apply NoDup_filter, Set_new_NoDup.
Qed.

(** X7. [addedFunctions] and [removedFunctions] are in ascending code-unit
    order and hold no key twice. *)
Theorem compareSnapshots_sorted before after :
  let r := compareSnapshots before after in
  ascending (addedFunctions r) = true /\ NoDup (addedFunctions r)
  /\ ascending (removedFunctions r) = true /\ NoDup (removedFunctions r).
Proof.
  cbv zeta. rewrite compareSnapshots_added_list, compareSnapshots_removed_list.
  repeat split;
    try apply Array_sort_ascending; apply sorted_keys_NoDup.
Qed.

(** ** The modified functions *)

(** X8. The modified functions are exactly the keys under which both
    snapshots have a function and [compareSignatures] finds a change between
    the two; the entry carries the name and path of the function of "after",
    the path of the function of "before", and that non-empty change list. *)
Theorem compareSnapshots_modified_functions before after d :
  In d (modifiedFunctions (compareSnapshots before after))
  <-> exists key fb fa,
        Record_get (functions (symbols before)) key = Some fb
        /\ Record_get (functions (symbols after)) key = Some fa
        /\ compareSignatures fb fa <> []
        /\ d = {| drift_name := fn_name fa;
                  filePathBefore := fn_filePath fb;
                  filePathAfter := fn_filePath fa;
                  changes := compareSignatures fb fa |}.
Proof.
  rewrite compareSnapshots_modified, in_flat_map. unfold modifiedOf. split.
  - intros [key [_ H]].
    destruct (negb _); [destruct H|].
    destruct (Record_get (functions (symbols before)) key) as [fb|] eqn:Eb;
      [|destruct H].
    destruct (Record_get (functions (symbols after)) key) as [fa|] eqn:Ea;
      [|destruct H].
    destruct (0 <? _)%nat eqn:El; [|destruct H].
    destruct H as [<-|[]]. exists key, fb, fa.
    apply length_pos_iff in El. auto.
  - intros (key & fb & fa & Eb & Ea & Hne & ->). exists key.
    split; [apply Set_new_In; eapply Record_get_In_keys; eassumption|].
    assert (Hb : Set_has (Set_new (Object_keys (functions (symbols before))))
                         key = true)
      by (apply Set_has_In, Set_new_In; eapply Record_get_In_keys; eassumption).
    rewrite Hb, Eb, Ea. cbn [negb].
    apply length_pos_iff in Hne. rewrite Hne. now left.
Qed.

(** ** The two verdicts *)

(** X9. The two verdicts of a report agree: the suggested bump is major
    exactly when the report has breaking changes, and it is patch exactly
    when nothing was added, removed or modified. *)
Theorem compareSnapshots_verdicts_agree before after :
  let r := compareSnapshots before after in
  (suggestedVersion r = major <-> hasBreakingChanges r = true)
  /\ (suggestedVersion r = patch
      <-> addedFunctions r = [] /\ removedFunctions r = []
          /\ modifiedFunctions r = []).
Proof.
  intro r. destruct (compareSnapshots_verdicts before after) as [Hb Hv].
  fold r in Hb, Hv. rewrite Hb, Hv.
  unfold computeSuggestedVersion, computeHasBreakingChanges.
  destruct (removedFunctions r) as [|k removed]; cbn [length Nat.ltb Nat.leb].
  - destruct (modifiedFunctions r) as [|fn modified].
    + cbn [existsb length Nat.ltb Nat.leb orb].
      destruct (addedFunctions r); cbn; intuition congruence.
    + destruct (existsb _ (fn :: modified)).
      * intuition congruence.
      * rewrite orb_true_r. intuition congruence.
  - intuition congruence.
Qed.

(** ** Differences that are not reported *)

Lemma equivalentFunctions_keys fs gs :
  equivalentFunctions fs gs -> Object_keys fs = Object_keys gs.
Proof.
  induction 1 as [|e e' fs gs [Hk _] _ IH]; simpl; [reflexivity|].
  now rewrite Hk, IH.
Qed.

Lemma equivalentFunctions_get fs gs key :
  equivalentFunctions fs gs ->
  match Record_get fs key, Record_get gs key with
  | Some f, Some g => equivalentSignature f g
  | None, None => True
  | _, _ => False
  end.
Proof.
  induction 1 as [|[k f] [k' g] fs gs [Hk He] _ IH]; simpl; [exact I|].
  simpl in Hk, He. subst k'. destruct (str_eqb k key); [exact He|exact IH].
Qed.

(** X10. When the functions of "after" are those of "before" under the
    same keys, up to white space inside types and up to the recorded name,
    file path and export flag, the report is the empty one, whatever the
    interfaces and type aliases of the two snapshots are: such differences
    are not reported as drift. *)
Theorem compareSnapshots_equivalent before after :
  equivalentFunctions (functions (symbols before)) (functions (symbols after)) ->
  compareSnapshots before after = emptyReport.
Proof.
  intro H. pose proof (equivalentFunctions_keys _ _ H) as Hk.
  unfold compareSnapshots. rewrite <- Hk.
  rewrite fold_left_fixed.
  - rewrite fold_left_fixed; [reflexivity|].
    intros key Hin. unfold beforeKeyStep.
    apply Set_has_In in Hin. now rewrite Hin.
  - intros key Hin. unfold afterKeyStep.
    apply Set_has_In in Hin. rewrite Hin. cbn [negb].
    pose proof (equivalentFunctions_get _ _ key H) as Hg.
    destruct (Record_get (functions (symbols before)) key) as [fb|];
      destruct (Record_get (functions (symbols after)) key) as [fa|];
      try reflexivity.
    now rewrite (compareSignatures_equivalent _ _ Hg).
Qed.

Lemma compareSnapshots_equivalent_witness :
  compareSnapshots
    {| symbols := {| functions := [(greetKey, mkFn (lit "greet") [spaced_map]
                                                (lit "string") (lit "/src/api.ts"))];
                     interfaces := []; types := [] |} |}
    {| symbols := {| functions :=
                       [(greetKey,
                         {| fn_name := lit "greet"; fn_parameters := [plain_map];
                            fn_returnType := lit "string ";
                            fn_filePath := lit "/src/api.ts";
                            fn_isExported := false |})];
                     interfaces :=
                       [(lit "iface:/src/api.ts::User",
                         {| iface_name := lit "User"; iface_properties := [];
                            iface_filePath := lit "/src/api.ts" |})];
                     types := [] |} |}
  = emptyReport.
Proof.
  apply compareSnapshots_equivalent. cbn [functions symbols].
  constructor; [|constructor]. split; [reflexivity|].
  split; [|vm_compute; reflexivity].
  constructor; [vm_compute; reflexivity|constructor].
Defined.

(** ** The registry *)

Lemma Map_set_fresh V (m : JsMap V) k v :
  ~ In k (map fst m) -> Map_set m k v = m ++ [(k, v)].
Proof.
  induction m as [|[k0 v0] m IH]; simpl; intro H; [reflexivity|].
  destruct (str_eqb k0 k) eqn:E.
  - apply str_eqb_eq in E. subst. exfalso. apply H. now left.
  - f_equal. apply IH. intro Hin. apply H. now right.
Qed.

Lemma Map_set_present V (m : JsMap V) k v :
  In k (map fst m) -> map fst (Map_set m k v) = map fst m.
Proof.
  induction m as [|[k0 v0] m IH]; simpl; intro H; [destruct H|].
  destruct (str_eqb k0 k) eqn:E; simpl; [reflexivity|].
  f_equal. apply IH. destruct H as [H|H]; [|exact H].
  subst k0. now rewrite str_eqb_refl in E.
Qed.

Lemma Map_set_twice V (m : JsMap V) k v w :
  Map_set (Map_set m k v) k w = Map_set m k w.
Proof.
  induction m as [|[k0 v0] m IH]; simpl.
  - now rewrite str_eqb_refl.
  - destruct (str_eqb k0 k) eqn:E; simpl; rewrite E; [reflexivity|].
    now rewrite IH.
Qed.

(** X11. After [addFunction], the key holds the function just given and
    every other key holds what it held; the key is listed last when it is
    new and keeps its place otherwise; interfaces and type aliases are
    untouched. *)
Theorem addFunction_lookup registry key fn :
  ordinaryKey key = true ->
  let registry' := addFunction registry key fn in
  (forall k, Record_get (functions registry') k
             = if str_eqb key k then Some fn
               else Record_get (functions registry) k)
  /\ (In key (Object_keys (functions registry)) ->
      Object_keys (functions registry') = Object_keys (functions registry))
  /\ (~ In key (Object_keys (functions registry)) ->
      Object_keys (functions registry')
      = Object_keys (functions registry) ++ [key])
  /\ interfaces registry' = interfaces registry
  /\ types registry' = types registry.
Proof.
  intros _ registry'. repeat split.
  - intro k. apply (Map_get_set _ (functions registry)).
  - apply Map_set_present.
  - intro H. unfold registry', addFunction, Record_set, Object_keys.
    cbn [functions]. rewrite (Map_set_fresh _ _ _ _ H), map_app. reflexivity.
Qed.

Lemma addFunction_lookup_witness :
  Record_get (functions (addFunction createEmptyRegistry greetKey
                           (greetFn [greet_name]))) greetKey
  = Some (greetFn [greet_name]).
Proof.
  destruct (addFunction_lookup createEmptyRegistry greetKey
              (greetFn [greet_name]) eq_refl) as [H _].
  rewrite H. rewrite str_eqb_refl. reflexivity.
Defined.

(** X12. Of two functions registered under one key (two declarations of one
    name in one file, such as the overloads of a function), only the last
    one is kept. *)
Theorem addFunction_overwrites registry key first second :
  ordinaryKey key = true ->
  addFunction (addFunction registry key first) key second
  = addFunction registry key second.
Proof.
  intros _. unfold addFunction, Record_set. cbn [functions interfaces types].
  f_equal. apply Map_set_twice.
Qed.

Lemma addFunction_overwrites_witness :
  addFunction (addFunction createEmptyRegistry greetKey (greetFn [greet_name]))
              greetKey (greetFn [greet_name; greet_greeting])
  = addFunction createEmptyRegistry greetKey (greetFn [greet_name; greet_greeting]).
Proof.
  apply (addFunction_overwrites createEmptyRegistry greetKey). reflexivity.
Defined.

(** ** Keys *)

Lemma split_at_first (c : N) (x y a b : jsstring) :
  ~ In c x -> ~ In c y -> x ++ c :: a = y ++ c :: b -> x = y /\ a = b.
Proof.
  revert y; induction x as [|d x IH]; intros [|e y] Hx Hy H; simpl in H.
  - injection H as ->. auto.
  - injection H as -> _. exfalso. apply Hy. now left.
  - injection H as -> _. exfalso. apply Hx. now left.
  - injection H as -> H.
    destruct (IH y) as [-> ->]; auto; intro Hin; [apply Hx|apply Hy]; now right.
Qed.

Lemma split_at_last (c : N) (a b x y : jsstring) :
  ~ In c x -> ~ In c y -> a ++ c :: x = b ++ c :: y -> a = b /\ x = y.
Proof.
  intros Hx Hy H. apply (f_equal (@rev N)) in H.
  rewrite !rev_app_distr in H. simpl in H. rewrite <- !app_assoc in H.
  simpl in H.
  apply split_at_first in H as [H1 H2]; try (rewrite <- in_rev; assumption).
  split.
  - rewrite <- (rev_involutive a), <- (rev_involutive b). now f_equal.
  - rewrite <- (rev_involutive x), <- (rev_involutive y). now f_equal.
Qed.

Lemma noColon_In name : noColon name = true -> ~ In colon name.
Proof.
  unfold noColon. rewrite negb_true_iff. intros H Hin.
  assert (E : existsb (fun c => N.eqb c colon) name = true)
    by (apply existsb_exists; exists colon; split; [exact Hin|reflexivity]).
  congruence.
Qed.

Lemma key_parts (p1 p2 n1 n2 : jsstring) :
  noColon n1 = true -> noColon n2 = true ->
  p1 ++ lit "::" ++ n1 = p2 ++ lit "::" ++ n2 -> n1 = n2 /\ p1 = p2.
Proof.
  intros H1 H2 H. apply noColon_In in H1, H2.
  change (lit "::" ++ n1) with ([colon] ++ colon :: n1) in H.
  change (lit "::" ++ n2) with ([colon] ++ colon :: n2) in H.
  rewrite !app_assoc in H.
  apply split_at_last in H as [Hp Hn]; try assumption.
  split; [exact Hn|]. now apply app_inv_tail in Hp.
Qed.

(** X13. Two functions get the same key only when they have the same name
    and the same file; likewise for interfaces and for type aliases.  This
    holds for names without a colon, as the names of declarations are. *)
Theorem symbol_keys_injective (n1 n2 p1 p2 : jsstring) :
  noColon n1 = true -> noColon n2 = true ->
  (makeFunctionKey n1 p1 = makeFunctionKey n2 p2 -> n1 = n2 /\ p1 = p2)
  /\ (makeInterfaceKey n1 p1 = makeInterfaceKey n2 p2 -> n1 = n2 /\ p1 = p2)
  /\ (makeTypeKey n1 p1 = makeTypeKey n2 p2 -> n1 = n2 /\ p1 = p2).
Proof.
  intros H1 H2.
  unfold makeFunctionKey, makeInterfaceKey, makeTypeKey.
  split; [|split]; intro H; apply app_inv_head in H;
    exact (key_parts p1 p2 n1 n2 H1 H2 H).
Qed.

Lemma symbol_keys_injective_witness :
  lit "UserService.getUser" = lit "UserService.getUser"
  /\ lit "/src/api.ts" = lit "/src/api.ts".
Proof.
  destruct (symbol_keys_injective (lit "UserService.getUser")
              (lit "UserService.getUser") (lit "/src/api.ts")
              (lit "/src/api.ts")) as [H _]; [reflexivity|reflexivity|].
  apply H. reflexivity.
Defined.

Lemma makeFunctionKey_ordinary name filePath :
  ordinaryKey (makeFunctionKey name filePath) = true.
Proof. reflexivity. Qed.

(** ** A function added to the registry *)

Lemma Set_new_app l k :
  ~ In k l -> Set_new (l ++ [k]) = Set_new l ++ [k].
Proof.
  intro H. unfold Set_new. rewrite fold_left_app. simpl.
  unfold Set_add at 1.
  assert (E : Set_has (fold_left Set_add l []) k = false).
  { apply Set_has_not_In. intro Hin. apply Set_fold_In in Hin.
    destruct Hin as [[]|Hin]. contradiction. }
  now rewrite E.
Qed.

Lemma Record_get_app V (o : JsRecord V) k v k' :
  In k' (Object_keys o) -> Record_get (o ++ [(k, v)]) k' = Record_get o k'.
Proof.
  induction o as [|[k0 v0] o IH]; simpl; intro H; [destruct H|].
  destruct (str_eqb k0 k') eqn:E; [reflexivity|].
  apply IH. destruct H as [H|H]; [|exact H].
  subst. now rewrite str_eqb_refl in E.
Qed.

Lemma Object_keys_app V (o : JsRecord V) k v :
  Object_keys (o ++ [(k, v)]) = Object_keys o ++ [k].
Proof. unfold Object_keys. now rewrite map_app. Qed.

(** X14. A function registered under a key that the registry did not have
    is reported as one added function, with nothing removed or modified,
    no breaking change and a minor bump. *)
Theorem compareSnapshots_addFunction registry key fn :
  ordinaryKey key = true ->
  ~ In key (Object_keys (functions registry)) ->
  compareSnapshots {| symbols := registry |}
                   {| symbols := addFunction registry key fn |}
  = addedReport key.
Proof.
  intros _ Hnew. unfold compareSnapshots, addFunction, Record_set.
  cbn [symbols functions].
  rewrite (Map_set_fresh _ _ _ _ Hnew), !Object_keys_app.
  rewrite !(Set_new_app _ _ Hnew), fold_left_app.
  assert (Hk : Set_has (Set_new (Object_keys (functions registry))) key
               = false).
  { apply Set_has_not_In. intro H. rewrite Set_new_In in H. contradiction. }
  set (K := Set_new (Object_keys (functions registry))) in *.
  rewrite (fold_left_fixed _ _ _ K ([], [])).
  - cbn [fold_left]. unfold afterKeyStep at 1. rewrite Hk. cbn [negb app].
    rewrite fold_left_fixed; [reflexivity|].
    intros k Hin. unfold beforeKeyStep.
    assert (E : Set_has (K ++ [key]) k = true)
      by (apply Set_has_In, in_or_app; now left).
    now rewrite E.
  - intros k Hin. unfold afterKeyStep.
    pose proof Hin as Hin'. apply Set_has_In in Hin'. rewrite Hin'.
    cbn [negb symbols functions]. unfold K in Hin. rewrite Set_new_In in Hin.
    rewrite (Record_get_app _ _ _ _ _ Hin).
    destruct (Record_get_Some _ _ _ Hin) as [f ->].
    now rewrite compareSignatures_same.
Qed.

Lemma compareSnapshots_addFunction_witness :
  compareSnapshots {| symbols := createEmptyRegistry |}
    {| symbols := addFunction createEmptyRegistry
                    (makeFunctionKey (lit "greet") (lit "/src/api.ts"))
                    (greetFn [greet_name]) |}
  = addedReport (makeFunctionKey (lit "greet") (lit "/src/api.ts")).
Proof.
  apply (compareSnapshots_addFunction createEmptyRegistry).
  - reflexivity.
  - simpl. tauto.
Defined.

(** ** Normal form of type strings *)

Lemma singleSpaced_replace b s : singleSpaced b (replace_ws_runs b s) = true.
Proof.
  revert b; induction s as [|c s IH]; intro b; [reflexivity|].
  cbn [replace_ws_runs]. destruct (is_ws c) eqn:E.
  - destruct b; [apply IH|].
    cbn [singleSpaced]. change (is_ws 32) with true. cbn. apply IH.
  - cbn [singleSpaced]. rewrite E. apply IH.
Qed.

Lemma replace_singleSpaced b s :
  singleSpaced b s = true -> replace_ws_runs b s = s.
Proof.
  revert b; induction s as [|c s IH]; intro b; [reflexivity|].
  cbn [singleSpaced replace_ws_runs]. destruct (is_ws c).
  - intro H. apply andb_true_iff in H as [H Hs].
    apply andb_true_iff in H as [Hc Hb].
    apply N.eqb_eq in Hc. apply negb_true_iff in Hb. subst.
    now rewrite (IH true Hs).
  - intro H. now rewrite (IH false H).
Qed.

Lemma singleSpaced_weaken b s :
  singleSpaced b s = true -> singleSpaced false s = true.
Proof.
  destruct s as [|c s]; [reflexivity|]. cbn [singleSpaced].
  destruct (is_ws c); [|auto]. intro H.
  apply andb_true_iff in H as [H Hs]. apply andb_true_iff in H as [Hc _].
  now rewrite Hc, Hs.
Qed.

Lemma singleSpaced_trimStart b s :
  singleSpaced b s = true -> singleSpaced false (trimStart s) = true.
Proof.
  revert b; induction s as [|c s IH]; intro b; [reflexivity|].
  cbn [singleSpaced trimStart]. destruct (is_ws c) eqn:E.
  - intro H. apply andb_true_iff in H as [_ Hs]. now apply (IH true).
  - intro H. cbn [singleSpaced]. now rewrite E.
Qed.

Lemma singleSpaced_prefix b s w :
  singleSpaced b (s ++ w) = true -> singleSpaced b s = true.
Proof.
  revert b; induction s as [|c s IH]; intro b; [reflexivity|].
  cbn [app singleSpaced]. destruct (is_ws c).
  - intro H. apply andb_true_iff in H as [H Hs]. rewrite H. now apply IH.
  - apply IH.
Qed.

Lemma trimStart_split s : exists w, s = w ++ trimStart s.
Proof.
  induction s as [|c s [w IH]]; [now exists []|].
  cbn [trimStart]. destruct (is_ws c).
  - exists (c :: w). simpl. now f_equal.
  - now exists [].
Qed.

Lemma trimEnd_split s : exists w, s = trimEnd s ++ w.
Proof.
  unfold trimEnd. destruct (trimStart_split (rev s)) as [w H].
  exists (rev w). rewrite <- rev_app_distr, <- H. symmetry. apply rev_involutive.
Qed.

Lemma singleSpaced_trim s :
  singleSpaced false s = true -> singleSpaced false (trim s) = true.
Proof.
  intro H. unfold trim.
  destruct (trimEnd_split (trimStart s)) as [w Hw].
  apply (singleSpaced_prefix _ _ w). rewrite <- Hw.
  now apply (singleSpaced_trimStart false).
Qed.

Lemma trimStart_idem s : trimStart (trimStart s) = trimStart s.
Proof.
  induction s as [|c s IH]; [reflexivity|].
  cbn [trimStart]. destruct (is_ws c) eqn:E; [exact IH|].
  cbn [trimStart]. now rewrite E.
Qed.

Lemma trimStart_trimEnd s :
  trimStart (trimEnd (trimStart s)) = trimEnd (trimStart s).
Proof.
  destruct (trimEnd_split (trimStart s)) as [w Hw].
  destruct (trimEnd (trimStart s)) as [|c r] eqn:E; [reflexivity|].
  simpl in Hw. apply trimStart_head in Hw.
  cbn [trimStart]. now rewrite Hw.
Qed.

Lemma trim_idem s : trim (trim s) = trim s.
Proof.
  unfold trim. rewrite trimStart_trimEnd. unfold trimEnd.
  now rewrite rev_involutive, trimStart_idem.
Qed.

Lemma normalize_fixed s :
  normalizeForComparison (trim (replace_ws_runs false s))
  = trim (replace_ws_runs false s).
Proof.
  unfold normalizeForComparison.
  rewrite (replace_singleSpaced false).
  - apply trim_idem.
  - apply singleSpaced_trim, singleSpaced_replace.
Qed.

(** X15. The type strings that the extractor records are in the normal form
    of the comparator: normalizing one again returns it unchanged, so two
    recorded types are equal for the comparator exactly when they are the
    same string.  Normalization itself is idempotent. *)
Theorem normalizeTypeString_normal s t :
  normalizeForComparison (normalizeTypeString s) = normalizeTypeString s
  /\ normalizeForComparison (normalizeForComparison s)
     = normalizeForComparison s
  /\ (normalizeForComparison (normalizeTypeString s)
      = normalizeForComparison (normalizeTypeString t)
      <-> normalizeTypeString s = normalizeTypeString t).
Proof.
  assert (H : forall x, normalizeForComparison (normalizeTypeString x)
                        = normalizeTypeString x)
    by (intro x; apply normalize_fixed).
  split; [apply H|]. split; [apply normalize_fixed|].
  rewrite !H. reflexivity.
Qed.

(** ** What [validatePath] returns lies below the base *)

Lemma isPrefix_split p l : isPrefix p l = true -> exists e, l = p ++ e.
Proof.
  revert l; induction p as [|x p IH]; intros l H; [now exists l|].
  destruct l as [|y l]; [discriminate|]. simpl in H.
  apply andb_true_iff in H as [Hxy Hp]. apply str_eqb_eq in Hxy. subst y.
  destruct (IH l Hp) as [e ->]. now exists e.
Qed.

Lemma validatePath_below cwd v baseDir resolved :
  isAbsolute cwd = true ->
  validatePath cwd v baseDir = Ok resolved ->
  exists segs,
    forallb goodSeg segs = true
    /\ resolved = slash :: joinSlash (baseSegments cwd baseDir ++ segs).
Proof.
  intros Habs H. destruct v as [| | | |s| |]; try discriminate H.
  assert (Hne : trim s <> []).
  { intro E. unfold validatePath in H. rewrite E in H. discriminate H. }
  assert (Hlen : (length (trim s) <= 4096)%nat).
  { destruct (MAX_PATH_LENGTH <? length (trim s))%nat eqn:E.
    - unfold validatePath in H. rewrite E in H.
      destruct (length (trim s) =? 0)%nat; discriminate H.
    - now apply Nat.ltb_ge in E. }
  rewrite (validatePath_segments cwd Habs s baseDir Hne Hlen) in H.
  cbv zeta in H.
  destruct (baseOf_segments cwd Habs baseDir) as [Hb Eb].
  pose proof (resolvedSegments_good (baseSegments cwd baseDir) (trim s) Hb)
    as Hr.
  unfold relativeSegments in H.
  destruct (fst (stripCommon (baseSegments cwd baseDir)
                   (resolvedSegments (baseSegments cwd baseDir) (trim s))))
    as [|u up] eqn:Eup.
  - apply stripCommon_prefix, isPrefix_split in Eup as [e He].
    destruct (_ || _); [discriminate H|]. injection H as <-.
    exists e. rewrite He in Hr |- *. rewrite forallb_app in Hr.
    apply andb_true_iff in Hr as [_ Hr]. auto.
  - rewrite startsWith_climb in H by discriminate. discriminate H.
Qed.

(** X16. Whatever [validatePath] returns is the resolved base directory
    followed by plain segments (none empty, none "." or "..", none with a
    slash): an accepted path never leaves the base directory, and it is
    in normal form. *)
Theorem validatePath_contained cwd v baseDir resolved :
  isAbsolute cwd = true ->
  validatePath cwd v baseDir = Ok resolved ->
  exists segs,
    forallb goodSeg segs = true
    /\ baseOf cwd baseDir = slash :: joinSlash (baseSegments cwd baseDir)
    /\ resolved = slash :: joinSlash (baseSegments cwd baseDir ++ segs)
    /\ segments resolved = baseSegments cwd baseDir ++ segs.
Proof.
  intros Habs H.
  destruct (validatePath_below cwd v baseDir resolved Habs H) as [segs [Hs ->]].
  destruct (baseOf_segments cwd Habs baseDir) as [Hb Eb].
  exists segs. repeat split; try assumption.
  apply segments_join. rewrite forallb_app, Hb, Hs. reflexivity.
Qed.

Lemma validatePath_contained_witness :
  exists segs,
    forallb goodSeg segs = true
    /\ baseOf (lit "/work") (Some (lit "/home/project"))
       = slash :: joinSlash (baseSegments (lit "/work") (Some (lit "/home/project")))
    /\ lit "/home/project/.flowlock/snapshot.json"
       = slash :: joinSlash (baseSegments (lit "/work") (Some (lit "/home/project"))
                             ++ segs)
    /\ segments (lit "/home/project/.flowlock/snapshot.json")
       = baseSegments (lit "/work") (Some (lit "/home/project")) ++ segs.
Proof.
  apply (validatePath_contained (lit "/work")
           (VString (lit "src/../.flowlock/./snapshot.json"))
           (Some (lit "/home/project"))).
  - reflexivity.
  - vm_compute. reflexivity.
Defined.

(** ** Plain relative paths *)

(** X17. A relative path made of plain segments is accepted and resolved to
    the base directory followed by these segments, unless its first segment
    begins with two dots (a name such as "..cache"): then it is rejected as
    lying outside the base directory, although it lies inside. *)
Theorem validatePath_plain_path cwd s baseDir :
  isAbsolute cwd = true ->
  (length (trim s) <= 4096)%nat ->
  forallb goodSeg (splitSlash (trim s)) = true ->
  validatePath cwd (VString s) baseDir
  = if startsWith (trim s) dotdot then Throw outsideAllowed
    else Ok (slash :: joinSlash (baseSegments cwd baseDir
                                 ++ splitSlash (trim s))).
Proof.
  intros Habs Hlen Hgood.
  destruct (startsWith (trim s) dotdot) eqn:Hdd;
    [|now apply validatePath_plain].
  assert (Hrel : isAbsolute (trim s) = false).
  { destruct (trim s) as [|c t']; [reflexivity|]. unfold isAbsolute.
    destruct (N.eqb c slash) eqn:E; [|reflexivity].
    simpl in Hgood. rewrite E in Hgood. discriminate. }
  assert (Hne : trim s <> []) by (intro H; rewrite H in Hgood; discriminate).
  rewrite (validatePath_segments cwd Habs s baseDir Hne Hlen). cbv zeta.
  assert (Hr : resolvedSegments (baseSegments cwd baseDir) (trim s)
               = baseSegments cwd baseDir ++ splitSlash (trim s)).
  { unfold resolvedSegments. rewrite Hrel, normalize_good_segs by exact Hgood.
    now rewrite rev_app_distr, !rev_involutive. }
  rewrite Hr. unfold relativeSegments. rewrite stripCommon_extend.
  cbn [fst snd map app]. now rewrite joinSlash_split, Hdd.
Qed.

Lemma validatePath_plain_path_witness :
  validatePath (lit "/work") (VString (lit "..cache/api.json"))
    (Some (lit "/home/project"))
  = Throw outsideAllowed.
Proof.
  apply (validatePath_plain_path (lit "/work") (lit "..cache/api.json")
           (Some (lit "/home/project"))).
  - reflexivity.
  - apply Nat.leb_le. vm_compute. reflexivity.
  - vm_compute. reflexivity.
Defined.

(** ** Sanitized components *)

Lemma startsWith_split s p : startsWith s p = true -> exists b, s = p ++ b.
Proof.
  revert s; induction p as [|y p IH]; intros s H; [now exists s|].
  destruct s as [|x s]; [discriminate|]. simpl in H.
  apply andb_true_iff in H as [Hxy Hp]. apply N.eqb_eq in Hxy. subst y.
  destruct (IH s Hp) as [b ->]. now exists b.
Qed.

Lemma includes_split s p :
  includes s p = true -> exists a b, s = a ++ p ++ b.
Proof.
  induction s as [|c s IH]; simpl; intro H.
  - rewrite orb_false_r in H. apply startsWith_split in H as [b ->].
    now exists [], b.
  - apply orb_true_iff in H as [H|H].
    + apply startsWith_split in H as [b ->]. now exists [], b.
    + destruct (IH H) as [a [b ->]]. now exists (c :: a), b.
Qed.

Lemma includes_inside pre s post p :
  includes s p = true -> includes (pre ++ s ++ post) p = true.
Proof.
  intro H. apply includes_split in H as [a [b ->]].
  replace (pre ++ (a ++ p ++ b) ++ post) with ((pre ++ a) ++ p ++ (b ++ post))
    by now rewrite <- !app_assoc.
  apply includes_app.
Qed.

Lemma joinSlash_segment seg segs :
  In seg segs -> exists pre post, joinSlash segs = pre ++ seg ++ post.
Proof.
  induction segs as [|x rest IH]; intro H; [destruct H|].
  destruct rest as [|y rest].
  - destruct H as [->|[]]. exists [], []. simpl. now rewrite app_nil_r.
  - change (joinSlash (x :: y :: rest))
      with (x ++ slash :: joinSlash (y :: rest)).
    destruct H as [->|H].
    + now exists [], (slash :: joinSlash (y :: rest)).
    + destruct (IH H) as [pre [post ->]].
      exists (x ++ slash :: pre), post. now rewrite <- app_assoc.
Qed.

Lemma segment_includes s seg p :
  In seg (splitSlash s) -> includes seg p = true -> includes s p = true.
Proof.
  intros Hin H. destruct (joinSlash_segment _ _ Hin) as [pre [post E]].
  rewrite joinSlash_split in E. rewrite E. now apply includes_inside.
Qed.

Lemma normalize_without_dotdot segs stack :
  (forall seg, In seg segs -> str_eqb seg dotdot = false) ->
  fold_left (normStep false) segs stack
  = rev (filter (fun seg => negb (str_eqb seg [] || str_eqb seg dot)) segs)
    ++ stack.
Proof.
  revert stack; induction segs as [|seg segs IH]; intros stack H;
    [reflexivity|].
  cbn [fold_left filter]. rewrite IH by (intros x Hx; apply H; now right).
  unfold normStep at 1. rewrite (H seg (or_introl eq_refl)).
  destruct (str_eqb seg [] || str_eqb seg dot); cbn [negb]; [reflexivity|].
  cbn [rev]. now rewrite <- app_assoc.
Qed.

Lemma keptSegments_good path :
  includes path dotdot = false -> forallb goodSeg (keptSegments path) = true.
Proof.
  intro H. apply forallb_forall. intros seg Hin.
  apply filter_In in Hin as [Hin Hk].
  apply negb_true_iff, orb_false_iff in Hk as [He Hd].
  unfold goodSeg. rewrite He, Hd. cbn [negb andb].
  assert (Hdd : str_eqb seg dotdot = false).
  { destruct (str_eqb seg dotdot) eqn:E; [|reflexivity].
    apply str_eqb_eq in E. subst seg.
    rewrite (segment_includes path dotdot dotdot Hin) in H; [discriminate|].
    reflexivity. }
  rewrite Hdd. cbn [negb andb].
  pose proof (splitSlash_noSlash path) as Hns.
  rewrite forallb_forall in Hns. now apply Hns.
Qed.

Lemma keptSegments_start path :
  includes path dotdot = false ->
  startsWith (joinSlash (keptSegments path)) dotdot = false
  /\ startsWith (joinSlash (keptSegments path)) [slash] = false.
Proof.
  intro H. pose proof (keptSegments_good path H) as Hgood.
  assert (Hin : forall seg, In seg (keptSegments path) ->
                            In seg (splitSlash path))
    by (intros seg Hs; now apply filter_In in Hs).
  destruct (keptSegments path) as [|seg rest]; [now split|].
  cbn [forallb] in Hgood. apply andb_true_iff in Hgood as [Hseg _].
  specialize (Hin seg (or_introl eq_refl)).
  assert (Hs : startsWith seg dotdot = false).
  { destruct (startsWith seg dotdot) eqn:E; [|reflexivity].
    rewrite (segment_includes path seg dotdot Hin) in H; [discriminate|].
    now apply includes_here. }
  unfold goodSeg in Hseg. apply andb_true_iff in Hseg as [Hseg Hns].
  apply andb_true_iff in Hseg as [Hseg _].
  apply andb_true_iff in Hseg as [He Hd].
  destruct seg as [|c1 seg]; [discriminate He|].
  assert (Hc1 : N.eqb c1 slash = false).
  { unfold noSlash in Hns. simpl in Hns.
    now destruct (N.eqb c1 slash). }
  split.
  - destruct seg as [|c2 seg].
    + destruct rest as [|y rest]; simpl.
      * now rewrite andb_false_r.
      * destruct (N.eqb c1 46) eqn:E1; [|reflexivity].
        apply N.eqb_eq in E1. subst c1. discriminate Hd.
    + destruct rest; simpl in *; exact Hs.
  - destruct rest; simpl; now rewrite Hc1.
Qed.

(** X18. A component that [sanitizePathComponent] accepts (no ".." inside,
    no leading slash), that is not empty, has no white space at its ends
    and is at most 4096 code units long, is accepted by [validatePath] for
    every base directory, and resolves to the base directory followed by
    its segments other than the empty ones and ".". *)
Theorem sanitized_component_validates cwd component baseDir :
  isAbsolute cwd = true ->
  isOk (sanitizePathComponent component) = true ->
  trim component = component -> component <> [] ->
  (length component <= 4096)%nat ->
  validatePath cwd (VString component) baseDir
  = Ok (slash :: joinSlash (baseSegments cwd baseDir
                            ++ keptSegments component)).
Proof.
  intros Habs Hok Htrim Hne Hlen.
  unfold sanitizePathComponent in Hok.
  destruct (includes component dotdot) eqn:Hinc; [discriminate Hok|].
  destruct (startsWith component [slash]) eqn:Hsl; [discriminate Hok|].
  rewrite startsWith_slash in Hsl.
  assert (Hne' : trim component <> []) by now rewrite Htrim.
  assert (Hlen' : (length (trim component) <= 4096)%nat) by now rewrite Htrim.
  rewrite (validatePath_segments cwd Habs component baseDir Hne' Hlen').
  cbv zeta. rewrite Htrim.
  assert (Hr : resolvedSegments (baseSegments cwd baseDir) component
               = baseSegments cwd baseDir ++ keptSegments component).
  { unfold resolvedSegments. rewrite Hsl, normalize_without_dotdot.
    - now rewrite rev_app_distr, !rev_involutive.
    - intros seg Hin. destruct (str_eqb seg dotdot) eqn:E; [|reflexivity].
      apply str_eqb_eq in E. subst seg.
      rewrite (segment_includes component dotdot dotdot Hin) in Hinc;
        [discriminate|reflexivity]. }
  rewrite Hr. unfold relativeSegments. rewrite stripCommon_extend.
  cbn [fst snd map app].
  destruct (keptSegments_start component Hinc) as [-> ->]. reflexivity.
Qed.

Lemma sanitized_component_validates_witness :
  validatePath (lit "/work") (VString (lit "src//./api.ts"))
    (Some (lit "/home/project"))
  = Ok (slash :: joinSlash (baseSegments (lit "/work") (Some (lit "/home/project"))
                            ++ keptSegments (lit "src//./api.ts"))).
Proof.
  apply (sanitized_component_validates (lit "/work") (lit "src//./api.ts")
           (Some (lit "/home/project"))).
  - reflexivity.
  - reflexivity.
  - reflexivity.
  - discriminate.
  - apply Nat.leb_le. vm_compute. reflexivity.
Defined.

(** ** Loading: what it reads, and how it fails *)

(** X19. [loadSnapshot] leaves the file system as it found it, whatever
    its outcome. *)
Theorem loadSnapshot_reads_only cwd syntaxErrorMessage path options fs :
  snd (loadSnapshot cwd syntaxErrorMessage path options fs) = fs.
Proof.
  unfold loadSnapshot, bindIO, liftResult, existsSync, readFileSync, throw, ret.
  destruct (validatePath cwd (VString path) _) as [p|]; [|reflexivity].
  destruct (negb _); [reflexivity|].
  destruct (Map_get (fs_files fs) p) as [raw|]; [|reflexivity].
  destruct (JSON_parse raw) as [parsed|]; [|reflexivity].
  destruct (negb (isStoredSnapshot parsed)); [reflexivity|].
  destruct (getProp _ _); try reflexivity.
  now destruct (negb _).
Qed.

(** X20. [loadSnapshot] fails with the validator's error when the path is
    rejected; with "Snapshot file not found" followed by the resolved path
    when nothing exists there; and with the missing-fields error when the
    file holds a JSON value that is not an object with an object under
    [metadata], a number under [metadata.version] and an object under
    [snapshot]. *)
Theorem loadSnapshot_failures cwd syntaxErrorMessage path options fs :
  let checked :=
    validatePath cwd (VString path) (Some (orElse (load_baseDir options) cwd)) in
  (forall e, checked = Throw e ->
     loadSnapshot cwd syntaxErrorMessage path options fs = (Throw e, fs))
  /\ (forall p, checked = Ok p ->
        isFile fs p = false -> isDirectory fs p = false ->
        loadSnapshot cwd syntaxErrorMessage path options fs
        = (Throw (lit "Snapshot file not found: " ++ p), fs))
  /\ (forall p raw parsed, checked = Ok p ->
        Map_get (fs_files fs) p = Some raw ->
        JSON_parse raw = Some parsed ->
        isStoredSnapshot parsed = false ->
        loadSnapshot cwd syntaxErrorMessage path options fs
        = (Throw missingFields, fs)).
Proof.
  cbv zeta. split; [|split].
  - intros e H. unfold loadSnapshot, bindIO, liftResult. now rewrite H.
  - intros p H Hf Hd.
    unfold loadSnapshot, bindIO, liftResult, existsSync.
    rewrite H, Hf, Hd. reflexivity.
  - intros p raw parsed H Hraw Hparse Hshape.
    unfold loadSnapshot, bindIO, liftResult, existsSync, readFileSync, isFile,
      Map_has.
    rewrite H, Hraw. cbn [negb orb]. rewrite Hraw, Hparse, Hshape.
    reflexivity.
Qed.

Lemma loadSnapshot_failures_witness :
  loadSnapshot (lit "/repo") noMessage (lit "tmp/incomplete.json")
    {| load_baseDir := None |} incompleteFs
  = (Throw missingFields, incompleteFs)
  /\ loadSnapshot (lit "/repo") noMessage (lit "tmp/nonexistent.json")
       {| load_baseDir := None |} incompleteFs
     = (Throw (lit "Snapshot file not found: /repo/tmp/nonexistent.json"),
        incompleteFs).
Proof.
  split.
  - destruct (loadSnapshot_failures (lit "/repo") noMessage
                (lit "tmp/incomplete.json") {| load_baseDir := None |}
                incompleteFs) as (_ & _ & H).
    apply (H (lit "/repo/tmp/incomplete.json") (jsonText "{'foo': 'bar'}")
             (VObject [(lit "foo", VString (lit "bar"))]));
      vm_compute; reflexivity.
  - destruct (loadSnapshot_failures (lit "/repo") noMessage
                (lit "tmp/nonexistent.json") {| load_baseDir := None |}
                incompleteFs) as (_ & H & _).
    apply (H (lit "/repo/tmp/nonexistent.json")); vm_compute; reflexivity.
Defined.

(** X21. What [loadSnapshot] returns was read from the file at the
    validated path and parsed from its text; it has an object under
    [metadata] whose [version] is the current format version, and an object
    under [snapshot].  Nothing deeper is checked. *)
Theorem loadSnapshot_returns cwd syntaxErrorMessage path options fs loaded fs' :
  loadSnapshot cwd syntaxErrorMessage path options fs = (Ok loaded, fs') ->
  fs' = fs
  /\ isNonNullObject (getProp loaded (lit "metadata")) = true
  /\ getProp (getProp loaded (lit "metadata")) (lit "version")
     = VNumber SNAPSHOT_FORMAT_VERSION
  /\ isNonNullObject (getProp loaded (lit "snapshot")) = true
  /\ exists p raw,
       validatePath cwd (VString path)
         (Some (orElse (load_baseDir options) cwd)) = Ok p
       /\ Map_get (fs_files fs) p = Some raw
       /\ JSON_parse raw = Some loaded.
Proof.
  unfold loadSnapshot, bindIO, liftResult, existsSync, readFileSync, throw, ret.
  destruct (validatePath cwd (VString path) _) as [p|]; [|discriminate].
  destruct (negb _); [discriminate|].
  destruct (Map_get (fs_files fs) p) as [raw|] eqn:Eraw; [|discriminate].
  destruct (JSON_parse raw) as [parsed|] eqn:Eparse; [|discriminate].
  destruct (isStoredSnapshot parsed) eqn:Eshape; [|discriminate].
  cbn [negb].
  destruct (getProp (getProp parsed (lit "metadata")) (lit "version"))
    as [| | |found| | |] eqn:Ev; try discriminate.
  destruct (Z.eqb found SNAPSHOT_FORMAT_VERSION) eqn:Efound; [|discriminate].
  cbn [negb]. intros [= <- <-]. apply Z.eqb_eq in Efound. subst found.
  unfold isStoredSnapshot in Eshape.
  assert (Hs : isNonNullObject (getProp parsed (lit "metadata"))
               && isNumber (getProp (getProp parsed (lit "metadata"))
                                    (lit "version"))
               && isNonNullObject (getProp parsed (lit "snapshot")) = true)
    by (destruct parsed; try discriminate Eshape; exact Eshape).
  apply andb_true_iff in Hs as [Hs Hsnap]. apply andb_true_iff in Hs as [Hm _].
  repeat split; try assumption. now exists p, raw.
Qed.

Lemma loadSnapshot_returns_witness :
  minimalFs = minimalFs
  /\ isNonNullObject (getProp minimalStored (lit "metadata")) = true
  /\ getProp (getProp minimalStored (lit "metadata")) (lit "version")
     = VNumber SNAPSHOT_FORMAT_VERSION
  /\ isNonNullObject (getProp minimalStored (lit "snapshot")) = true
  /\ exists p raw,
       validatePath (lit "/repo") (VString (lit "tmp/minimal.json"))
         (Some (orElse (load_baseDir {| load_baseDir := None |}) (lit "/repo")))
       = Ok p
       /\ Map_get (fs_files minimalFs) p = Some raw
       /\ JSON_parse raw = Some minimalStored.
Proof.
  apply (loadSnapshot_returns (lit "/repo") noMessage (lit "tmp/minimal.json")
           {| load_baseDir := None |} minimalFs minimalStored minimalFs).
  vm_compute. reflexivity.
Defined.

(** ** Saving: what it touches *)

Lemma Set_fold_has l s d :
  Set_has s d = true -> Set_has (fold_left Set_add l s) d = true.
Proof.
  intro H. apply Set_has_In. apply Set_fold_In. left. now apply Set_has_In.
Qed.

Lemma mkdirSync_frame dir fs r fs1 :
  mkdirSync dir fs = (r, fs1) ->
  fs_files fs1 = fs_files fs
  /\ (forall d, isDirectory fs d = true -> isDirectory fs1 d = true).
Proof.
  unfold mkdirSync. destruct (existsb _ _); intros [= <- <-].
  - auto.
  - split; [reflexivity|]. intros d Hd. now apply Set_fold_has.
Qed.

Lemma writeFileSync_frame path data fs r fs1 :
  writeFileSync path data fs = (r, fs1) ->
  fs_dirs fs1 = fs_dirs fs
  /\ (forall p, r <> Ok tt \/ p <> path ->
        Map_get (fs_files fs1) p = Map_get (fs_files fs) p).
Proof.
  unfold writeFileSync. destruct (isDirectory fs path);
    [intros [= <- <-]; auto|].
  destruct (negb _); intros [= <- <-]; [auto|].
  split; [reflexivity|]. intros p [H|H]; [congruence|].
  cbn [fs_files]. rewrite Map_get_set.
  destruct (str_eqb path p) eqn:E; [|reflexivity].
  apply str_eqb_eq in E. congruence.
Qed.

(** The steps of [saveSnapshot] after the two path checks. *)
Lemma persist_frame out text fs outcome fs' :
  (dirExists <-- existsSync (dirname out) ;;;
   (if negb dirExists then mkdirSync (dirname out) else ret tt) ;;;
   writeFileSync out text ;;; ret out) fs = (outcome, fs') ->
  (forall p, outcome <> Ok p ->
     Map_get (fs_files fs') p = Map_get (fs_files fs) p)
  /\ (forall d, isDirectory fs d = true -> isDirectory fs' d = true)
  /\ (forall p, outcome = Ok p ->
        p = out /\ Map_get (fs_files fs') p = Some (toWellFormed text)
        /\ isDirectory fs' (dirname p) = true).
Proof.
  unfold bindIO, existsSync.
  destruct ((if negb (isFile fs (dirname out) || isDirectory fs (dirname out))
             then mkdirSync (dirname out) else ret tt) fs)
    as [[u|e] fs1] eqn:Emk.
  - assert (Hfr : fs_files fs1 = fs_files fs
                  /\ (forall d, isDirectory fs d = true ->
                                isDirectory fs1 d = true)).
    { destruct (negb _); [now apply mkdirSync_frame in Emk|].
      unfold ret in Emk. injection Emk as _ <-. auto. }
    destruct Hfr as [Hfiles Hdirs].
    unfold writeFileSync, ret.
    destruct (isDirectory fs1 out) eqn:Eo.
    + intros [= <- <-]. rewrite Hfiles. repeat split; auto; discriminate.
    + destruct (isDirectory fs1 (dirname out)) eqn:Ed; cbn [negb].
      * intros [= <- <-]. cbn [fs_files]. unfold isDirectory. cbn [fs_dirs].
        split; [|split].
        -- intros p Hp. rewrite Map_get_set, Hfiles.
           destruct (str_eqb out p) eqn:E; [|reflexivity].
           apply str_eqb_eq in E. congruence.
        -- exact Hdirs.
        -- intros p [= <-]. rewrite Map_get_set, str_eqb_refl. auto.
      * intros [= <- <-]. rewrite Hfiles. repeat split; auto; discriminate.
  - intros [= <- <-].
    destruct (negb _).
    + apply mkdirSync_frame in Emk as [Hfiles Hdirs]. rewrite Hfiles.
      repeat split; auto; discriminate.
    + discriminate Emk.
Qed.

Lemma saveSnapshot_steps cwd now snap tsConfigPath options fs :
  saveSnapshot cwd now snap tsConfigPath options fs
  = match validatePath cwd
            (VString (orElse (save_outputPath options) DEFAULT_OUTPUT_PATH))
            (Some (orElse (save_baseDir options) cwd)) with
    | Throw e => (Throw e, fs)
    | Ok out =>
        match validatePath cwd (VString tsConfigPath)
                (Some (orElse (save_baseDir options) cwd)) with
        | Throw e => (Throw e, fs)
        | Ok resolved =>
            match JSON_stringify
                    (storedValue (envelope now resolved options snap)) with
            | Some text =>
                (dirExists <-- existsSync (dirname out) ;;;
                 (if negb dirExists then mkdirSync (dirname out) else ret tt) ;;;
                 writeFileSync out text ;;; ret out) fs
            | None =>
                (dirExists <-- existsSync (dirname out) ;;;
                 (if negb dirExists then mkdirSync (dirname out) else ret tt) ;;;
                 throw (lit "TypeError")) fs
            end
        end
    end.
Proof.
  unfold saveSnapshot. unfold bindIO at 1. unfold liftResult at 1.
  destruct (validatePath cwd (VString (orElse _ _)) _) as [out|]; [|reflexivity].
  unfold bindIO at 1. unfold liftResult at 1.
  destruct (validatePath cwd (VString tsConfigPath) _) as [resolved|];
    [|reflexivity].
  fold (envelope now resolved options snap).
  destruct (JSON_stringify _); reflexivity.
Qed.


(** ** Saving: where it writes *)

(** X23. The path that [saveSnapshot] returns lies below the base
    directory; after the call a file exists there, in a directory that
    exists. *)
Theorem saveSnapshot_writes_below_base
    cwd now snap tsConfigPath options fs out fs' :
  isAbsolute cwd = true ->
  saveSnapshot cwd now snap tsConfigPath options fs = (Ok out, fs') ->
  (exists segs,
      forallb goodSeg segs = true
      /\ out = slash :: joinSlash
                 (baseSegments cwd (Some (orElse (save_baseDir options) cwd))
                  ++ segs))
  /\ isFile fs' out = true
  /\ isDirectory fs' (dirname out) = true.
Proof.
  intros Habs. rewrite saveSnapshot_steps.
  destruct (validatePath cwd (VString (orElse _ _)) _) as [p|] eqn:Eout;
    [|discriminate].
  destruct (validatePath cwd (VString tsConfigPath) _) as [resolved|];
    [|discriminate].
  destruct (JSON_stringify _) as [text|] eqn:Etext.
  - intro H. apply persist_frame in H as (_ & _ & H).
    destruct (H out eq_refl) as (-> & Hfile & Hdir).
    split; [exact (validatePath_below _ _ _ _ Habs Eout)|].
    split; [|exact Hdir]. unfold isFile, Map_has. now rewrite Hfile.
  - unfold storedValue, JSON_stringify in Etext.
    cbn [SerializeJSONProperty] in Etext. discriminate Etext.
Qed.

Lemma saveSnapshot_writes_below_base_witness :
  (exists segs,
      forallb goodSeg segs = true
      /\ lit "/repo/tmp/snapshot.json"
         = slash :: joinSlash
             (baseSegments (lit "/repo")
                (Some (orElse (save_baseDir sampleSaveOptions) (lit "/repo")))
              ++ segs))
  /\ isFile (snd (saveSnapshot (lit "/repo") sampleTime
                    {| symbols := greetRegistry |} (lit "tsconfig.json")
                    sampleSaveOptions otherFs))
            (lit "/repo/tmp/snapshot.json") = true
  /\ isDirectory (snd (saveSnapshot (lit "/repo") sampleTime
                         {| symbols := greetRegistry |} (lit "tsconfig.json")
                         sampleSaveOptions otherFs))
                 (dirname (lit "/repo/tmp/snapshot.json")) = true.
Proof.
  apply (saveSnapshot_writes_below_base (lit "/repo") sampleTime
           {| symbols := greetRegistry |} (lit "tsconfig.json")
           sampleSaveOptions otherFs).
  - reflexivity.
  - vm_compute. reflexivity.
Defined.


(** X24. [saveSnapshot] checks the output path and then the configuration
    path before it touches the file system: when one of them is rejected,
    it fails with the validator's error and the file system is as before.
    A configuration path outside the base directory makes the call fail
    although nothing is written there. *)
Theorem saveSnapshot_rejects cwd now snap tsConfigPath options fs e :
  let baseDir := Some (orElse (save_baseDir options) cwd) in
  let checkedOutput :=
    validatePath cwd
      (VString (orElse (save_outputPath options) DEFAULT_OUTPUT_PATH)) baseDir in
  checkedOutput = Throw e
  \/ (isOk checkedOutput = true
      /\ validatePath cwd (VString tsConfigPath) baseDir = Throw e) ->
  saveSnapshot cwd now snap tsConfigPath options fs = (Throw e, fs).
Proof.
  cbv zeta. rewrite saveSnapshot_steps. intros [H|[Hout H]].
  - now rewrite H.
  - destruct (validatePath cwd (VString (orElse _ _)) _); [|discriminate Hout].
    now rewrite H.
Qed.

Lemma saveSnapshot_rejects_witness :
  saveSnapshot (lit "/repo") sampleTime {| symbols := greetRegistry |}
    (lit "../shared/tsconfig.json") sampleSaveOptions otherFs
  = (Throw outsideAllowed, otherFs).
Proof.
  apply (saveSnapshot_rejects (lit "/repo") sampleTime
           {| symbols := greetRegistry |} (lit "../shared/tsconfig.json")
           sampleSaveOptions otherFs outsideAllowed).
  right. split; vm_compute; reflexivity.
Defined.

(** ** The git front end *)

Lemma validateGitRef_Ok gitRef safeRef :
  validateGitRef (VString gitRef) = Ok safeRef ->
  safeRef = gitRef
  /\ gitRef <> [] /\ (length gitRef <= 256)%nat
  /\ existsb isControlChar gitRef = false
  /\ existsb UNSAFE_REF_CHARS gitRef = false.
Proof.
  intro H. destruct (validateGitRef_length _ _ H) as [Hlen ->].
  unfold validateGitRef in H.
  destruct (length (trim gitRef) =? 0)%nat eqn:E0; [discriminate|].
  destruct (256 <? length (trim gitRef))%nat; [discriminate|].
  destruct (existsb isControlChar gitRef || existsb UNSAFE_REF_CHARS gitRef)
    eqn:Eu; [discriminate|].
  apply orb_false_iff in Eu as [Hc Hu].
  repeat split; try assumption.
  intros ->. discriminate E0.
Qed.



(** X26. [snapshotFromGitRef] checks the ref, then the configuration path,
    then the repository: a rejected ref gives the ref error whatever the
    path is, a rejected path gives the path error, and a directory that is
    no git repository gives "Not a git repository" followed by that
    directory. *)
Theorem snapshotFromGitRef_failures
    cwd now isGitRepository inWorktree tsConfigPath gitRef options :
  let dir := orElse (git_cwd options) cwd in
  let run :=
    snapshotFromGitRef cwd now isGitRepository inWorktree tsConfigPath gitRef
      options in
  (forall e, validateGitRef (VString gitRef) = Throw e -> run = Throw e)
  /\ (forall e,
        isOk (validateGitRef (VString gitRef)) = true ->
        validatePath cwd (VString tsConfigPath) (Some dir) = Throw e ->
        run = Throw e)
  /\ (isOk (validateGitRef (VString gitRef)) = true ->
      isOk (validatePath cwd (VString tsConfigPath) (Some dir)) = true ->
      isGitRepository dir = false ->
      run = Throw (lit "Not a git repository: " ++ dir)).
Proof.
  cbv zeta. unfold snapshotFromGitRef, bind. split; [|split].
  - intros e H. now rewrite H.
  - intros e Hr H. destruct (validateGitRef _); [|discriminate Hr].
    now rewrite H.
  - intros Hr Hp Hg. destruct (validateGitRef _); [|discriminate Hr].
    destruct (validatePath _ _ _); [|discriminate Hp].
    now rewrite Hg.
Qed.

(** X27. What [snapshotFromGitRef] returns carries the ref exactly as it
    was given (the validator accepts no ref that trimming would change), the
    current format version and the time of the call; its snapshot and commit
    hash are what the work tree gave for that ref and the validated
    configuration path, in a directory that is a git repository. *)
Theorem snapshotFromGitRef_returns
    cwd now isGitRepository inWorktree configPath ref options stored :
  snapshotFromGitRef cwd now isGitRepository inWorktree configPath ref
    options = Ok stored ->
  let dir := orElse (git_cwd options) cwd in
  gitRef (metadata stored) = Some ref
  /\ version (metadata stored) = SNAPSHOT_FORMAT_VERSION
  /\ createdAt (metadata stored) = now
  /\ tsConfigPath (metadata stored) = path_resolve cwd [dir; configPath]
  /\ isGitRepository dir = true
  /\ exists cfg,
       validatePath cwd (VString configPath) (Some dir) = Ok cfg
       /\ inWorktree dir cfg configPath ref (git_installDeps options)
          = Ok (snapshot stored, gitSha (metadata stored)).
Proof.
  unfold snapshotFromGitRef, bind.
  destruct (validateGitRef (VString ref)) as [safeRef|] eqn:Eref;
    [|discriminate].
  destruct (validatePath cwd (VString configPath) _) as [cfg|] eqn:Ecfg;
    [|discriminate].
  destruct (isGitRepository (orElse (git_cwd options) cwd)) eqn:Erepo;
    [|discriminate].
  cbn [negb].
  destruct (validateGitRef_Ok _ _ Eref) as (-> & _).
  destruct (inWorktree _ cfg configPath ref _) as [[snap sha]|] eqn:Ew;
    [|discriminate].
  intros [= <-]. cbn. repeat split. now exists cfg.
Qed.

Lemma snapshotFromGitRef_returns_witness :
  let stored :=
    {| metadata := {| version := SNAPSHOT_FORMAT_VERSION;
                      createdAt := sampleTime;
                      tsConfigPath := lit "/repo/tsconfig.json";
                      gitRef := Some (lit "origin/main");
                      gitSha := Some (lit "abc1234") |};
       snapshot := {| symbols := greetRegistry |} |} in
  gitRef (metadata stored) = Some (lit "origin/main")
  /\ version (metadata stored) = SNAPSHOT_FORMAT_VERSION
  /\ createdAt (metadata stored) = sampleTime
  /\ tsConfigPath (metadata stored)
     = path_resolve (lit "/repo")
         [orElse (git_cwd defaultGitOptions) (lit "/repo"); lit "tsconfig.json"]
  /\ anyRepository (orElse (git_cwd defaultGitOptions) (lit "/repo")) = true
  /\ exists cfg,
       validatePath (lit "/repo") (VString (lit "tsconfig.json"))
         (Some (orElse (git_cwd defaultGitOptions) (lit "/repo"))) = Ok cfg
       /\ greetWorktree (orElse (git_cwd defaultGitOptions) (lit "/repo")) cfg
            (lit "tsconfig.json") (lit "origin/main")
            (git_installDeps defaultGitOptions)
          = Ok (snapshot stored, gitSha (metadata stored)).
Proof.
  apply (snapshotFromGitRef_returns (lit "/repo") sampleTime anyRepository
           greetWorktree (lit "tsconfig.json") (lit "origin/main")
           defaultGitOptions).
  vm_compute. reflexivity.
Defined.

(** ** Replacing a string by a string *)

Lemma splitAtFirst_here s p :
  startsWith s p = true -> splitAtFirst s p = Some ([], skipn (length p) s).
Proof. intro H. destruct s; simpl; now rewrite H. Qed.

Lemma splitAtFirst_next c s p :
  startsWith (c :: s) p = false ->
  splitAtFirst (c :: s) p
  = match splitAtFirst s p with
    | Some (preceding, following) => Some (c :: preceding, following)
    | None => None
    end.
Proof. intro H. cbn [splitAtFirst]. now rewrite H. Qed.

Lemma startsWith_skipn s p :
  startsWith s p = true -> s = p ++ skipn (length p) s.
Proof.
  revert s; induction p as [|y p IH]; intros s H; [reflexivity|].
  destruct s as [|x s]; [discriminate|]. simpl in H.
  apply andb_true_iff in H as [Hxy Hp]. apply N.eqb_eq in Hxy. subst y.
  simpl. f_equal. now apply IH.
Qed.

Lemma splitAtFirst_sound s p preceding following :
  splitAtFirst s p = Some (preceding, following) ->
  s = preceding ++ p ++ following.
Proof.
  revert preceding; induction s as [|c s IH]; intro preceding.
  - simpl. destruct (startsWith [] p) eqn:E; [|discriminate].
    intros [= <- <-]. now apply startsWith_skipn.
  - cbn [splitAtFirst]. destruct (startsWith (c :: s) p) eqn:E.
    + intros [= <- <-]. now apply startsWith_skipn.
    + destruct (splitAtFirst s p) as [[a b]|]; [|discriminate].
      intros [= <- <-]. simpl. f_equal. now apply IH.
Qed.

Lemma noDollar_cons c s :
  noDollar (c :: s) = true <-> N.eqb c dollar = false /\ noDollar s = true.
Proof.
  unfold noDollar. simpl. rewrite negb_orb, andb_true_iff, negb_true_iff.
  reflexivity.
Qed.

Lemma noDollar_app a b :
  noDollar (a ++ b) = noDollar a && noDollar b.
Proof. unfold noDollar. now rewrite existsb_app, negb_orb. Qed.

Lemma GetSubstitution_plain matched preceding following template :
  noDollar template = true ->
  GetSubstitution matched preceding following template = template.
Proof.
  induction template as [|c r IH]; [reflexivity|].
  intro H. apply noDollar_cons in H as [Hc Hr].
  cbn [GetSubstitution]. rewrite Hc. f_equal. now apply IH.
Qed.

Lemma String_replace_prefix p fromPrefix toPrefix :
  startsWith p fromPrefix = true -> noDollar toPrefix = true ->
  String_replace p fromPrefix toPrefix
  = toPrefix ++ skipn (length fromPrefix) p.
Proof.
  intros Hp Hto. unfold String_replace.
  rewrite (splitAtFirst_here _ _ Hp), GetSubstitution_plain by exact Hto.
  reflexivity.
Qed.

Lemma String_replace_itself s p :
  noDollar p = true -> String_replace s p p = s.
Proof.
  intro Hp. unfold String_replace.
  destruct (splitAtFirst s p) as [[a b]|] eqn:E; [|reflexivity].
  rewrite GetSubstitution_plain by exact Hp.
  symmetry. now apply splitAtFirst_sound.
Qed.

Lemma skipn_exact (a b : jsstring) : skipn (length a) (a ++ b) = b.
Proof. induction a; simpl; auto. Qed.

Lemma startsWith_absolute x s p :
  N.eqb x slash = false -> isAbsolute p = true -> startsWith (x :: s) p = false.
Proof.
  intros Hx Hp. destruct p as [|y p]; [discriminate Hp|].
  unfold isAbsolute in Hp. apply N.eqb_eq in Hp. subst y.
  simpl. now rewrite Hx.
Qed.

(** The path inside a key is found after the prefix of the key. *)
Lemma String_replace_key path newPath name :
  isAbsolute path = true -> noDollar newPath = true ->
  String_replace (makeFunctionKey name path) path newPath
  = makeFunctionKey name newPath.
Proof.
  intros Habs Hnew. unfold String_replace, makeFunctionKey.
  change (lit "fn:" ++ path ++ lit "::" ++ name)
    with (102%N :: 110%N :: 58%N :: path ++ lit "::" ++ name).
  rewrite !splitAtFirst_next by (apply startsWith_absolute; [reflexivity|exact Habs]).
  rewrite splitAtFirst_here by apply startsWith_app.
  rewrite skipn_exact, GetSubstitution_plain by exact Hnew.
  reflexivity.
Qed.

(** ** Moving a snapshot from the work tree to the caller's directory *)

Lemma fold_left_ext_in A B (f g : A -> B -> A) (l : list B) (a : A) :
  (forall a x, In x l -> f a x = g a x) -> fold_left f l a = fold_left g l a.
Proof.
  revert a; induction l as [|x l IH]; intros a H; [reflexivity|].
  simpl. rewrite (H a x) by now left.
  apply IH. intros a' y Hy. apply H. now right.
Qed.

Lemma fold_left_mapped A B C (f : A -> C -> A) (g : B -> C) (l : list B) a :
  fold_left (fun a x => f a (g x)) l a = fold_left f (map g l) a.
Proof. revert a; induction l as [|x l IH]; intro a; simpl; auto. Qed.

Lemma NoDup_map_keys A B C (k : A -> B) (h : A -> C) (l : list A) :
  (forall x y, In x l -> In y l -> h x = h y -> k x = k y) ->
  NoDup (map k l) -> NoDup (map h l).
Proof.
  induction l as [|x l IH]; intros Hinj Hnd; [constructor|].
  inversion Hnd as [|? ? Hx Hl]; subst. simpl. constructor.
  - intro Hin. apply in_map_iff in Hin as [y [Hy Hin]].
    apply Hx. apply in_map_iff. exists y. split; [|exact Hin].
    symmetry. apply Hinj; [now left|now right|now symmetry].
  - apply IH; [|exact Hl].
    intros a b Ha Hb. apply Hinj; now right.
Qed.

Lemma isAbsolute_startsWith p prefix :
  isAbsolute prefix = true -> startsWith p prefix = true -> isAbsolute p = true.
Proof.
  intros Hf Hp. destruct prefix as [|y q]; [discriminate Hf|].
  destruct p as [|x p]; [discriminate Hp|]. simpl in Hp.
  apply andb_true_iff in Hp as [Hxy _]. apply N.eqb_eq in Hxy. now subst.
Qed.

Lemma noDollar_skipn n s : noDollar s = true -> noDollar (skipn n s) = true.
Proof.
  intro H. rewrite <- (firstn_skipn n s), noDollar_app in H.
  now apply andb_true_iff in H as [_ H].
Qed.

Lemma normalizeEntry_relocates fromPrefix toPrefix acc key fn :
  isAbsolute fromPrefix = true -> noDollar toPrefix = true ->
  key = makeFunctionKey (fn_name fn) (fn_filePath fn) ->
  noDollar (fn_filePath fn) = true ->
  startsWith (fn_filePath fn) fromPrefix = true ->
  normalizeEntry fn_filePath withFunctionPath
    (fun p => if startsWith p fromPrefix
              then String_replace p fromPrefix toPrefix else p)
    acc (key, fn)
  = Map_set acc (fst (relocated fromPrefix toPrefix (key, fn)))
                (snd (relocated fromPrefix toPrefix (key, fn))).
Proof.
  intros Hfrom Hto -> Hpath Hstart.
  unfold normalizeEntry, relocated, Record_set. cbn [fst snd].
  rewrite Hstart, (String_replace_prefix _ _ _ Hstart Hto).
  rewrite String_replace_key; [reflexivity| |].
  - eapply isAbsolute_startsWith; eassumption.
  - rewrite noDollar_app, Hto. now apply noDollar_skipn.
Qed.

(** X28. When the functions of a snapshot are recorded as the extractor
    records them, for files below the work tree, [normalizeSnapshotPaths]
    replaces the work tree by the caller's directory at the head of every
    recorded path and inside every key, and changes nothing else: the
    functions stay in their order, none is lost.  This holds for an
    absolute work-tree path, a caller's directory without a dollar sign and
    file paths without one. *)
Theorem normalizeSnapshotPaths_relocates snapshot fromPrefix toPrefix :
  isAbsolute fromPrefix = true -> noDollar toPrefix = true ->
  extractedBelow fromPrefix (functions (symbols snapshot)) ->
  NoDup (Object_keys (functions (symbols snapshot))) ->
  functions (symbols (normalizeSnapshotPaths snapshot fromPrefix toPrefix))
  = map (relocated fromPrefix toPrefix) (functions (symbols snapshot)).
Proof.
  intros Hfrom Hto Hex Hnd.
  unfold normalizeSnapshotPaths. cbn [symbols functions].
  rewrite (fold_left_ext_in _ _ _
             (fun acc e => Map_set acc (fst (relocated fromPrefix toPrefix e))
                                   (snd (relocated fromPrefix toPrefix e)))).
  - rewrite (fold_left_mapped _ _ _
               (fun m e => Map_set m (fst e) (snd e))
               (relocated fromPrefix toPrefix)).
    apply Map_new_distinct. rewrite map_map.
    apply (NoDup_map_keys _ _ _ fst); [|exact Hnd].
    intros [k1 f1] [k2 f2] H1 H2 Hk.
    destruct (Hex _ _ H1) as (-> & Hn1 & _ & Hs1).
    destruct (Hex _ _ H2) as (-> & Hn2 & _ & Hs2).
    unfold relocated in Hk. cbn [fst snd] in Hk |- *.
    unfold makeFunctionKey in Hk. apply app_inv_head in Hk.
    destruct (key_parts _ _ _ _ Hn1 Hn2 Hk) as [Hname Hpath].
    apply app_inv_head in Hpath.
    rewrite (startsWith_skipn _ _ Hs1), (startsWith_skipn _ _ Hs2).
    now rewrite Hname, Hpath.
  - intros acc [key fn] Hin.
    destruct (Hex _ _ Hin) as (Hk & _ & Hp & Hs).
    now apply normalizeEntry_relocates.
Qed.

Lemma normalizeSnapshotPaths_relocates_witness :
  functions (symbols (normalizeSnapshotPaths {| symbols := worktreeRegistry |}
                        (lit "/tmp/flowlock-x") (lit "/repo")))
  = map (relocated (lit "/tmp/flowlock-x") (lit "/repo"))
        (functions (symbols {| symbols := worktreeRegistry |})).
Proof.
  apply (normalizeSnapshotPaths_relocates {| symbols := worktreeRegistry |}
           (lit "/tmp/flowlock-x") (lit "/repo")).
  - reflexivity.
  - reflexivity.
  - intros key fn [[= <- <-]|[[= <- <-]|[]]]; vm_compute; auto.
  - repeat constructor; simpl; intuition discriminate.
Defined.

Lemma normalizeEntries_identity V (filePathOf : V -> jsstring)
      (withPath : V -> jsstring -> V) (prefix toPrefix : jsstring)
      (o : JsRecord V) :
  (forall v, withPath v (filePathOf v) = v) ->
  outsidePrefix filePathOf prefix o ->
  NoDup (Object_keys o) ->
  fold_left (normalizeEntry filePathOf withPath
               (fun p => if startsWith p prefix
                         then String_replace p prefix toPrefix else p))
            o []
  = o.
Proof.
  intros Hwith Hout Hnd.
  rewrite (fold_left_ext_in _ _ _ (fun m e => Map_set m (fst e) (snd e))).
  - now apply Map_new_distinct.
  - intros acc [key v] Hin. destruct (Hout _ _ Hin) as [Hd Hs].
    unfold normalizeEntry, Record_set. cbn [fst snd].
    now rewrite Hs, (String_replace_itself _ _ Hd), Hwith.
Qed.

(** X29. A snapshot none of whose recorded paths starts with the work-tree
    path is returned unchanged by [normalizeSnapshotPaths], for records
    without repeated keys, with keys that are neither array indices nor
    [__proto__], and for paths without a dollar sign. *)
Theorem normalizeSnapshotPaths_identity snapshot fromPrefix toPrefix :
  wellFormedSnapshot snapshot ->
  ordinaryKeys (functions (symbols snapshot)) ->
  ordinaryKeys (interfaces (symbols snapshot)) ->
  ordinaryKeys (types (symbols snapshot)) ->
  outsidePrefix fn_filePath fromPrefix (functions (symbols snapshot)) ->
  outsidePrefix iface_filePath fromPrefix (interfaces (symbols snapshot)) ->
  outsidePrefix alias_filePath fromPrefix (types (symbols snapshot)) ->
  normalizeSnapshotPaths snapshot fromPrefix toPrefix = snapshot.
Proof.
  intros (Hf & Hi & Ht) _ _ _ Hof Hoi Hot. unfold normalizeSnapshotPaths.
  rewrite !normalizeEntries_identity; try assumption.
  - now destruct snapshot as [[f i t]].
  - now intros [].
  - now intros [].
  - now intros [].
Qed.

Lemma normalizeSnapshotPaths_identity_witness :
  normalizeSnapshotPaths {| symbols := greetRegistry |}
    (lit "/tmp/flowlock-x") (lit "/repo")
  = {| symbols := greetRegistry |}.
Proof.
  apply (normalizeSnapshotPaths_identity {| symbols := greetRegistry |}).
  - repeat split; simpl; repeat constructor; simpl; intuition.
  - intros key [<-|[]]. reflexivity.
  - intros key [].
  - intros key [].
  - intros key fn [[= <- <-]|[]]. split; reflexivity.
  - intros key v [].
  - intros key v [].
Defined.

(** ** A baseline saved from a ref, then loaded *)

(** X30. After [saveSnapshotFromGitRef] has succeeded, [loadSnapshot] on
    the same output path (the default one when none was given) and the same
    working directory succeeds and returns the snapshot that the work tree
    gave, with the ref as it was given and the commit hash of the work tree
    in the metadata.  The records of the work tree's snapshot are taken as
    objects (no key twice). *)
Theorem saveSnapshotFromGitRef_then_load
    cwd now syntaxErrorMessage isGitRepository inWorktree configPath ref
    outputPath options fs path fs' :
  (forall dir cfg t r i snap sha,
      inWorktree dir cfg t r i = Ok (snap, sha) -> wellFormedSnapshot snap) ->
  saveSnapshotFromGitRef cwd now isGitRepository inWorktree configPath ref
    outputPath options fs = (Ok path, fs') ->
  exists stored loaded,
    snapshotFromGitRef cwd now isGitRepository inWorktree configPath ref
      options = Ok stored
    /\ loadSnapshot cwd syntaxErrorMessage
         (orElse outputPath
            (lit ".flowlock/baseline-" ++ sanitizeRef ref ++ lit ".json"))
         {| load_baseDir := Some (orElse (git_cwd options) cwd) |} fs'
       = (Ok loaded, fs')
    /\ getProp loaded (lit "snapshot") = snapshotValue (snapshot stored)
    /\ getProp (getProp loaded (lit "metadata")) (lit "gitRef") = VString ref
    /\ getProp (getProp loaded (lit "metadata")) (lit "gitSha")
       = optionalString (gitSha (metadata stored)).
Proof.
  intros Hobjects Hsave.
  unfold saveSnapshotFromGitRef in Hsave.
  unfold bindIO at 1 in Hsave. unfold liftResult at 1 in Hsave.
  destruct (snapshotFromGitRef cwd now isGitRepository inWorktree configPath
              ref options) as [stored|] eqn:Estored; [|discriminate Hsave].
  assert (Hwf : wellFormedSnapshot (snapshot stored)).
  { unfold snapshotFromGitRef, bind in Estored.
    destruct (validateGitRef _); [|discriminate Estored].
    destruct (validatePath _ _ _); [|discriminate Estored].
    destruct (negb _); [discriminate Estored|].
    destruct (inWorktree _ _ _ _ _) as [[snap sha]|] eqn:Ew;
      [|discriminate Estored].
    injection Estored as <-. cbn [snapshot fst]. eapply Hobjects, Ew. }
  destruct (saveSnapshot_inv _ _ _ _ _ _ _ _ Hsave)
    as (resolved & text & Hout & _ & Htext & Hfile).
  cbn [save_outputPath save_baseDir orElse] in Hout.
  set (saveOptions :=
         {| save_outputPath :=
              Some (orElse outputPath
                      (lit ".flowlock/baseline-" ++ sanitizeRef ref
                       ++ lit ".json"));
            save_baseDir := Some (orElse (git_cwd options) cwd);
            save_gitRef := Some ref;
            save_gitSha := gitSha (metadata stored) |}) in *.
  set (written := envelope now resolved saveOptions (snapshot stored)) in *.
  assert (Hversion : version (metadata written) = SNAPSHOT_FORMAT_VERSION)
    by reflexivity.
  pose proof (wellFormed_serialized _ 0 text Htext) as Hsame.
  unfold wellFormedText in Hsame. rewrite Hsame in Hfile.
  rewrite <- stringify_written in Htext.
  pose proof (JSON_parse_stringify _ _
                (writtenValue_clean written Hversion Hwf) Htext) as Hparse.
  destruct (writtenValue_shape written Hversion)
    as (Hshape & Hfound & Hsnap & Href & Hsha).
  exists stored, (writtenValue written).
  split; [reflexivity|].
  split; [|split; [exact Hsnap|split; [exact Href|exact Hsha]]].
  unfold loadSnapshot, bindIO, liftResult, existsSync, readFileSync, isFile,
    Map_has. cbn [load_baseDir orElse].
  rewrite Hout, Hfile. cbn [negb orb]. rewrite Hfile, Hparse, Hshape.
  cbn [negb]. rewrite Hfound. reflexivity.
Qed.

Lemma saveSnapshotFromGitRef_then_load_witness :
  exists stored loaded,
    snapshotFromGitRef (lit "/repo") sampleTime anyRepository greetWorktree
      (lit "tsconfig.json") (lit "origin/main") defaultGitOptions = Ok stored
    /\ loadSnapshot (lit "/repo") noMessage
         (orElse None
            (lit ".flowlock/baseline-" ++ sanitizeRef (lit "origin/main")
             ++ lit ".json"))
         {| load_baseDir :=
              Some (orElse (git_cwd defaultGitOptions) (lit "/repo")) |}
         (snd (saveSnapshotFromGitRef (lit "/repo") sampleTime anyRepository
                 greetWorktree (lit "tsconfig.json") (lit "origin/main") None
                 defaultGitOptions emptyFs))
       = (Ok loaded,
          snd (saveSnapshotFromGitRef (lit "/repo") sampleTime anyRepository
                 greetWorktree (lit "tsconfig.json") (lit "origin/main") None
                 defaultGitOptions emptyFs))
    /\ getProp loaded (lit "snapshot") = snapshotValue (snapshot stored)
    /\ getProp (getProp loaded (lit "metadata")) (lit "gitRef")
       = VString (lit "origin/main")
    /\ getProp (getProp loaded (lit "metadata")) (lit "gitSha")
       = optionalString (gitSha (metadata stored)).
Proof.
  apply (saveSnapshotFromGitRef_then_load (lit "/repo") sampleTime noMessage
           anyRepository greetWorktree (lit "tsconfig.json")
           (lit "origin/main") None defaultGitOptions emptyFs
           (lit "/repo/.flowlock/baseline-origin_main.json")).
  - intros dir cfg t r i snap sha H. unfold greetWorktree in H.
    injection H as <- _.
    repeat split; simpl; repeat constructor; simpl; intuition.
  - vm_compute. reflexivity.
Defined.
